(** * The Lorenz-96 "GCM" integrators of [presentation-model-setup.ipynb]

    The notebook defines two forward-Euler integrators of the one time-scale
    Lorenz-96 system, [GCM] (lines 270-278) and its stochastic variant [GCMs]
    (lines 506-517), and the error [err] (lines 394-395) of a run against the
    truth.  All work on numpy [float64] arrays.

    The embedding keeps the arithmetic of the source: a scalar is a primitive
    binary64 float (IEEE 754, round to nearest even, the arithmetic of numpy's
    [float64]; the one not-a-number of Rocq's floats stands for all payloads),
    a one-dimensional array is a [list float], the history buffer is a list
    of rows.  A Python exception is the [None] result.

    The integrators are given twice.  On values, as functions from the
    contents of [X0] to the contents of the arrays returned: the properties of
    what a run computes are stated there.  On a store of arrays with numpy's
    global generator, where [X0] is a reference: the properties of the caller's
    state are stated there, and the integrators on the store are shown to
    compute what the ones on values do. *)

From Stdlib Require Import ZArith Lia Floats.
From stdpp Require Import base option list gmap.

Set Warnings "-inexact-float".
Local Open Scope float_scope.

(** ** numpy on one-dimensional [float64] arrays *)

Module np.

Abbreviation ndarray := (list float).

(** An integer used in float arithmetic ([dt * (n + 1)], [dt * np.arange(nt)]),
    rounded to the nearest float; as the source for every index an array can
    have (below 2^63). *)
Definition of_int (n : Z) : float := PrimFloat.of_uint63 (Uint63.of_Z n).

(** Elementwise operators; every pair of arrays the integrators combine has
    the same length, so no broadcasting between arrays is modelled. *)
Definition add (a b : ndarray) : ndarray := zip_with PrimFloat.add a b.
Definition sub (a b : ndarray) : ndarray := zip_with PrimFloat.sub a b.
Definition mul (a b : ndarray) : ndarray := zip_with PrimFloat.mul a b.
Definition neg (a : ndarray) : ndarray := PrimFloat.opp <$> a.

(** A scalar on the left ([dt * a]) and on the right ([a + F], [a - c]). *)
Definition smul (c : float) (a : ndarray) : ndarray := (λ x, c * x) <$> a.
Definition adds (a : ndarray) (c : float) : ndarray := (λ x, x + c) <$> a.
Definition subs (a : ndarray) (c : float) : ndarray := (λ x, x - c) <$> a.

Definition abs (a : ndarray) : ndarray := PrimFloat.abs <$> a.

Definition zeros (n : nat) : ndarray := replicate n 0.
Definition zeros_like (a : ndarray) : ndarray := zeros (length a).

(** [np.arange(nt)]: empty for a negative [nt]. *)
Definition arange (nt : Z) : list Z := Z.of_nat <$> seq 0 (Z.to_nat nt).

(** [np.roll(a, shift)]: element [i] moves to position [(i + shift) mod K]. *)
Definition roll (a : ndarray) (shift : Z) : ndarray :=
  rotate (Z.to_nat ((- shift) `mod` Z.of_nat (length a))) a.

(** The binary maximum numpy reduces with: [a] when [a >= b] or [a] is not
    a number, else [b]; a not-a-number on either side is the result. *)
Definition maximum (a b : float) : float :=
  if (b <=? a) || is_nan a then a else b.

(** [a.max()]: raises [ValueError] on a zero-size array. *)
Definition max (a : ndarray) : option float :=
  match a with
  | [] => None
  | x :: r => Some (foldl maximum x r)
  end.

(** [np.polyval(p, x)]: Horner's scheme, highest degree first, from
    [y = zeros_like(x)] by [y = y * x + pv] for each coefficient. *)
Definition polyval (p : list float) (x : ndarray) : ndarray :=
  foldl (λ y pv, adds (mul y x) pv) (zeros_like x) p.

(** Horner's scheme on one value: what [polyval] computes in each slot. *)
Definition horner (p : list float) (x : float) : float :=
  foldl (λ y pv, y * x + pv) 0 p.

End np.

(** ** The order of binary64 values

    [Prim2SF] gives a float its sign, mantissa and exponent.  The comparison of
    two floats that are numbers is the lexicographic comparison of their
    [rank]s. *)

Module F64.

Definition rank (x : spec_float) : Z * Z * Z :=
  match x with
  | S754_zero _ | S754_nan => (0, 0, 0)
  | S754_infinity s => (if s then -2 else 2, 0, 0)
  | S754_finite s m e => if s then (-1, - e, Z.neg m) else (1, e, Z.pos m)
  end%Z.

Definition lex_compare (a b : Z * Z * Z) : comparison :=
  match (a.1.1 ?= b.1.1)%Z with
  | Eq => match (a.1.2 ?= b.1.2)%Z with Eq => (a.2 ?= b.2)%Z | c => c end
  | c => c
  end.

Definition lex_lt (a b : Z * Z * Z) : Prop :=
  (a.1.1 < b.1.1 ∨ a.1.1 = b.1.1 ∧ (a.1.2 < b.1.2 ∨ a.1.2 = b.1.2 ∧ a.2 < b.2))%Z.

Definition is_nanS (x : spec_float) : bool :=
  match x with S754_nan => true | _ => false end.

Definition rk (x : float) : Z * Z * Z := rank (Prim2SF x).

(** The order of two floats, [None] when either is not a number. *)
Definition cmp (x y : float) : option comparison :=
  if is_nan x || is_nan y then None else Some (lex_compare (rk x) (rk y)).

End F64.

(** ** The tendency of the one time-scale system *)

(** Modelled from the spec: [L96_eq1_xdot] is imported from [L96_model], which
    is not part of the notebooks.  The spec gives the slow tendency without
    coupling, [dX_k/dt = - X_{k-1} (X_{k-2} - X_{k+1}) - X_k + F], with all
    indices taken modulo [K]; it is evaluated here as Python evaluates that
    expression on rolled copies of [X]. *)
Definition L96_eq1_xdot (X : np.ndarray) (F : float) : np.ndarray :=
  np.adds
    (np.sub (np.mul (np.neg (np.roll X 1)) (np.sub (np.roll X 2) (np.roll X (-1)))) X)
    F.

(** The shape of a tendency the arithmetic facts below rely on: slot [k] is
    [(a - X_k) + F] for some advection term [a]. *)
Definition tendency_shape (xdot : np.ndarray → float → np.ndarray) : Prop :=
  ∀ X F k x, X !! k = Some x → ∃ a, xdot X F !! k = Some (a - x + F).

(** ** The integrators *)

(** No slot of the array is not-a-number. *)
Definition no_nan (X : np.ndarray) : Prop := Forall (λ v, is_nan v = false) X.

(** A row of the history buffer that no iteration wrote. *)
Definition nan_row (K : nat) : np.ndarray := replicate K nan.

Section Integrators.

(** The integrators are written over the tendency function they call, so
    that what is proved of them does not depend on how [L96_model] evaluates
    it. *)
Variable L96_eq1_xdot : np.ndarray → float → np.ndarray.

(** Line 274: [X + dt * (L96_eq1_xdot(X, F) - np.polyval(param, X))]. *)
Definition GCM_step (F dt : float) (param : list float) (X : np.ndarray) : np.ndarray :=
  np.add X (np.smul dt (np.sub (L96_eq1_xdot X F) (np.polyval param X))).

(** Line 275: [np.abs(X).max() > 1e3]; [None] when [max] raises. *)
Definition diverged (X : np.ndarray) : option bool :=
  m ← np.max (np.abs X); Some (1e3 <? m).

(** The loop of [GCM] over the remaining indices [ns] of [range(nt)];
    [break] returns the buffers as they are. *)
Fixpoint GCM_loop (F dt : float) (param : list float) (ns : list nat)
    (hist : list np.ndarray) (time : np.ndarray) (X : np.ndarray)
    : option (list np.ndarray * np.ndarray) :=
  match ns with
  | [] => Some (hist, time)
  | n :: ns' =>
      let X := GCM_step F dt param X in
      b ← diverged X;
      if b : bool then Some (hist, time)
      else GCM_loop F dt param ns'
             (<[n := X]> hist) (<[n := dt * np.of_int (Z.of_nat n + 1)]> time) X
  end.

(** The initial buffers of line 271: [dt * np.arange(nt)] and
    [np.zeros((nt, len(X0))) * np.nan]. *)
Definition time0 (dt : float) (nt : Z) : np.ndarray :=
  (λ i, dt * np.of_int i) <$> np.arange nt.
Definition hist0 (nt : Z) (K : nat) : list np.ndarray :=
  replicate (Z.to_nat nt) ((λ z, z * nan) <$> np.zeros K).

(** [GCM(X0, F, dt, nt, param)]; [np.zeros] raises on a negative dimension.
    This is the call on the [nt] for which numpy can make the two buffers;
    that line 271 raises as well when it cannot is added in [GCM_alloc]
    below. *)
Definition GCM (X0 : np.ndarray) (F dt : float) (nt : Z) (param : list float)
    : option (list np.ndarray * np.ndarray) :=
  if (nt <? 0)%Z then None
  else GCM_loop F dt param (seq 0 (Z.to_nat nt)) (hist0 nt (length X0)) (time0 dt nt) X0.

(** The state after [n] Euler steps from [X0]. *)
Definition GCM_state (F dt : float) (param : list float) (X0 : np.ndarray) (n : nat)
    : np.ndarray :=
  Nat.iter n (GCM_step F dt param) X0.

(** The number of iterations, out of [k], that reach line 277 (and record a
    row) when the loop starts from [X]; [None] when an iteration raises. *)
Fixpoint GCM_completed (F dt : float) (param : list float) (k : nat) (X : np.ndarray)
    : option nat :=
  match k with
  | O => Some O
  | S k' =>
      let X := GCM_step F dt param X in
      b ← diverged X;
      if b : bool then Some O else S <$> GCM_completed F dt param k' X
  end.

(** *** The reduced step with a constant coupling term

    The spec's [reduced_step(X, F, couplingTerm)] with a supplied constant in
    place of the coupling sum, and the run that takes this step in the
    stepping skeleton of [GCM].  Written from the spec's words, to compare
    [GCM] with. *)
Definition reduced_step (F dt coupling : float) (X : np.ndarray) : np.ndarray :=
  np.add X (np.smul dt (np.subs (L96_eq1_xdot X F) coupling)).

Fixpoint reduced_loop (F dt coupling : float) (ns : list nat)
    (hist : list np.ndarray) (time : np.ndarray) (X : np.ndarray)
    : option (list np.ndarray * np.ndarray) :=
  match ns with
  | [] => Some (hist, time)
  | n :: ns' =>
      let X := reduced_step F dt coupling X in
      b ← diverged X;
      if b : bool then Some (hist, time)
      else reduced_loop F dt coupling ns'
             (<[n := X]> hist) (<[n := dt * np.of_int (Z.of_nat n + 1)]> time) X
  end.

Definition reduced_run (X0 : np.ndarray) (F dt : float) (nt : Z) (coupling : float)
    : option (list np.ndarray * np.ndarray) :=
  if (nt <? 0)%Z then None
  else reduced_loop F dt coupling (seq 0 (Z.to_nat nt))
         (hist0 nt (length X0)) (time0 dt nt) X0.

(** *** The stochastic variant

    [np.random.randn] draws from numpy's global generator: its state [rng]
    is threaded through the run, [randn K g] being the [K] samples drawn in
    state [g] and the state after the draw. *)
Variable rng : Type.
Variable randn : nat → rng → np.ndarray * rng.

(** Line 512: [phi * ek + stoch * np.sqrt((1 - phi) * (1 + phi)) * randn]. *)
Definition red_noise (stoch phi : float) (ek z : np.ndarray) : np.ndarray :=
  np.add (np.smul phi ek)
         (np.smul (stoch * PrimFloat.sqrt ((1 - phi) * (1 + phi))) z).

(** Line 513:
    [X + dt * (L96_eq1_xdot(X, F) - np.polyval(param, X) + stoch * ek)]. *)
Definition GCMs_step (F dt : float) (param : list float) (stoch : float)
    (ek X : np.ndarray) : np.ndarray :=
  np.add X (np.smul dt
    (np.add (np.sub (L96_eq1_xdot X F) (np.polyval param X)) (np.smul stoch ek))).

Fixpoint GCMs_loop (F dt : float) (param : list float) (stoch phi : float)
    (ns : list nat) (hist : list np.ndarray) (time : np.ndarray)
    (ek X : np.ndarray) (g : rng)
    : option (list np.ndarray * np.ndarray) * rng :=
  match ns with
  | [] => (Some (hist, time), g)
  | n :: ns' =>
      let '(z, g) := randn (length X) g in
      let ek := red_noise stoch phi ek z in
      let X := GCMs_step F dt param stoch ek X in
      match diverged X with
      | None => (None, g)
      | Some true => (Some (hist, time), g)
      | Some false =>
          GCMs_loop F dt param stoch phi ns'
            (<[n := X]> hist) (<[n := dt * np.of_int (Z.of_nat n + 1)]> time) ek X g
      end
  end.

(** [GCMs(X0, F, dt, nt, param, stoch, phi)] run in generator state [g]:
    what it returns or [None] when it raises, and the generator state it
    leaves.  As [GCM], on the [nt] for which numpy can make the buffers of
    line 507; see [GCMs_alloc] below. *)
Definition GCMs (X0 : np.ndarray) (F dt : float) (nt : Z) (param : list float)
    (stoch phi : float) (g : rng) : option (list np.ndarray * np.ndarray) * rng :=
  if (nt <? 0)%Z then (None, g)
  else GCMs_loop F dt param stoch phi (seq 0 (Z.to_nat nt))
         (hist0 nt (length X0)) (time0 dt nt) (np.zeros (length X0)) X0 g.

(** The buffers [GCM] returns when [m] of its [nt] iterations recorded a
    row: the states after 1, ..., [m] steps and then the rows and times of
    line 271 that no iteration overwrote. *)
Definition history (F dt : float) (param : list float) (X0 : np.ndarray) (nt m : nat)
    : list np.ndarray :=
  ((λ j, GCM_state F dt param X0 (S j)) <$> seq 0 m)
    ++ replicate (nt - m) (nan_row (length X0)).
Definition times (dt : float) (nt m : nat) : np.ndarray :=
  ((λ j, dt * np.of_int (Z.of_nat j + 1)) <$> seq 0 m)
    ++ ((λ j, dt * np.of_int (Z.of_nat j)) <$> seq m (nt - m)).

End Integrators.

(** ** The run of the stochastic variant, iteration by iteration *)

Section Stochastic_run.

Variable L96_eq1_xdot : np.ndarray → float → np.ndarray.
Variable rng : Type.
Variable randn : nat → rng → np.ndarray * rng.

(** Lines 512-513: what one iteration of the loop of [GCMs] makes of the
    red noise [ek], the state [X] and the generator. *)
Definition GCMs_next (F dt : float) (param : list float) (stoch phi : float)
    (s : np.ndarray * np.ndarray * rng) : np.ndarray * np.ndarray * rng :=
  let '(ek, X, g) := s in
  let '(z, g) := randn (length X) g in
  let ek := red_noise stoch phi ek z in
  (ek, GCMs_step L96_eq1_xdot F dt param stoch ek X, g).

(** The red noise, the state and the generator after [n] iterations of a
    call [GCMs(X0, ...)] made in generator state [g]. *)
Definition GCMs_state (F dt : float) (param : list float) (stoch phi : float)
    (X0 : np.ndarray) (g : rng) (n : nat) : np.ndarray * np.ndarray * rng :=
  Nat.iter n (GCMs_next F dt param stoch phi) (np.zeros (length X0), X0, g).

(** The number of iterations, out of [k], that reach line 516 (and record a
    row) when the loop starts from [s]; [None] when an iteration raises. *)
Fixpoint GCMs_completed (F dt : float) (param : list float) (stoch phi : float)
    (k : nat) (s : np.ndarray * np.ndarray * rng) : option nat :=
  match k with
  | O => Some O
  | S k' =>
      let s := GCMs_next F dt param stoch phi s in
      b ← diverged s.1.2;
      if b : bool then Some O else S <$> GCMs_completed F dt param stoch phi k' s
  end.

(** The generator after [n] calls of [np.random.randn(K)]. *)
Definition draws (K n : nat) (g : rng) : rng :=
  Nat.iter n (λ g, (randn K g).2) g.

End Stochastic_run.

(** ** The allocation of the buffers

    Lines 271 and 507 build [dt * np.arange(nt)] and
    [np.zeros((nt, len(X0))) * np.nan] before the loop.  numpy raises when it
    cannot make them: [ValueError] beyond its maximum dimension (as at
    [nt = 2^63]), [MemoryError] beyond the memory of the machine.  How much
    there is room for depends on the machine and is a parameter: [room nt K]
    holds when numpy can make an array of [nt] values and one of [nt] rows
    of [K].  No iteration has run when the allocation fails, and no sample
    has been drawn. *)

Section Allocation.

Variable L96_eq1_xdot : np.ndarray → float → np.ndarray.
Variable room : Z → nat → bool.

Definition GCM_alloc (X0 : np.ndarray) (F dt : float) (nt : Z) (param : list float)
    : option (list np.ndarray * np.ndarray) :=
  if room nt (length X0) then GCM L96_eq1_xdot X0 F dt nt param else None.

Variable rng : Type.
Variable randn : nat → rng → np.ndarray * rng.

Definition GCMs_alloc (X0 : np.ndarray) (F dt : float) (nt : Z) (param : list float)
    (stoch phi : float) (g : rng) : option (list np.ndarray * np.ndarray) * rng :=
  if room nt (length X0) then GCMs L96_eq1_xdot rng randn X0 F dt nt param stoch phi g
  else (None, g).

End Allocation.

(** ** The integrators on the store

    In Python [X0], [hist] and [time] are references to arrays in the
    interpreter's store, and [np.random.randn] reads and advances the global
    generator.  Here the store is explicit: a [world] is a heap of arrays and
    the generator state, a computation maps a world to its result ([None]
    when it raises) and the world it leaves.  An expression on arrays reads
    its operands and its value is a new array, as in numpy; the arrays bound
    to names ([time], [hist], [X], [ek]) are allocated in the heap. *)

Module Store.
Section store.

Variable L96_eq1_xdot : np.ndarray → float → np.ndarray.
Variable rng : Type.
Variable randn : nat → rng → np.ndarray * rng.

Inductive object := Vec (v : np.ndarray) | Mat (rows : list np.ndarray).

Record world := World { heap : gmap positive object; gen : rng }.

Definition M (A : Type) : Type := world → option A * world.

Definition ret {A} (a : A) : M A := λ w, (Some a, w).
Definition bind {A B} (m : M A) (k : A → M B) : M B :=
  λ w, match m w with
       | (Some a, w') => k a w'
       | (None, w') => (None, w')
       end.
Definition lift {A} (o : option A) : M A := λ w, (o, w).

(** A new array, at an address not in use. *)
Definition alloc (o : object) : M positive :=
  λ w, let l := fresh (dom (heap w)) in
       (Some l, World (<[l := o]> (heap w)) (gen w)).

(** Reading a one-dimensional array. *)
Definition load (l : positive) : M np.ndarray :=
  λ w, match heap w !! l with
       | Some (Vec v) => (Some v, w)
       | _ => (None, w)
       end.

(** [hist[n] = row] and [time[n] = v]: written in place, [IndexError] out
    of range. *)
Definition store_row (h : positive) (n : nat) (row : np.ndarray) : M unit :=
  λ w, match heap w !! h with
       | Some (Mat rows) =>
           if decide (n < length rows)
           then (Some (), World (<[h := Mat (<[n := row]> rows)]> (heap w)) (gen w))
           else (None, w)
       | _ => (None, w)
       end.
Definition store_item (t : positive) (n : nat) (v : float) : M unit :=
  λ w, match heap w !! t with
       | Some (Vec a) =>
           if decide (n < length a)
           then (Some (), World (<[t := Vec (<[n := v]> a)]> (heap w)) (gen w))
           else (None, w)
       | _ => (None, w)
       end.

(** [np.random.randn(K)]: the samples, the generator advanced. *)
Definition draw (K : nat) : M np.ndarray :=
  λ w, let '(z, g) := randn K (gen w) in (Some z, World (heap w) g).

#[local] Instance M_ret : MRet M := @ret.
#[local] Instance M_bind : MBind M := λ A B k m, bind m k.

Fixpoint GCM_loop (F dt : float) (param : list float) (ns : list nat)
    (hist time X : positive) : M (positive * positive) :=
  match ns with
  | [] => ret (hist, time)
  | n :: ns' =>
      x ← load X;
      X ← alloc (Vec (GCM_step L96_eq1_xdot F dt param x));
      x ← load X;
      b ← lift (diverged x);
      if b : bool then ret (hist, time)
      else
        store_row hist n x;;
        store_item time n (dt * np.of_int (Z.of_nat n + 1));;
        GCM_loop F dt param ns' hist time X
  end.

(** [GCM(X0, F, dt, nt, param)] with [X0] a reference. *)
Definition GCM (X0 : positive) (F dt : float) (nt : Z) (param : list float)
    : M (positive * positive) :=
  time ← alloc (Vec (time0 dt nt));
  x0 ← load X0;
  hist ← (if (nt <? 0)%Z then lift None else alloc (Mat (hist0 nt (length x0))));
  X ← alloc (Vec x0);
  GCM_loop F dt param (seq 0 (Z.to_nat nt)) hist time X.

Fixpoint GCMs_loop (F dt : float) (param : list float) (stoch phi : float)
    (ns : list nat) (hist time ek X : positive) : M (positive * positive) :=
  match ns with
  | [] => ret (hist, time)
  | n :: ns' =>
      e ← load ek;
      x ← load X;
      z ← draw (length x);
      ek ← alloc (Vec (red_noise stoch phi e z));
      e ← load ek;
      X ← alloc (Vec (GCMs_step L96_eq1_xdot F dt param stoch e x));
      x ← load X;
      b ← lift (diverged x);
      if b : bool then ret (hist, time)
      else
        store_row hist n x;;
        store_item time n (dt * np.of_int (Z.of_nat n + 1));;
        GCMs_loop F dt param stoch phi ns' hist time ek X
  end.

Definition GCMs (X0 : positive) (F dt : float) (nt : Z) (param : list float)
    (stoch phi : float) : M (positive * positive) :=
  time ← alloc (Vec (time0 dt nt));
  x0 ← load X0;
  hist ← (if (nt <? 0)%Z then lift None else alloc (Mat (hist0 nt (length x0))));
  X ← alloc (Vec x0);
  x ← load X;
  ek ← alloc (Vec (np.zeros (length x)));
  GCMs_loop F dt param stoch phi (seq 0 (Z.to_nat nt)) hist time ek X.

(** What the caller finds in the arrays a call returned. *)
Definition returned (r : option (positive * positive) * world)
    : option (option object * option object) :=
  match r.1 with
  | Some (hist, time) => Some (heap r.2 !! hist, heap r.2 !! time)
  | None => None
  end.

End store.

(** The same for a result on values: its two arrays as the caller would
    find them. *)
Definition contents (r : option (list np.ndarray * np.ndarray))
    : option (option object * option object) :=
  (λ '(H, T), (Some (Mat H), Some (Vec T))) <$> r.

End Store.

(** Python's [int(x)] of a float, as at the call sites [int(T / dt)]: the
    value truncated towards zero; [OverflowError] on an infinity and
    [ValueError] on not-a-number are [None]. *)
Definition py_int (x : float) : option Z :=
  match Prim2SF x with
  | S754_zero _ => Some 0%Z
  | S754_finite s m e => Some (cond_Zopp s (Z.shiftl (Z.pos m) e))
  | S754_infinity _ | S754_nan => None
  end.

(** ** The callers of the integrators

    The cells that call [GCM] combine arrays whose shapes the integrators do
    not fix, so numpy's broadcasting is modelled for them. *)

(** numpy's broadcasting of one dimension: the sizes are equal or one of them
    is 1, else the operation raises [ValueError]. *)
Definition broadcast (a b : nat) : option nat :=
  if decide (a = b) then Some a
  else if decide (a = 1%nat) then Some b
  else if decide (b = 1%nat) then Some a
  else None.

(** A dimension of size 1 repeated to size [n]; any other is left as it
    is. *)
Definition stretch {A} (n : nat) (l : list A) : list A :=
  match l with
  | [x] => replicate n x
  | _ => l
  end.

(** [a + b] on one-dimensional arrays. *)
Definition add1 (a b : np.ndarray) : option np.ndarray :=
  n ← broadcast (length a) (length b);
  Some (np.add (stretch n a) (stretch n b)).

(** Line 284: [Xinit = Xtrue[0] + 0.0 * np.random.randn(W.K)], the initial
    state of the runs of lines 285-287; [z] is the array of samples drawn. *)
Definition Xinit (Xtrue0 z : np.ndarray) : option np.ndarray :=
  add1 Xtrue0 (np.smul 0 z).

(** *** Two-dimensional arrays

    A two-dimensional [float64] array is its shape and its rows; the shape is
    kept beside the rows, as an array without rows has columns too. *)
Record array2 := Array2 { nrows : nat; ncols : nat; rows : list np.ndarray }.

Definition shaped (A : array2) : Prop :=
  length (rows A) = nrows A ∧ Forall (λ r, length r = ncols A) (rows A).

(** [A - B] on two-dimensional arrays. *)
Definition sub2 (A B : array2) : option array2 :=
  n ← broadcast (nrows A) (nrows B);
  k ← broadcast (ncols A) (ncols B);
  Some (Array2 n k
          (zip_with (λ a b, np.sub (stretch k a) (stretch k b))
             (stretch n (rows A)) (stretch n (rows B)))).

(** [A[1:, :]]: all rows but the first; no row of an array without rows. *)
Definition tail_rows (A : array2) : array2 :=
  Array2 (nrows A - 1) (ncols A) (drop 1 (rows A)).

(** [A ** 2]: numpy squares by multiplying each element with itself. *)
Definition square2 (A : array2) : array2 :=
  Array2 (nrows A) (ncols A) ((λ r, np.mul r r) <$> rows A).

Section Error.

(** The sum of a row, [np.add.reduce].  In which order numpy adds the
    elements of a row is its own affair (pairwise, in blocks whose size
    depends on the version): the sum is a parameter of the mean. *)
Variable add_reduce : np.ndarray → float.

(** [A.mean(axis=1)]: the sum of each row divided by the number of
    columns. *)
Definition mean_axis1 (A : array2) : np.ndarray :=
  (λ r, add_reduce r / np.of_int (Z.of_nat (ncols A))) <$> rows A.

(** Lines 394-395: [np.sqrt(((X - Xtrue[1:, :]) ** 2).mean(axis=1))]. *)
Definition err (X Xtrue : array2) : option np.ndarray :=
  D ← sub2 X (tail_rows Xtrue);
  Some (PrimFloat.sqrt <$> mean_axis1 (square2 D)).

End Error.

(** ** A generator and a store to run the integrators in

    A stand-in for numpy's generator, its state a counter, and a store that
    holds one array. *)

Definition example_randn (K : nat) (g : nat) : np.ndarray * nat :=
  ((λ i, if Nat.even (g + i) then 0.5 else -1.25) <$> seq 0 K, (g + K)%nat).

Definition example_world : Store.world nat :=
  Store.World nat {[ 5%positive := Store.Vec [1; 2; 3; 4] ]} 7%nat.

(** Another store: the same initial state at another address, beside another
    array. *)
Definition example_world' : Store.world nat :=
  Store.World nat
    (<[ 2%positive := Store.Vec [1; 2; 3; 4] ]> {[ 3%positive := Store.Vec [9; 9] ]})
    7%nat.

(** Two calls of [GCM] from the array of [example_world], one after the
    other. *)
Definition example_call1 : option (positive * positive) * Store.world nat :=
  Store.GCM L96_eq1_xdot nat 5%positive 18 1 5 [0] example_world.
Definition example_call2 : option (positive * positive) * Store.world nat :=
  Store.GCM L96_eq1_xdot nat 5%positive 18 0.002 3 [0.5; -2] example_call1.2.

(** Two calls of [GCMs], likewise. *)
Definition example_calls1 : option (positive * positive) * Store.world nat :=
  Store.GCMs L96_eq1_xdot nat example_randn 5%positive 18 1 5 [0] 1 0.984 example_world.
Definition example_calls2 : option (positive * positive) * Store.world nat :=
  Store.GCMs L96_eq1_xdot nat example_randn 5%positive 18 0.002 3 [0.5; -2] 1 0.984
    example_calls1.2.

(** The sum of a row from left to right, one of the orders a reduction can
    take. *)
Definition example_add_reduce (r : np.ndarray) : float := foldl PrimFloat.add 0 r.

(** A machine with room for [2^20] values. *)
Definition example_room (nt : Z) (K : nat) : bool :=
  (nt * (Z.of_nat K + 1) <=? 2 ^ 20)%Z.

(** * Facts *)

(** ** Comparison of floats *)

Import F64.

Lemma SFcompare_rank x y :
  SFcompare x y =
    if is_nanS x || is_nanS y then None else Some (lex_compare (rank x) (rank y)).
Proof.
  destruct x as [[]|[]| |[] m1 e1], y as [[]|[]| |[] m2 e2]; try reflexivity;
    cbn -[Z.compare]; unfold lex_compare; cbn -[Z.compare].
  rewrite Z.compare_opp, (Z.compare_antisym e1 e2).
  destruct (e1 ?= e2)%Z; reflexivity.
Qed.

Lemma lex_compare_spec a b :
  CompareSpec (a = b) (lex_lt a b) (lex_lt b a) (lex_compare a b).
Proof.
  destruct a as [[a1 a2] a3], b as [[b1 b2] b3]; unfold lex_compare, lex_lt; cbn.
  destruct (Z.compare_spec a1 b1); [|constructor; lia..].
  destruct (Z.compare_spec a2 b2); [|constructor; lia..].
  destruct (Z.compare_spec a3 b3); constructor; first [congruence | lia].
Qed.

Lemma lex_lt_trans a b c : lex_lt a b → lex_lt b c → lex_lt a c.
Proof. unfold lex_lt. lia. Qed.
Lemma lex_lt_irrefl a : ¬ lex_lt a a.
Proof. unfold lex_lt. lia. Qed.

Lemma is_nan_spec x : is_nan x = is_nanS (Prim2SF x).
Proof.
  unfold is_nan. rewrite FloatAxioms.eqb_spec. unfold SFeqb. rewrite SFcompare_rank.
  destruct (is_nanS (Prim2SF x)); [reflexivity|]. cbn.
  destruct (lex_compare_spec (rank (Prim2SF x)) (rank (Prim2SF x))) as [|H|H];
    [reflexivity|by apply lex_lt_irrefl in H..].
Qed.

Lemma ltb_cmp x y : (x <? y) = match cmp x y with Some Lt => true | _ => false end.
Proof.
  rewrite FloatAxioms.ltb_spec. unfold SFltb, cmp, rk.
  by rewrite SFcompare_rank, !is_nan_spec.
Qed.

Lemma leb_cmp x y :
  (x <=? y) = match cmp x y with Some Lt | Some Eq => true | _ => false end.
Proof.
  rewrite FloatAxioms.leb_spec. unfold SFleb, cmp, rk.
  by rewrite SFcompare_rank, !is_nan_spec.
Qed.

Lemma ltb_iff x y :
  (x <? y) = true ↔ is_nan x = false ∧ is_nan y = false ∧ lex_lt (rk x) (rk y).
Proof.
  rewrite ltb_cmp. unfold cmp.
  destruct (is_nan x), (is_nan y); cbn; try (split; [done|intros (?&?&?); done]).
  destruct (lex_compare_spec (rk x) (rk y)) as [E|L|G]; split; try done.
  - intros (_&_&L). rewrite E in L. by apply lex_lt_irrefl in L.
  - intros (_&_&L). by destruct (lex_lt_irrefl _ (lex_lt_trans _ _ _ L G)).
Qed.

Lemma leb_iff x y :
  (x <=? y) = true ↔ is_nan x = false ∧ is_nan y = false ∧ ¬ lex_lt (rk y) (rk x).
Proof.
  rewrite leb_cmp. unfold cmp.
  destruct (is_nan x), (is_nan y); cbn; try (split; [done|intros (?&?&?); done]).
  destruct (lex_compare_spec (rk x) (rk y)) as [E|L|G]; split; try done.
  - intros _. rewrite E. repeat split. apply lex_lt_irrefl.
  - intros _. repeat split. intros G. by destruct (lex_lt_irrefl _ (lex_lt_trans _ _ _ L G)).
  - intros (_&_&L). done.
Qed.

Lemma leb_not_nan x y : (x <=? y) = true → is_nan x = false ∧ is_nan y = false.
Proof. rewrite leb_iff. tauto. Qed.

Lemma ltb_not_nan x y : (x <? y) = true → is_nan x = false ∧ is_nan y = false.
Proof. rewrite ltb_iff. tauto. Qed.

Lemma leb_trans x y z : (x <=? y) = true → (y <=? z) = true → (x <=? z) = true.
Proof. rewrite !leb_iff. unfold lex_lt. intros (?&?&?) (?&?&?). repeat split; try done. lia. Qed.

Lemma ltb_leb_trans x y z : (x <? y) = true → (y <=? z) = true → (x <? z) = true.
Proof.
  rewrite !ltb_iff, leb_iff. unfold lex_lt. intros (?&?&?) (?&?&?). repeat split; try done. lia.
Qed.

Lemma leb_total x y :
  is_nan x = false → is_nan y = false → (x <=? y) = false → (y <=? x) = true.
Proof.
  intros Hx Hy H. apply leb_iff. repeat split; try done.
  intros L. apply not_true_iff_false in H. apply H, leb_iff. repeat split; try done.
  intros G. by destruct (lex_lt_irrefl _ (lex_lt_trans _ _ _ L G)).
Qed.

Lemma leb_refl x : is_nan x = false → (x <=? x) = true.
Proof. intros H. apply leb_iff. repeat split; try done. apply lex_lt_irrefl. Qed.

(** ** The loop of [GCM] *)

Lemma splice_insert {A} (l : list A) i x (f g : nat → A) m :
  i < length l → f 0%nat = x → (∀ j, f (S j) = g j) →
  take (S i) (<[i:=x]> l) ++ (g <$> seq 0 m) ++ drop (S i + m) (<[i:=x]> l)
  = take i l ++ (f <$> seq 0 (S m)) ++ drop (i + S m) l.
Proof.
  intros Hi Hf Hg.
  rewrite (take_S_r (<[i:=x]> l) i x) by (by apply list_lookup_insert_eq).
  rewrite take_insert_ge, drop_insert_lt by lia.
  rewrite <-(assoc_L (++)). cbn [seq fmap list_fmap]. rewrite Hf. cbn. do 2 f_equal.
  rewrite <-fmap_S_seq, <-list_fmap_compose. f_equal.
  - apply list_fmap_ext. intros ? j _. cbn. by rewrite Hg.
  - f_equal. lia.
Qed.

Section GCM_facts.
Context (xdot : np.ndarray → float → np.ndarray).
Context (F dt : float) (param : list float).
Local Abbreviation step := (GCM_step xdot F dt param).
Local Abbreviation state := (GCM_state xdot F dt param).
Local Abbreviation completed := (GCM_completed xdot F dt param).

Lemma hist0_nan nt K : hist0 nt K = replicate (Z.to_nat nt) (nan_row K).
Proof.
  unfold hist0, nan_row, np.zeros. f_equal.
  induction K as [|K IH]; [done|]. cbn. by rewrite IH.
Qed.

Lemma GCM_state_S X n : state X (S n) = state (step X) n.
Proof. unfold GCM_state. by rewrite Nat.iter_succ_r. Qed.

Lemma GCM_loop_spec k : ∀ i hist time X,
  i + k ≤ length hist → i + k ≤ length time →
  GCM_loop xdot F dt param (seq i k) hist time X =
    m ← completed k X;
    Some (take i hist ++ ((λ j, state X (S j)) <$> seq 0 m) ++ drop (i + m) hist,
          take i time ++ ((λ j, dt * np.of_int (Z.of_nat (i + j) + 1)) <$> seq 0 m)
            ++ drop (i + m) time).
Proof.
  induction k as [|k IH]; intros i hist time X Hh Ht.
  { cbn [seq fmap list_fmap app GCM_loop GCM_completed mbind option_bind].
    by rewrite Nat.add_0_r, !take_drop. }
  cbn [seq GCM_loop GCM_completed].
  destruct (diverged (step X)) as [[]|] eqn:Hd; cbn [mbind option_bind]; [|clear Hd|done].
  { cbn [seq fmap list_fmap app]. by rewrite Nat.add_0_r, !take_drop. }
  rewrite IH; [|rewrite length_insert; lia..].
  destruct (completed k (step X)) as [m|];
    [cbn [fmap option_fmap option_map mbind option_bind]|done].
  do 2 f_equal; apply splice_insert; try done; try lia.
  - intros j. by rewrite <-GCM_state_S.
  - by rewrite Nat.add_0_r.
  - intros j. do 3 f_equal. lia.
Qed.
End GCM_facts.

(** ** Shapes *)

Lemma polyval_length p X : length (np.polyval p X) = length X.
Proof.
  unfold np.polyval.
  assert (H : length (np.zeros_like X) = length X) by apply length_replicate.
  revert H. generalize (np.zeros_like X). induction p as [|pv p IH]; intros y Hy; [done|].
  cbn. apply IH. unfold np.adds, np.mul. rewrite length_fmap, length_zip_with. lia.
Qed.

Section GCM_total.
Context (xdot : np.ndarray → float → np.ndarray).
Context (F dt : float) (param : list float).
Hypothesis xdot_length : ∀ X F, length (xdot X F) = length X.
Local Abbreviation step := (GCM_step xdot F dt param).
Local Abbreviation state := (GCM_state xdot F dt param).
Local Abbreviation completed := (GCM_completed xdot F dt param).

Lemma GCM_step_length X : length (step X) = length X.
Proof.
  unfold GCM_step, np.add, np.smul, np.sub.
  rewrite length_zip_with, length_fmap, length_zip_with, xdot_length, polyval_length. lia.
Qed.

Lemma GCM_state_length X n : length (state X n) = length X.
Proof. induction n as [|n IH]; [done|]. cbn. by rewrite GCM_step_length. Qed.

Lemma diverged_None X : diverged X = None ↔ X = [].
Proof.
  unfold diverged, np.abs. destruct X; [done|]. cbn. split; discriminate.
Qed.

Lemma diverged_is_Some X : X ≠ [] → is_Some (diverged X).
Proof.
  intros HX. destruct (diverged X) eqn:E; [by eexists|]. by apply diverged_None in E.
Qed.

Lemma GCM_state_nonempty X n : X ≠ [] → state X n ≠ [].
Proof.
  intros HX E. apply (f_equal length) in E. rewrite GCM_state_length in E.
  by destruct X.
Qed.

(** The loop records a row for every iteration before the first one whose
    state trips the guard. *)
Lemma GCM_completed_spec k : ∀ X, X ≠ [] →
  ∃ m, completed k X = Some m ∧ m ≤ k
    ∧ (∀ j, j < m → diverged (state X (S j)) = Some false)
    ∧ (m < k → diverged (state X (S m)) = Some true).
Proof.
  induction k as [|k IH]; intros X HX.
  { exists O. repeat split; [done|lia|lia]. }
  cbn [GCM_completed].
  assert (Hs : step X ≠ []) by apply (GCM_state_nonempty X 1 HX).
  destruct (diverged_is_Some _ Hs) as [[] Hd]; rewrite Hd; cbn [mbind option_bind].
  { exists O. repeat split; [lia|lia|done]. }
  destruct (IH _ Hs) as (m & -> & Hle & Hlt & Hm). exists (S m). repeat split; [lia| |].
  - intros [|j] Hj; [done|]. rewrite GCM_state_S. apply Hlt. lia.
  - intros Hk. rewrite GCM_state_S. apply Hm. lia.
Qed.

Lemma GCM_completed_empty k : (0 < k)%nat → completed k [] = None.
Proof.
  destruct k; [lia|]. intros _. cbn [GCM_completed].
  assert (E : step [] = []) by (apply length_zero_iff_nil; by rewrite GCM_step_length).
  by rewrite E.
Qed.
End GCM_total.

Section GCM_result.
Context (xdot : np.ndarray → float → np.ndarray).
Context (F dt : float) (param : list float).
Local Abbreviation state := (GCM_state xdot F dt param).
Local Abbreviation completed := (GCM_completed xdot F dt param).

Lemma GCM_spec X0 nt :
  GCM xdot X0 F dt nt param =
    if (nt <? 0)%Z then None
    else m ← completed (Z.to_nat nt) X0;
         Some (history xdot F dt param X0 (Z.to_nat nt) m, times dt (Z.to_nat nt) m).
Proof.
  unfold GCM. destruct (nt <? 0)%Z; [done|].
  rewrite GCM_loop_spec.
  2:{ rewrite hist0_nan, length_replicate. lia. }
  2:{ unfold time0, np.arange. rewrite !length_fmap, length_seq. lia. }
  destruct (completed _ _) as [m|]; [|done]. cbn [mbind option_bind].
  unfold history, times. cbn [take app Nat.add]. rewrite hist0_nan, drop_replicate.
  unfold time0, np.arange. by rewrite <-list_fmap_compose, <-fmap_drop, drop_seq.
Qed.
End GCM_result.
Section GCM_run.
Context (xdot : np.ndarray → float → np.ndarray).
Context (F dt : float) (param : list float).
Hypothesis xdot_length : ∀ X F, length (xdot X F) = length X.
Local Abbreviation state := (GCM_state xdot F dt param).
Local Abbreviation completed := (GCM_completed xdot F dt param).
Local Abbreviation rows := (history xdot F dt param).

Lemma history_length X0 nt m : m ≤ nt → length (rows X0 nt m) = nt.
Proof.
  intros Hm. unfold history.
  rewrite length_app, length_fmap, length_seq, length_replicate. lia.
Qed.

Lemma times_length nt m : m ≤ nt → length (times dt nt m) = nt.
Proof.
  intros Hm. unfold times. rewrite length_app, !length_fmap, !length_seq. lia.
Qed.

Lemma history_lookup_lt X0 nt m n :
  n < m → rows X0 nt m !! n = Some (state X0 (S n)).
Proof.
  intros Hn. unfold history.
  rewrite lookup_app_l by (rewrite length_fmap, length_seq; lia).
  by rewrite list_lookup_fmap, lookup_seq_lt.
Qed.

Lemma history_lookup_ge X0 nt m n :
  m ≤ n → n < nt → rows X0 nt m !! n = Some (nan_row (length X0)).
Proof.
  intros Hm Hn. unfold history.
  rewrite lookup_app_r; rewrite length_fmap, length_seq; [|lia].
  apply lookup_replicate_2. lia.
Qed.

Lemma times_lookup_lt nt m n :
  n < m → times dt nt m !! n = Some (dt * np.of_int (Z.of_nat n + 1)).
Proof.
  intros Hn. unfold times.
  rewrite lookup_app_l by (rewrite length_fmap, length_seq; lia).
  by rewrite list_lookup_fmap, lookup_seq_lt.
Qed.

Lemma times_lookup_ge nt m n :
  m ≤ n → n < nt → times dt nt m !! n = Some (dt * np.of_int (Z.of_nat n)).
Proof.
  intros Hm Hn. unfold times.
  rewrite lookup_app_r; rewrite length_fmap, length_seq; [|lia].
  rewrite list_lookup_fmap, lookup_seq_lt by lia. cbn. do 4 f_equal. lia.
Qed.

(** A run over a non-empty state returns, and records the rows of the
    iterations before the first that trips the guard. *)
Lemma GCM_run X0 nt :
  (0 ≤ nt)%Z → X0 ≠ [] →
  ∃ m, completed (Z.to_nat nt) X0 = Some m
    ∧ GCM xdot X0 F dt nt param
      = Some (rows X0 (Z.to_nat nt) m, times dt (Z.to_nat nt) m)
    ∧ m ≤ Z.to_nat nt
    ∧ (∀ j, j < m → diverged (state X0 (S j)) = Some false)
    ∧ (m < Z.to_nat nt → diverged (state X0 (S m)) = Some true).
Proof.
  intros Hnt HX.
  destruct (GCM_completed_spec xdot F dt param xdot_length (Z.to_nat nt) X0 HX)
    as (m & Hc & Hle & Hlt & Hm).
  exists m. repeat split; try done.
  rewrite GCM_spec, Hc. by destruct (Z.ltb_spec nt 0); [lia|].
Qed.

(** A state that trips the guard is not empty, and neither is [X0]. *)
Lemma diverged_nonempty X0 n b : diverged (state X0 n) = Some b → X0 ≠ [].
Proof.
  intros Hd ->.
  assert (E : state [] n = []).
  { apply length_zero_iff_nil. by rewrite (GCM_state_length xdot F dt param xdot_length). }
  by rewrite E in Hd.
Qed.
End GCM_run.
(** ** The structure of a run *)

Lemma polyval_lookup p X k x :
  X !! k = Some x → np.polyval p X !! k = Some (np.horner p x).
Proof.
  intros Hx. unfold np.polyval, np.horner.
  assert (H : np.zeros_like X !! k = Some 0).
  { apply lookup_replicate_2. by apply lookup_lt_Some in Hx. }
  revert H. generalize (np.zeros_like X) 0.
  induction p as [|pv p IH]; intros y y0 Hy; [done|].
  cbn. apply IH. unfold np.adds, np.mul.
  by rewrite list_lookup_fmap, lookup_zip_with, Hy, Hx.
Qed.

Section GCM_run_properties.
Context (xdot : np.ndarray → float → np.ndarray).
Hypothesis xdot_length : ∀ X F, length (xdot X F) = length X.

(** C1. Every iteration of [GCM] that records a row records the Euler-forward
    update of the state before it: row [n] is
    [X + dt * (L96_eq1_xdot(X, F) - polyval(param, X))] for [X] the initial
    state ([n = 0]) or row [n - 1], and [polyval(param, X)] is the polynomial
    evaluated in each slot of [X] on its own. *)
Theorem GCM_euler_forward X0 F dt nt param :
  (0 ≤ nt)%Z → X0 ≠ [] →
  ∃ m hist time,
    GCM_completed xdot F dt param (Z.to_nat nt) X0 = Some m
    ∧ GCM xdot X0 F dt nt param = Some (hist, time)
    ∧ (∀ n X, n < m →
         match n with O => Some X0 | S n' => hist !! n' end = Some X →
         hist !! n
         = Some (np.add X (np.smul dt (np.sub (xdot X F) (np.polyval param X)))))
    ∧ (∀ X k x, X !! k = Some x →
         np.polyval param X !! k = Some (np.horner param x)).
Proof.
  intros Hnt HX.
  destruct (GCM_run xdot F dt param xdot_length X0 nt Hnt HX) as (m & Hc & HG & Hle & _).
  eexists m, _, _. split; [done|]. split; [done|]. split.
  - intros n X Hn HXn. rewrite history_lookup_lt by done. f_equal. cbn.
    destruct n as [|n].
    + by injection HXn as <-.
    + rewrite history_lookup_lt in HXn by lia. by injection HXn as <-.
  - intros X k x. apply polyval_lookup.
Qed.

(** When the guard of line 275 trips on the state after some step of the
    run, the run stops at the first such step and returns without raising;
    every row of the history from that step on is filled with not-a-number,
    the rows before it hold the states of the completed steps.  The slots of
    [time] from that step on keep the value [dt * j] of line 271. *)
Lemma GCM_stops_at_guard X0 F dt nt param n :
  n < Z.to_nat nt →
  diverged (GCM_state xdot F dt param X0 (S n)) = Some true →
  ∃ m hist time,
    GCM_completed xdot F dt param (Z.to_nat nt) X0 = Some m
    ∧ GCM xdot X0 F dt nt param = Some (hist, time)
    ∧ m ≤ n
    ∧ diverged (GCM_state xdot F dt param X0 (S m)) = Some true
    ∧ length hist = Z.to_nat nt
    ∧ (∀ j, j < m → hist !! j = Some (GCM_state xdot F dt param X0 (S j)))
    ∧ (∀ j, m ≤ j → j < Z.to_nat nt → hist !! j = Some (replicate (length X0) nan))
    ∧ (∀ j, m ≤ j → j < Z.to_nat nt → time !! j = Some (dt * np.of_int (Z.of_nat j))).
Proof.
  intros Hn Hd.
  assert (HX : X0 ≠ []) by by eapply diverged_nonempty.
  destruct (GCM_run xdot F dt param xdot_length X0 nt ltac:(lia) HX)
    as (m & Hc & HG & Hle & Hlt & Hm).
  assert (m ≤ n).
  { destruct (decide (m ≤ n)) as [|Hmn]; [done|].
    rewrite Hlt in Hd by lia. done. }
  eexists m, _, _. repeat split; try done.
  - apply Hm. lia.
  - by apply history_length.
  - intros j Hj. by apply history_lookup_lt.
  - intros j Hj1 Hj2. by apply history_lookup_ge.
  - intros j Hj1 Hj2. by apply times_lookup_ge.
Qed.

(** C9. The history starts after the first step: for every completed step
    [n], row [n] is the state after [n + 1] Euler steps and [time[n]] is
    [dt * (n + 1)]; the buffers have [nt] slots, none of them for the state
    at time 0. *)
Theorem GCM_history_starts_after_first_step X0 F dt nt param :
  (0 ≤ nt)%Z → X0 ≠ [] →
  ∃ m hist time,
    GCM_completed xdot F dt param (Z.to_nat nt) X0 = Some m
    ∧ GCM xdot X0 F dt nt param = Some (hist, time)
    ∧ length hist = Z.to_nat nt ∧ length time = Z.to_nat nt
    ∧ ∀ n, n < m →
        hist !! n = Some (GCM_state xdot F dt param X0 (S n))
        ∧ time !! n = Some (dt * np.of_int (Z.of_nat n + 1)).
Proof.
  intros Hnt HX.
  destruct (GCM_run xdot F dt param xdot_length X0 nt Hnt HX) as (m & Hc & HG & Hle & _).
  eexists m, _, _. repeat split; try done.
  - by apply history_length.
  - by apply times_length.
  - by apply history_lookup_lt.
  - by apply times_lookup_lt.
Qed.

(** Once the buffers are made, the only exception is that of the maximum
    of an empty array. *)
Lemma GCM_None_iff X0 F dt nt param :
  GCM xdot X0 F dt nt param = None ↔ (nt < 0)%Z ∨ (0 < nt)%Z ∧ X0 = [].
Proof.
  rewrite GCM_spec. destruct (Z.ltb_spec nt 0) as [Hneg|Hnt].
  { split; [by left|done]. }
  destruct (decide (X0 = [])) as [->|HX].
  - destruct (decide (nt = 0%Z)) as [->|Hnz].
    + cbn. split; [done|]. intros [|[]]; lia.
    + rewrite (GCM_completed_empty xdot F dt param xdot_length) by lia.
      split; [|done]. intros _. right. split; [lia|done].
  - destruct (GCM_completed_spec xdot F dt param xdot_length (Z.to_nat nt) X0 HX)
      as (m & -> & _). cbn. split; [done|]. intros [|[]]; [lia|done].
Qed.

(** C8.  [GCM] checks none of its parameters: whatever [dt], [F], [param]
    and the size of [X0] are, it raises exactly when the buffers of line 271
    cannot be made, which is when [nt] is negative or beyond what numpy has
    room for, or when [X0] is empty and there is a step to take (the maximum
    of an empty array). *)
Theorem GCM_raises_iff room X0 F dt nt param :
  GCM_alloc xdot room X0 F dt nt param = None
  ↔ (nt < 0)%Z ∨ room nt (length X0) = false ∨ (0 < nt)%Z ∧ X0 = [].
Proof.
  unfold GCM_alloc. destruct (room nt (length X0)).
  - rewrite GCM_None_iff. split; [intros [|]; auto|]. intros [|[|]]; auto. done.
  - split; auto.
Qed.
End GCM_run_properties.

(** ** Not-a-number in the guard *)

Lemma is_nan_add_l x y : is_nan x = true → is_nan (x + y) = true.
Proof.
  rewrite !is_nan_spec, add_spec. by destruct (Prim2SF x).
Qed.

Lemma is_nan_abs x : is_nan (PrimFloat.abs x) = is_nan x.
Proof. rewrite !is_nan_spec, abs_spec. by destruct (Prim2SF x). Qed.

Lemma maximum_cases a b : np.maximum a b = a ∨ np.maximum a b = b.
Proof. unfold np.maximum. destruct (_ || _); auto. Qed.

Lemma foldl_maximum_elem l : ∀ x, foldl np.maximum x l ∈ x :: l.
Proof.
  induction l as [|b l IH]; intros x; cbn [foldl]; [by left|].
  specialize (IH (np.maximum x b)). apply elem_of_cons in IH as [IH|IH].
  - rewrite IH. destruct (maximum_cases x b) as [->| ->]; [by left|by right; left].
  - by do 2 right.
Qed.

Lemma maximum_bound x b :
  is_nan (np.maximum x b) = false →
  is_nan x = false ∧ is_nan b = false
  ∧ (x <=? np.maximum x b) = true ∧ (b <=? np.maximum x b) = true.
Proof.
  unfold np.maximum. destruct (b <=? x) eqn:Hbx; cbn [orb].
  - intros Hx. destruct (leb_not_nan _ _ Hbx) as [Hb _].
    repeat split; try done. by apply leb_refl.
  - destruct (is_nan x) eqn:Hnx; cbn [orb]; [congruence|]. intros Hb.
    repeat split; try done; [by apply leb_total|by apply leb_refl].
Qed.

(** A maximum that is a number bounds every element, and every element is a
    number. *)
Lemma foldl_maximum_bound l : ∀ x,
  is_nan (foldl np.maximum x l) = false →
  ∀ v, v ∈ x :: l → is_nan v = false ∧ (v <=? foldl np.maximum x l) = true.
Proof.
  induction l as [|b l IH]; intros x Hm v Hv; cbn [foldl] in *.
  { apply list_elem_of_singleton in Hv as ->. split; [done|by apply leb_refl]. }
  specialize (IH _ Hm).
  destruct (IH (np.maximum x b) ltac:(by left)) as [Hxb Hle].
  destruct (maximum_bound x b Hxb) as (Hx & Hb & Hx' & Hb').
  apply elem_of_cons in Hv as [->|Hv]; [split; [done|by eapply leb_trans]|].
  apply elem_of_cons in Hv as [->|Hv]; [split; [done|by eapply leb_trans]|].
  apply IH. by right.
Qed.

Lemma diverged_true_no_nan X : diverged X = Some true → no_nan X.
Proof.
  unfold diverged, np.max. destruct (np.abs X) as [|a l] eqn:E; [done|].
  cbn. intros [= Hlt]. apply ltb_not_nan in Hlt as [_ Hm].
  apply Forall_forall. intros v Hv. rewrite <-is_nan_abs.
  apply (foldl_maximum_bound l a Hm). rewrite <-E. unfold np.abs. by apply list_elem_of_fmap_2.
Qed.

Lemma diverged_false_bound X :
  diverged X = Some false → no_nan X → ∀ v, v ∈ X → (1e3 <? PrimFloat.abs v) = false.
Proof.
  unfold diverged, np.max. destruct (np.abs X) as [|a l] eqn:E; [done|].
  cbn. intros [= Hlt] HX v Hv.
  assert (Hm : is_nan (foldl np.maximum a l) = false).
  { pose proof (foldl_maximum_elem l a) as Hin. rewrite <-E in Hin.
    unfold np.abs in Hin. apply list_elem_of_fmap in Hin as (w & -> & Hw).
    rewrite is_nan_abs. by apply (proj1 (Forall_forall _ _) HX). }
  destruct (1e3 <? PrimFloat.abs v) eqn:Hv'; [|done].
  rewrite <-Hlt. symmetry. eapply ltb_leb_trans; [done|].
  apply (foldl_maximum_bound l a Hm). rewrite <-E. unfold np.abs. by apply list_elem_of_fmap_2.
Qed.

(** What the guard tests, on the values of the state. *)
Lemma diverged_true_iff (X : np.ndarray) :
  diverged X = Some true
  ↔ no_nan X ∧ ∃ v, v ∈ X ∧ (1e3 <? PrimFloat.abs v) = true.
Proof.
  split.
  - intros Hd. split; [by apply diverged_true_no_nan|].
    unfold diverged, np.max in Hd. destruct (np.abs X) as [|a l] eqn:E; [done|].
    cbn in Hd. injection Hd as Hd.
    pose proof (foldl_maximum_elem l a) as Hin. rewrite <-E in Hin.
    unfold np.abs in Hin. apply list_elem_of_fmap in Hin as (v & Hv & Hin).
    exists v. split; [done|]. by rewrite <-Hv.
  - intros (Hnn & v & Hv & Hlt).
    destruct (diverged X) as [[]|] eqn:Hd; [done| |].
    + by rewrite (diverged_false_bound X Hd Hnn v Hv) in Hlt.
    + apply diverged_None in Hd as ->. by apply elem_of_nil in Hv.
Qed.

Lemma diverged_false_iff (X : np.ndarray) :
  diverged X = Some false
  ↔ X ≠ [] ∧ (¬ no_nan X ∨ ∀ v, v ∈ X → (1e3 <? PrimFloat.abs v) = false).
Proof.
  split.
  - intros Hd. split.
    { intros ->. by rewrite (proj2 (diverged_None []) eq_refl) in Hd. }
    destruct (decide (no_nan X)) as [Hnn|Hnn]; [right|by left].
    intros v Hv. by apply (diverged_false_bound X Hd).
  - intros [HX Hor]. destruct (diverged_is_Some X HX) as [[] Hd]; [|done].
    apply diverged_true_iff in Hd as (Hnn & v & Hv & Hlt).
    destruct Hor as [Hor|Hor]; [done|]. by rewrite (Hor v Hv) in Hlt.
Qed.

Section GCM_nan.
Context (xdot : np.ndarray → float → np.ndarray).
Context (F dt : float) (param : list float).
Hypothesis xdot_length : ∀ X F, length (xdot X F) = length X.
Local Abbreviation step := (GCM_step xdot F dt param).
Local Abbreviation state := (GCM_state xdot F dt param).

(** A slot that is not-a-number stays so in every later state. *)
Lemma GCM_step_no_nan X : no_nan (step X) → no_nan X.
Proof.
  unfold no_nan. rewrite !Forall_lookup. intros H k x Hx.
  destruct (is_nan x) eqn:Hn; [|done].
  assert (Hk : k < length (np.smul dt (np.sub (xdot X F) (np.polyval param X)))).
  { unfold np.smul, np.sub.
    rewrite length_fmap, length_zip_with, xdot_length, polyval_length.
    apply lookup_lt_Some in Hx. lia. }
  apply lookup_lt_is_Some in Hk as [r Hr].
  rewrite <-(H k (x + r)); [by rewrite is_nan_add_l|].
  unfold GCM_step, np.add. by rewrite lookup_zip_with, Hx; cbn; rewrite Hr.
Qed.

Lemma GCM_state_no_nan X n j : j ≤ n → no_nan (state X n) → no_nan (state X j).
Proof.
  induction 1 as [|n Hjn IH]; [done|]. intros H. apply IH. by apply GCM_step_no_nan.
Qed.
End GCM_nan.
(** ** The call sites: [int(T / dt)] *)

Lemma ltb_0_pos x :
  (0 <? x) = true →
  (∃ m e, Prim2SF x = S754_finite false m e) ∨ Prim2SF x = S754_infinity false.
Proof.
  rewrite FloatAxioms.ltb_spec. change (Prim2SF 0) with (S754_zero false).
  destruct (Prim2SF x) as [|[]| |[] m e]; cbn; try done; eauto.
Qed.

Lemma py_int_div_nonneg T dt nt :
  (0 <? T) = true → (0 <? dt) = true → py_int (T / dt) = Some nt → (0 ≤ nt)%Z.
Proof.
  intros HT Hdt. unfold py_int. rewrite div_spec.
  destruct (ltb_0_pos _ HT) as [(mT & eT & ->)| ->],
           (ltb_0_pos _ Hdt) as [(md & ed & ->)| ->]; cbn -[SFdiv_core_binary]; try done.
  - destruct (SFdiv_core_binary _ _ _ _ _ _) as [[mz ez] lz].
    unfold binary_round_aux.
    destruct (shr_fexp _ _ mz ez lz) as [mrs' e'].
    destruct (shr_fexp _ _ _ e' _) as [mrs'' e''].
    destruct (shr_m mrs'') as [|m|m]; try done.
    + by intros [= <-].
    + destruct (e'' <=? emax - prec)%Z; [|done]. intros [= <-]. cbn.
      by apply Z.shiftl_nonneg.
  - by intros [= <-].
Qed.

Section GCM_guard_properties.
Context (xdot : np.ndarray → float → np.ndarray).
Hypothesis xdot_length : ∀ X F, length (xdot X F) = length X.

(** C2, for the states without a not-a-number component.  When after some
    step of the run no component of the state is not-a-number and one of them
    is above 1000.0 in absolute value, the run stops at the first such step
    and returns without raising; every row of the history from that step on
    is filled with not-a-number, the rows before it hold the states of the
    completed steps.  The slots of [time] from that step on keep the value
    [dt * j] of line 271. *)
Theorem GCM_divergence_guard X0 F dt nt param n v :
  n < Z.to_nat nt →
  no_nan (GCM_state xdot F dt param X0 (S n)) →
  v ∈ GCM_state xdot F dt param X0 (S n) → (1e3 <? PrimFloat.abs v) = true →
  ∃ m hist time,
    GCM_completed xdot F dt param (Z.to_nat nt) X0 = Some m
    ∧ GCM xdot X0 F dt nt param = Some (hist, time)
    ∧ m ≤ n
    ∧ no_nan (GCM_state xdot F dt param X0 (S m))
    ∧ (∃ v', v' ∈ GCM_state xdot F dt param X0 (S m)
             ∧ (1e3 <? PrimFloat.abs v') = true)
    ∧ length hist = Z.to_nat nt
    ∧ (∀ j, j < m → hist !! j = Some (GCM_state xdot F dt param X0 (S j)))
    ∧ (∀ j, m ≤ j → j < Z.to_nat nt → hist !! j = Some (replicate (length X0) nan))
    ∧ (∀ j, m ≤ j → j < Z.to_nat nt → time !! j = Some (dt * np.of_int (Z.of_nat j))).
Proof.
  intros Hn Hnn Hv Hlt.
  assert (Hd : diverged (GCM_state xdot F dt param X0 (S n)) = Some true).
  { apply diverged_true_iff. split; [done|]. by exists v. }
  destruct (GCM_stops_at_guard xdot xdot_length X0 F dt nt param n Hn Hd)
    as (m & hist & time & Hc & HG & Hmn & Hdm & Hl & Hrec & Hnan & Htime).
  apply diverged_true_iff in Hdm as [Hnm Hvm].
  by exists m, hist, time.
Qed.

(** C3. When the guard trips in a run, fewer rows than requested are
    recorded, the recorded rows are exactly the rows before the first
    not-a-number row, and no value in them is not-a-number or above 1000.0
    in absolute value. *)
Theorem GCM_valid_prefix_bounded X0 F dt nt param n :
  n < Z.to_nat nt →
  diverged (GCM_state xdot F dt param X0 (S n)) = Some true →
  ∃ m hist time,
    GCM_completed xdot F dt param (Z.to_nat nt) X0 = Some m
    ∧ GCM xdot X0 F dt nt param = Some (hist, time)
    ∧ m < Z.to_nat nt
    ∧ hist = take m hist ++ replicate (Z.to_nat nt - m) (replicate (length X0) nan)
    ∧ ∀ j row v, j < m → hist !! j = Some row → v ∈ row →
        is_nan v = false ∧ (1e3 <? PrimFloat.abs v) = false.
Proof.
  intros Hn Hd.
  assert (HX : X0 ≠ []) by by eapply diverged_nonempty.
  destruct (GCM_run xdot F dt param xdot_length X0 nt ltac:(lia) HX)
    as (m & Hc & HG & Hle & Hlt & Hm).
  assert (m ≤ n).
  { destruct (decide (m ≤ n)) as [|Hmn]; [done|].
    rewrite Hlt in Hd by lia. done. }
  eexists m, _, _. split; [done|]. split; [done|]. split; [lia|]. split.
  - unfold history. rewrite take_app_length'; [done|].
    by rewrite length_fmap, length_seq.
  - intros j row v Hj Hrow Hv. rewrite history_lookup_lt in Hrow by done.
    injection Hrow as <-.
    assert (Hnn : no_nan (GCM_state xdot F dt param X0 (S j))).
    { apply (GCM_state_no_nan xdot F dt param xdot_length X0 (S m)); [lia|].
      apply diverged_true_no_nan, Hm. lia. }
    split.
    + revert v Hv. by apply Forall_forall.
    + eapply diverged_false_bound; [by apply Hlt|done..].
Qed.

(** C4. At a call site [GCM(X0, F, dt, int(T / dt))] with [T > 0] and
    [dt > 0] the history has [nt = int(T / dt)] rows, every step being
    sampled; all [nt] are recorded when the guard never trips, and fewer
    when it does, the remaining rows being left not-a-number. *)
Theorem GCM_row_count X0 F dt T nt param :
  (0 <? T) = true → (0 <? dt) = true → py_int (T / dt) = Some nt → X0 ≠ [] →
  ∃ m hist time,
    GCM_completed xdot F dt param (Z.to_nat nt) X0 = Some m
    ∧ GCM xdot X0 F dt nt param = Some (hist, time)
    ∧ (0 ≤ nt)%Z ∧ length hist = Z.to_nat nt ∧ m ≤ Z.to_nat nt
    ∧ (∀ j, j < m → hist !! j = Some (GCM_state xdot F dt param X0 (S j)))
    ∧ (∀ j, m ≤ j → j < Z.to_nat nt → hist !! j = Some (replicate (length X0) nan))
    ∧ (m = Z.to_nat nt ↔
         ∀ j, j < Z.to_nat nt →
           diverged (GCM_state xdot F dt param X0 (S j)) = Some false).
Proof.
  intros HT Hdt Hint HX.
  pose proof (py_int_div_nonneg _ _ _ HT Hdt Hint) as Hnt.
  destruct (GCM_run xdot F dt param xdot_length X0 nt Hnt HX)
    as (m & Hc & HG & Hle & Hlt & Hm).
  eexists m, _, _. repeat split; try done.
  - by apply history_length.
  - intros j Hj. by apply history_lookup_lt.
  - intros j Hj1 Hj2. by apply history_lookup_ge.
  - intros -> j Hj. by apply Hlt.
  - intros Hall. destruct (decide (m = Z.to_nat nt)) as [|Hne]; [done|].
    rewrite Hall in Hm by lia. by discriminate Hm; lia.
Qed.
End GCM_guard_properties.
(** ** The tendency modelled from the spec *)

Lemma roll_length X s : length (np.roll X s) = length X.
Proof. apply length_rotate. Qed.

Lemma L96_eq1_xdot_length X F : length (L96_eq1_xdot X F) = length X.
Proof.
  unfold L96_eq1_xdot, np.adds, np.sub, np.mul, np.neg.
  rewrite length_fmap, !length_zip_with, length_fmap, !roll_length. lia.
Qed.

(** Each slot of the tendency is [(a - x) + F], for [x] the slot of the state
    and [a] the advection term. *)
Lemma L96_eq1_xdot_lookup X F k x :
  X !! k = Some x → ∃ a, L96_eq1_xdot X F !! k = Some (a - x + F).
Proof.
  intros Hx. unfold L96_eq1_xdot, np.adds, np.sub at 1.
  rewrite list_lookup_fmap, lookup_zip_with, Hx.
  destruct (np.mul _ _ !! k) as [a|] eqn:Ha; [by exists a|].
  apply lookup_ge_None in Ha. apply lookup_lt_Some in Hx.
  revert Ha. unfold np.sub, np.mul, np.neg.
  rewrite !length_zip_with, length_fmap, !roll_length. lia.
Qed.

(** ** Zeros, infinities and not-a-number in the arithmetic *)

Lemma Prim2SF_nan x : Prim2SF x = S754_nan → x = nan.
Proof. intros H. by apply Prim2SF_inj. Qed.

Lemma add_nan_l y : nan + y = nan.
Proof. apply Prim2SF_inj. by rewrite add_spec. Qed.
Lemma add_nan_r x : x + nan = nan.
Proof. apply Prim2SF_inj. rewrite add_spec. by destruct (Prim2SF x). Qed.
Lemma sub_nan_r x : x - nan = nan.
Proof. apply Prim2SF_inj. rewrite sub_spec. by destruct (Prim2SF x). Qed.
Lemma mul_nan_r x : x * nan = nan.
Proof. apply Prim2SF_inj. rewrite mul_spec. by destruct (Prim2SF x). Qed.

(** The zero polynomial is [+0] at every finite value and not-a-number at the
    infinities and at not-a-number. *)
Lemma zero_poly_finite x :
  match Prim2SF x with S754_zero _ | S754_finite _ _ _ => True | _ => False end →
  0 * x + 0 = 0.
Proof.
  intros Hx. apply Prim2SF_inj. rewrite add_spec, mul_spec.
  change (Prim2SF 0) with (S754_zero false).
  by destruct (Prim2SF x) as [[]|[]| |[] m e].
Qed.

Lemma zero_poly_infinite x :
  match Prim2SF x with S754_zero _ | S754_finite _ _ _ => False | _ => True end →
  0 * x + 0 = nan.
Proof.
  intros Hx. apply Prim2SF_inj. rewrite add_spec, mul_spec.
  change (Prim2SF 0) with (S754_zero false).
  by destruct (Prim2SF x) as [[]|[]| |[] m e].
Qed.

(** With a step size that is not negative, the slot of an infinite state
    component is not-a-number after the step with zero coupling. *)
Lemma zero_coupling_infinite s x dt a F :
  Prim2SF x = S754_infinity s → (dt <? 0) = false →
  x + dt * (a - x + F - 0) = nan.
Proof.
  intros Hx Hdt. apply Prim2SF_inj.
  rewrite FloatAxioms.ltb_spec in Hdt. revert Hdt.
  rewrite add_spec, mul_spec, sub_spec, add_spec, sub_spec, Hx.
  change (Prim2SF 0) with (S754_zero false). change (Prim2SF nan) with S754_nan.
  destruct s, (Prim2SF a) as [[]|[]| |[] ma ea], (Prim2SF F) as [[]|[]| |[] mF eF],
    (Prim2SF dt) as [[]|[]| |[] md ed]; try reflexivity; discriminate.
Qed.

Lemma zero_poly_scalar x dt a F :
  (dt <? 0) = false →
  x + dt * (a - x + F - (0 * x + 0)) = x + dt * (a - x + F - 0).
Proof.
  intros Hdt. destruct (Prim2SF x) as [s|s| |s m e] eqn:Hx.
  - by rewrite zero_poly_finite by by rewrite Hx.
  - rewrite zero_poly_infinite by by rewrite Hx.
    by rewrite sub_nan_r, mul_nan_r, add_nan_r, (zero_coupling_infinite s).
  - apply Prim2SF_nan in Hx as ->. by rewrite !add_nan_l.
  - by rewrite zero_poly_finite by by rewrite Hx.
Qed.
(** ** The steps, slot by slot *)

Section steps.
Context (xdot : np.ndarray → float → np.ndarray).
Context (F dt : float).
Hypothesis xdot_length : ∀ X F, length (xdot X F) = length X.

Lemma GCM_step_lookup param X k x d :
  X !! k = Some x → xdot X F !! k = Some d →
  GCM_step xdot F dt param X !! k = Some (x + dt * (d - np.horner param x)).
Proof.
  intros Hx Hd. unfold GCM_step, np.add, np.smul, np.sub.
  rewrite lookup_zip_with, Hx, list_lookup_fmap, lookup_zip_with, Hd.
  by rewrite (polyval_lookup _ _ _ _ Hx).
Qed.

Lemma reduced_step_lookup c X k x d :
  X !! k = Some x → xdot X F !! k = Some d →
  reduced_step xdot F dt c X !! k = Some (x + dt * (d - c)).
Proof.
  intros Hx Hd. unfold reduced_step, np.add, np.smul, np.subs.
  by rewrite lookup_zip_with, Hx, !list_lookup_fmap, Hd.
Qed.

Lemma reduced_step_length c X : length (reduced_step xdot F dt c X) = length X.
Proof.
  unfold reduced_step, np.add, np.smul, np.subs.
  rewrite length_zip_with, !length_fmap, xdot_length. lia.
Qed.

Lemma GCMs_step_lookup param stoch ek X k x d e :
  X !! k = Some x → xdot X F !! k = Some d → ek !! k = Some e →
  GCMs_step xdot F dt param stoch ek X !! k
  = Some (x + dt * (d - np.horner param x + stoch * e)).
Proof.
  intros Hx Hd He. unfold GCMs_step, np.add, np.smul, np.sub.
  rewrite lookup_zip_with, Hx, list_lookup_fmap, lookup_zip_with, lookup_zip_with, Hd.
  by rewrite (polyval_lookup _ _ _ _ Hx), list_lookup_fmap, He.
Qed.

Lemma GCMs_step_length param stoch ek X :
  length ek = length X → length (GCMs_step xdot F dt param stoch ek X) = length X.
Proof.
  intros Hek. unfold GCMs_step, np.add, np.smul, np.sub.
  rewrite !length_zip_with, !length_fmap, !length_zip_with, length_fmap.
  rewrite xdot_length, polyval_length. lia.
Qed.

(** Two runs of the skeleton whose steps agree on every state agree. *)
Lemma GCM_loop_reduced param c ns :
  (∀ X, GCM_step xdot F dt param X = reduced_step xdot F dt c X) →
  ∀ hist time X,
    GCM_loop xdot F dt param ns hist time X = reduced_loop xdot F dt c ns hist time X.
Proof.
  intros Hstep. induction ns as [|n ns IH]; intros hist time X; [done|].
  cbn [GCM_loop reduced_loop]. rewrite Hstep.
  destruct (diverged _) as [[]|]; cbn [mbind option_bind]; [done| |done]. apply IH.
Qed.
End steps.

(** The coupling is zero in [GCM] itself when [param] is the empty list:
    [np.polyval([], X)] is [zeros_like(X)]. *)
Lemma reduced_run_is_GCM_nil xdot X0 F dt nt :
  (∀ X F, length (xdot X F) = length X) →
  GCM xdot X0 F dt nt [] = reduced_run xdot X0 F dt nt 0.
Proof.
  intros Hlen. unfold GCM, reduced_run. destruct (nt <? 0)%Z; [done|].
  apply GCM_loop_reduced. intros X.
  apply (list_eq_same_length _ _ (length X)).
  { by rewrite reduced_step_length. }
  { by rewrite GCM_step_length. }
  intros k y z Hk Hy Hz.
  apply lookup_lt_is_Some in Hk as [x Hx].
  assert (Hd : is_Some (xdot X F !! k)).
  { apply lookup_lt_is_Some. rewrite Hlen. by eapply lookup_lt_Some. }
  destruct Hd as [d Hd].
  rewrite (GCM_step_lookup _ _ _ _ _ _ _ _ Hx Hd) in Hy.
  rewrite (reduced_step_lookup _ _ _ _ _ _ _ _ Hx Hd) in Hz.
  injection Hy as <-. by injection Hz as <-.
Qed.

(** ** The zero polynomial and zero coupling *)

Section zero_polynomial.
Context (xdot : np.ndarray → float → np.ndarray).
Hypothesis xdot_length : ∀ X F, length (xdot X F) = length X.
Hypothesis xdot_shape : tendency_shape xdot.

(** With a step size that is not negative, the step of [GCM] with the zero
    polynomial is the step with zero coupling, on every state. *)
Lemma GCM_step_zero_poly F dt X :
  (dt <? 0) = false →
  GCM_step xdot F dt [0] X = reduced_step xdot F dt 0 X.
Proof.
  intros Hdt. apply (list_eq_same_length _ _ (length X)).
  { by rewrite reduced_step_length. }
  { by rewrite GCM_step_length. }
  intros k y z Hk Hy Hz.
  apply lookup_lt_is_Some in Hk as [x Hx].
  destruct (xdot_shape X F k x Hx) as [a Ha].
  rewrite (GCM_step_lookup _ _ _ _ _ _ _ _ Hx Ha) in Hy.
  rewrite (reduced_step_lookup _ _ _ _ _ _ _ _ Hx Ha) in Hz.
  injection Hy as <-. injection Hz as <-. by apply zero_poly_scalar.
Qed.

(** C6, for the step sizes that are not negative.  For every state, forcing
    and step count, and every such step size, [GCM] with the zero polynomial
    [param=[0]] returns exactly what the run with the coupling term equal to
    zero returns.  The tendency may be any function giving [(a - X_k) + F] in slot
    [k] for an advection term [a], as the one modelled from the spec does. *)
Theorem GCM_zero_polynomial X0 F dt nt :
  (dt <? 0) = false →
  GCM xdot X0 F dt nt [0] = reduced_run xdot X0 F dt nt 0.
Proof.
  intros Hdt. unfold GCM, reduced_run. destruct (nt <? 0)%Z; [done|].
  apply GCM_loop_reduced. intros X. by apply GCM_step_zero_poly.
Qed.
End zero_polynomial.

(** C6 at a positive step size, on a state with an infinite component. *)
Lemma GCM_zero_polynomial_witness :
  GCM L96_eq1_xdot [infinity; 1; 2; 3] 18 0.002 3 [0]
  = reduced_run L96_eq1_xdot [infinity; 1; 2; 3] 18 0.002 3 0.
Proof.
  apply GCM_zero_polynomial;
    [apply L96_eq1_xdot_length|exact L96_eq1_xdot_lookup|reflexivity].
Defined.

(** C6 at a negative step size, on a state with an infinite component: the
    two runs differ.  The zero polynomial is not-a-number at the infinite
    component, the guard does not trip on a not-a-number maximum and the row
    is recorded; with zero coupling the component stays infinite and the
    guard stops the run.  The coupling is zero also in [GCM] itself called
    with the empty coefficient list. *)
Lemma GCM_zero_polynomial_counterexample :
  GCM L96_eq1_xdot [infinity; 1; 2; 3] 0 (-1) 1 [0]
    = Some ([[nan; infinity; infinity; neg_infinity]], [-1])
  ∧ reduced_run L96_eq1_xdot [infinity; 1; 2; 3] 0 (-1) 1 0
    = Some ([[nan; nan; nan; nan]], [-0])
  ∧ GCM L96_eq1_xdot [infinity; 1; 2; 3] 0 (-1) 1 []
    = Some ([[nan; nan; nan; nan]], [-0])
  ∧ GCM L96_eq1_xdot [infinity; 1; 2; 3] 0 (-1) 1 [0]
    ≠ reduced_run L96_eq1_xdot [infinity; 1; 2; 3] 0 (-1) 1 0.
Proof.
  split; [by vm_compute|]. split; [by vm_compute|]. split; [by vm_compute|].
  intros H.
  apply (f_equal (λ r, match r with Some (_, [t]) => t <? -0.5 | _ => false end)) in H.
  vm_compute in H. discriminate.
Qed.

(** ** Rounding never produces a zero

    A sum or difference of two finite floats that is not exactly zero is
    rounded from a mantissa at an exponent no lower than the least one, and
    rounding there keeps a non-zero mantissa: the result is not a zero.  So a
    negative zero comes out of [+] and [-] by the sign rules only. *)

Lemma digits2_pos_size p : digits2_pos p = Pos.size p.
Proof. induction p as [p IH|p IH|]; cbn; by rewrite ?IH. Qed.

Lemma digits2_pos_lower p : (2 ^ (Z.pos (digits2_pos p) - 1) ≤ Z.pos p)%Z.
Proof.
  rewrite digits2_pos_size. pose proof (Pos.size_le p) as H.
  apply Pos2Z.pos_le_pos in H. rewrite Pos2Z.inj_pow in H.
  replace (Z.pos (Pos.size p)) with (Z.succ (Z.pos (Pos.size p) - 1)) in H by lia.
  rewrite Z.pow_succ_r in H by lia. lia.
Qed.

Lemma shr_1_lower k r :
  (1 ≤ k)%Z → (2 ^ k ≤ shr_m r)%Z → (2 ^ (k - 1) ≤ shr_m (shr_1 r))%Z.
Proof.
  intros Hk. replace k with (Z.succ (k - 1)) at 1 by lia.
  rewrite Z.pow_succ_r by lia.
  assert (0 < 2 ^ (k - 1))%Z by (apply Z.pow_pos_nonneg; lia).
  destruct r as [[|[p|p|]|p] r s]; cbn; lia.
Qed.

Lemma iter_shr_1_lower n : ∀ k r,
  (Z.pos n ≤ k)%Z → (2 ^ k ≤ shr_m r)%Z →
  (2 ^ (k - Z.pos n) ≤ shr_m (SpecFloat.iter_pos shr_1 n r))%Z.
Proof.
  induction n as [n IH|n IH|]; intros k r Hk Hr; cbn [SpecFloat.iter_pos].
  - replace (k - Z.pos n~1)%Z with (k - 1 - Z.pos n - Z.pos n)%Z by lia.
    apply IH; [lia|]. apply IH; [lia|]. apply shr_1_lower; [lia|done].
  - replace (k - Z.pos n~0)%Z with (k - Z.pos n - Z.pos n)%Z by lia.
    apply IH; [lia|]. by apply IH; [lia|].
  - by apply shr_1_lower.
Qed.

Lemma shr_fexp_pos m e l :
  (0 < m)%Z → (emin ≤ e)%Z →
  (0 < shr_m (shr_fexp prec emax m e l).1)%Z ∧ (emin ≤ (shr_fexp prec emax m e l).2)%Z.
Proof.
  intros Hm He. destruct m as [|p|p]; [lia| |lia].
  unfold shr_fexp, shr. cbn [Zdigits2].
  assert (Hr : shr_m (shr_record_of_loc (Z.pos p) l) = Z.pos p) by by destruct l as [|[]].
  destruct (fexp prec emax (Z.pos (digits2_pos p) + e) - e)%Z as [|q|q] eqn:Hq;
    cbn [fst snd]; [by rewrite Hr|..|by rewrite Hr].
  unfold fexp, SpecFloat.emin, prec, emax in *.
  pose proof (digits2_pos_lower p) as Hp. rewrite <-Hr in Hp.
  apply (iter_shr_1_lower q) in Hp; [|lia]. split; [|lia].
  eapply Z.lt_le_trans; [|exact Hp]. apply Z.pow_pos_nonneg; lia.
Qed.

Lemma round_nearest_even_pos m l : (0 < m)%Z → (0 < round_nearest_even m l)%Z.
Proof.
  intros Hm. unfold round_nearest_even.
  destruct l as [|[]]; [|destruct (Z.even m)|..]; lia.
Qed.

Lemma binary_round_aux_not_zero s s' m e l :
  (0 < m)%Z → (emin ≤ e)%Z → binary_round_aux prec emax s m e l ≠ S754_zero s'.
Proof.
  intros Hm He. unfold binary_round_aux.
  destruct (shr_fexp_pos m e l Hm He) as [Hm' He'].
  destruct (shr_fexp prec emax m e l) as [mrs' e']. cbn [fst snd] in *.
  pose proof (round_nearest_even_pos _ (loc_of_shr_record mrs') Hm') as Hm1.
  destruct (shr_fexp_pos _ e' loc_Exact Hm1 He') as [Hm'' _].
  destruct (shr_fexp prec emax _ e' loc_Exact) as [mrs'' e'']. cbn [fst snd] in *.
  destruct (shr_m mrs''); [lia| |done]. by destruct (_ <=? _)%Z.
Qed.

Lemma binary_normalize_not_neg_zero m e :
  (emin ≤ e)%Z → binary_normalize prec emax m e false ≠ S754_zero true.
Proof.
  intros He. unfold binary_normalize, binary_round.
  assert (H : ∀ p, (emin ≤ (shl_align p e (fexp prec emax (Z.pos (digits2_pos p) + e))).2)%Z).
  { intros p. unfold shl_align. destruct (_ - e)%Z; cbn [snd]; try done.
    unfold fexp, SpecFloat.emin, prec, emax. lia. }
  destruct m as [|p|p]; [done|..]; specialize (H p);
    destruct (shl_align _ _ _) as [mz ez]; by apply binary_round_aux_not_zero.
Qed.

Lemma valid_finite_emin s m e :
  valid_binary (S754_finite s m e) = true → (emin ≤ e)%Z.
Proof.
  cbn. unfold bounded, canonical_mantissa. intros [H _]%andb_prop.
  apply Z.eqb_eq in H. unfold fexp, SpecFloat.emin, prec, emax in *. lia.
Qed.

Lemma SFadd_neg_zero x y :
  valid_binary x = true → valid_binary y = true →
  SF64add x y = S754_zero true → x = S754_zero true ∧ y = S754_zero true.
Proof.
  intros Hx Hy. unfold SF64add, SFadd.
  destruct x as [[]|[]| |sx mx ex], y as [[]|[]| |sy my ey]; try done.
  intros H. apply binary_normalize_not_neg_zero in H; [done|].
  apply valid_finite_emin in Hx, Hy. lia.
Qed.

Lemma SFsub_neg_zero x y :
  valid_binary x = true → valid_binary y = true →
  SF64sub x y = S754_zero true → x = S754_zero true ∧ y = S754_zero false.
Proof.
  intros Hx Hy. unfold SF64sub, SFsub.
  destruct x as [[]|[]| |sx mx ex], y as [[]|[]| |sy my ey]; try done.
  intros H. apply binary_normalize_not_neg_zero in H; [done|].
  apply valid_finite_emin in Hx, Hy. lia.
Qed.

Lemma add_neg_zero x y :
  Prim2SF (x + y) = S754_zero true →
  Prim2SF x = S754_zero true ∧ Prim2SF y = S754_zero true.
Proof. rewrite add_spec. apply SFadd_neg_zero; apply Prim2SF_valid. Qed.

Lemma sub_neg_zero x y :
  Prim2SF (x - y) = S754_zero true →
  Prim2SF x = S754_zero true ∧ Prim2SF y = S754_zero false.
Proof. rewrite sub_spec. apply SFsub_neg_zero; apply Prim2SF_valid. Qed.
(** ** The stochastic term at [stoch = 0] *)

Lemma is_finite_spec x :
  is_finite x = true ↔
  match Prim2SF x with S754_zero _ | S754_finite _ _ _ => True | _ => False end.
Proof.
  unfold is_finite, is_infinity. rewrite is_nan_spec, FloatAxioms.eqb_spec, abs_spec.
  change (Prim2SF infinity) with (S754_infinity false).
  destruct (Prim2SF x) as [[]|[]| |[] m e]; cbn; split; done.
Qed.

Lemma add_0_r x : Prim2SF x ≠ S754_zero true → x + 0 = x.
Proof.
  intros Hx. apply Prim2SF_inj. rewrite add_spec.
  change (Prim2SF 0) with (S754_zero false).
  by destruct (Prim2SF x) as [[]|[]| |[] m e].
Qed.

Lemma Prim2SF_neg_zero x : Prim2SF x = S754_zero true → x = -0.
Proof. intros H. by apply Prim2SF_inj. Qed.

Lemma Prim2SF_pos_zero x : Prim2SF x = S754_zero false → x = 0.
Proof. intros H. by apply Prim2SF_inj. Qed.

(** Added to [+0], the two zeros times [dt] give the same sum. *)
Lemma add_mul_zero_sign dt : 0 + dt * 0 = 0 + dt * (-0).
Proof.
  apply Prim2SF_inj. rewrite !add_spec, !mul_spec.
  change (Prim2SF 0) with (S754_zero false). change (Prim2SF (-0)) with (S754_zero true).
  by destruct (Prim2SF dt) as [[]|[]| |[] m e].
Qed.

(** Adding the vanished stochastic term [+0] to the tendency changes no
    slot of the step: the sum differs from the tendency only where that is
    [-0], which needs the state slot to be [+0], and there both sums give the
    same state. *)
Lemma stoch_zero_scalar x dt a F P :
  x + dt * (a - x + F - P + 0) = x + dt * (a - x + F - P).
Proof.
  destruct (Prim2SF (a - x + F - P)) as [[]|s| |s m e] eqn:Hs;
    try (by rewrite add_0_r by by rewrite Hs).
  pose proof Hs as Hs'.
  apply sub_neg_zero in Hs' as [Hv _]. apply add_neg_zero in Hv as [Hu _].
  apply sub_neg_zero in Hu as [_ Hx].
  apply Prim2SF_neg_zero in Hs as ->. apply Prim2SF_pos_zero in Hx as ->.
  change (-0 + 0) with 0. apply add_mul_zero_sign.
Qed.

(** The red noise stays [+0] when [stoch = 0], the samples being finite. *)
Lemma red_noise_zero_scalar z :
  is_finite z = true → 0.984 * 0 + 0 * sqrt ((1 - 0.984) * (1 + 0.984)) * z = 0.
Proof.
  intros Hz%is_finite_spec.
  change (0.984 * 0) with 0. change (0 * sqrt ((1 - 0.984) * (1 + 0.984))) with 0.
  apply Prim2SF_inj. rewrite add_spec, mul_spec.
  change (Prim2SF 0) with (S754_zero false).
  by destruct (Prim2SF z) as [[]|[]| |[] m e].
Qed.
Lemma red_noise_zero K z :
  length z = K → Forall (λ v, is_finite v = true) z →
  red_noise 0 0.984 (np.zeros K) z = np.zeros K.
Proof.
  intros Hlen Hz. unfold red_noise, np.add, np.smul, np.zeros.
  apply (list_eq_same_length _ _ K); [by rewrite length_replicate| |].
  { rewrite length_zip_with, !length_fmap, length_replicate. lia. }
  intros k y y' Hk. rewrite lookup_zip_with, !list_lookup_fmap, !lookup_replicate_2 by done.
  destruct (z !! k) as [v|] eqn:Hv; [|done]. cbn. intros [= <-] [= <-].
  apply red_noise_zero_scalar. by apply (proj1 (Forall_lookup _ _) Hz k).
Qed.

Section GCMs_zero.
Context (xdot : np.ndarray → float → np.ndarray).
Hypothesis xdot_length : ∀ X F, length (xdot X F) = length X.
Hypothesis xdot_shape : tendency_shape xdot.
Context (rng : Type) (randn : nat → rng → np.ndarray * rng).
Hypothesis randn_length : ∀ K g, length (randn K g).1 = K.
Hypothesis randn_finite : ∀ K g, Forall (λ v, is_finite v = true) (randn K g).1.
Context (F dt : float) (param : list float).

(** With [stoch = 0] and the noise at zero, the step of [GCMs] is the step of
    [GCM]. *)
Lemma GCMs_step_zero X :
  GCMs_step xdot F dt param 0 (np.zeros (length X)) X = GCM_step xdot F dt param X.
Proof.
  apply (list_eq_same_length _ _ (length X)).
  { by rewrite GCM_step_length. }
  { rewrite GCMs_step_length; [done|done|apply length_replicate]. }
  intros k y z Hk Hy Hz.
  pose proof (lookup_replicate_2 _ 0 _ Hk) as He.
  apply lookup_lt_is_Some in Hk as [x Hx].
  destruct (xdot_shape X F k x Hx) as [a Ha].
  rewrite (GCMs_step_lookup _ _ _ _ _ _ _ _ _ _ _ Hx Ha He) in Hy.
  rewrite (GCM_step_lookup _ _ _ _ _ _ _ _ Hx Ha) in Hz.
  injection Hy as <-. injection Hz as <-.
  change (0 * 0) with 0. apply stoch_zero_scalar.
Qed.

Lemma GCMs_loop_zero ns : ∀ hist time X g,
  (GCMs_loop xdot rng randn F dt param 0 0.984 ns hist time
     (np.zeros (length X)) X g).1
  = GCM_loop xdot F dt param ns hist time X.
Proof.
  induction ns as [|n ns IH]; intros hist time X g; [done|].
  cbn [GCMs_loop GCM_loop].
  pose proof (randn_length (length X) g) as Hl.
  pose proof (randn_finite (length X) g) as Hf.
  destruct (randn (length X) g) as [z g']. cbn [fst] in Hl, Hf.
  rewrite red_noise_zero, GCMs_step_zero by done.
  assert (Hlen : length X = length (GCM_step xdot F dt param X))
    by by rewrite GCM_step_length.
  revert Hlen. generalize (GCM_step xdot F dt param X). intros X' ->.
  destruct (diverged X') as [[]|]; cbn [mbind option_bind]; [done| |done]. apply IH.
Qed.

(** C10. Called with [stoch=0] (and the default [phi=0.984]), [GCMs] returns
    exactly the [(hist, time)] pair that [GCM] returns on the same arguments,
    whatever the state of the random generator, whose samples are finite: the
    red noise [ek] stays zero and the stochastic term changes no slot of any
    step.  The tendency may be any function giving [(a - X_k) + F] in slot
    [k] for an advection term [a], as the one modelled from the spec does. *)
Theorem GCMs_without_noise_is_GCM X0 nt g :
  (GCMs xdot rng randn X0 F dt nt param 0 0.984 g).1
  = GCM xdot X0 F dt nt param.
Proof.
  unfold GCMs, GCM. destruct (nt <? 0)%Z; [done|]. apply GCMs_loop_zero.
Qed.
End GCMs_zero.

(** ** The integrators on the store *)

Section store_facts.
Context (xdot : np.ndarray → float → np.ndarray).
Context (rng : Type) (randn : nat → rng → np.ndarray * rng).
Context (F dt : float) (param : list float).
Local Abbreviation world := (Store.world rng).
Local Abbreviation heap := (Store.heap rng).
Local Abbreviation gen := (Store.gen rng).
Local Abbreviation Vec := Store.Vec.
Local Abbreviation Mat := Store.Mat.

Lemma fresh_lookup (w : world) l o : heap w !! l = Some o → l ≠ fresh (dom (heap w)).
Proof.
  intros Hl ->. apply (is_fresh (dom (heap w))). apply elem_of_dom. by eexists.
Qed.

(** The loop on the store computes what the loop on values computes, in the
    two buffers, and touches no other array that was there. *)
Lemma GCM_loop_store ns : ∀ (w : world) hist time X H T x,
  heap w !! hist = Some (Mat H) → heap w !! time = Some (Vec T) →
  heap w !! X = Some (Vec x) → hist ≠ time →
  Forall (λ n, n < length H ∧ n < length T) ns →
  ∃ w', Store.GCM_loop xdot rng F dt param ns hist time X w
        = ((λ _, (hist, time)) <$> GCM_loop xdot F dt param ns H T x, w')
    ∧ gen w' = gen w
    ∧ (∀ l o, heap w !! l = Some o → l ≠ hist → l ≠ time → heap w' !! l = Some o)
    ∧ (∀ H' T', GCM_loop xdot F dt param ns H T x = Some (H', T') →
         heap w' !! hist = Some (Mat H') ∧ heap w' !! time = Some (Vec T')).
Proof.
  induction ns as [|n ns IH]; intros w hist time X H T x Hh Ht HX Hne Hns.
  { exists w. cbn. split; [done|]. split; [done|]. split; [done|].
    by intros ?? [= <- <-]. }
  apply Forall_cons in Hns as [[HnH HnT] Hns].
  cbn [Store.GCM_loop GCM_loop].
  unfold mbind, Store.M_bind, Store.bind, Store.load, Store.alloc, Store.lift,
    Store.store_row, Store.store_item.
  rewrite HX. cbn [Store.heap Store.gen].
  set (X' := fresh (dom (heap w))).
  assert (HhX : hist ≠ X') by by eapply fresh_lookup.
  assert (HtX : time ≠ X') by by eapply fresh_lookup.
  rewrite lookup_insert_eq.
  destruct (diverged (GCM_step xdot F dt param x)) as [[]|] eqn:Hd;
    cbn [option_bind Store.heap Store.gen].
  - eexists. split; [done|]. cbn. split; [done|]. split.
    + intros l o Hl _ _. rewrite lookup_insert_ne; [done|]. intros <-.
      by eapply fresh_lookup.
    + intros ?? [= <- <-]. by rewrite !lookup_insert_ne.
  - rewrite lookup_insert_ne, Hh by done. destruct (decide _) as [_|]; [|done].
    cbn [Store.heap Store.gen].
    rewrite lookup_insert_ne, lookup_insert_ne, Ht by done.
    destruct (decide _) as [_|]; [|done]. cbn [Store.heap Store.gen].
    match goal with |- context [Store.GCM_loop _ _ _ _ _ _ _ _ _ ?w1] =>
      edestruct (IH w1 hist time X') as (w' & -> & Hg & Hfr & Hres) end.
    { cbn. rewrite lookup_insert_ne, lookup_insert_eq by done. done. }
    { cbn. by rewrite lookup_insert_eq. }
    { cbn. rewrite lookup_insert_ne, lookup_insert_ne, lookup_insert_eq by done. done. }
    { done. }
    { by rewrite !length_insert. }
    exists w'. split; [done|]. split; [done|]. split; [|done].
    intros l o Hl Hlh Hlt. apply Hfr; try done. cbn.
    rewrite !lookup_insert_ne; try done. intros <-. by eapply fresh_lookup.
  - eexists. split; [done|]. cbn. split; [done|]. split; [|done].
    intros l o Hl _ _. rewrite lookup_insert_ne; [done|]. intros <-.
    by eapply fresh_lookup.
Qed.
End store_facts.
Section store_run.
Context (xdot : np.ndarray → float → np.ndarray).
Context (rng : Type) (randn : nat → rng → np.ndarray * rng).
Context (F dt : float) (param : list float).
Local Abbreviation world := (Store.world rng).
Local Abbreviation heap := (Store.heap rng).
Local Abbreviation gen := (Store.gen rng).
Local Abbreviation Vec := Store.Vec.
Local Abbreviation Mat := Store.Mat.

Lemma seq_bound n (H : list np.ndarray) (T : np.ndarray) :
  n ≤ length H → n ≤ length T → Forall (λ i, i < length H ∧ i < length T) (seq 0 n).
Proof.
  intros HH HT. apply Forall_forall. intros i Hi%elem_of_seq. lia.
Qed.

(** A call of [GCM] on the store: it returns what [GCM] on the value of
    [X0] returns, in two arrays that did not exist before the call, leaves
    every array that existed as it was and does not touch the generator. *)
Lemma GCM_store (w : world) X0 x0 nt :
  heap w !! X0 = Some (Vec x0) →
  ∃ r w', Store.GCM xdot rng X0 F dt nt param w = (r, w')
    ∧ gen w' = gen w
    ∧ (∀ l o, heap w !! l = Some o → heap w' !! l = Some o)
    ∧ match GCM xdot x0 F dt nt param with
      | None => r = None
      | Some (H, T) =>
          ∃ hist time, r = Some (hist, time)
            ∧ heap w !! hist = None ∧ heap w !! time = None
            ∧ heap w' !! hist = Some (Mat H) ∧ heap w' !! time = Some (Vec T)
      end.
Proof.
  intros HX0. unfold Store.GCM, GCM.
  unfold mbind, Store.M_bind, Store.bind, Store.load, Store.alloc, Store.lift.
  cbn [Store.heap Store.gen].
  set (time := fresh (dom (heap w))).
  assert (Htime : heap w !! time = None) by apply not_elem_of_dom, is_fresh.
  assert (HX0t : X0 ≠ time) by by eapply fresh_lookup.
  rewrite lookup_insert_ne, HX0 by done.
  destruct (nt <? 0)%Z eqn:Hnt.
  { eexists _, _. split; [done|]. cbn. split; [done|]. split; [|done].
    intros l o Hl. rewrite lookup_insert_ne; [done|]. intros <-. congruence. }
  cbn [Store.heap Store.gen].
  set (h1 := <[time := Vec (time0 dt nt)]> (heap w)).
  set (hist := fresh (dom h1)).
  assert (Hhist : h1 !! hist = None) by apply not_elem_of_dom, is_fresh.
  set (h2 := <[hist := Mat (hist0 nt (length x0))]> h1).
  set (X := fresh (dom h2)).
  assert (HX : h2 !! X = None) by apply not_elem_of_dom, is_fresh.
  assert (Hht : hist ≠ time).
  { intros E. rewrite E in Hhist. unfold h1 in Hhist. by rewrite lookup_insert_eq in Hhist. }
  assert (HXh : X ≠ hist).
  { intros E. rewrite E in HX. unfold h2 in HX. by rewrite lookup_insert_eq in HX. }
  assert (HXt : X ≠ time).
  { intros E. rewrite E in HX. unfold h2, h1 in HX.
    by rewrite lookup_insert_ne, lookup_insert_eq in HX. }
  assert (Hhist' : heap w !! hist = None).
  { unfold h1 in Hhist. by rewrite lookup_insert_ne in Hhist. }
  assert (HX' : heap w !! X = None).
  { unfold h2, h1 in HX. by rewrite !lookup_insert_ne in HX. }
  match goal with |- context [Store.GCM_loop _ _ _ _ _ ?ns _ _ _ ?w1] =>
    destruct (GCM_loop_store xdot rng F dt param ns w1 hist time X
                (hist0 nt (length x0)) (time0 dt nt) x0)
      as (w' & -> & Hg & Hfr & Hres) end.
  { cbn. unfold h2. by rewrite lookup_insert_ne, lookup_insert_eq. }
  { cbn. unfold h2, h1. by rewrite lookup_insert_ne, lookup_insert_ne, lookup_insert_eq. }
  { cbn. by rewrite lookup_insert_eq. }
  { done. }
  { apply seq_bound.
    - by rewrite hist0_nan, length_replicate.
    - unfold time0, np.arange. by rewrite !length_fmap, length_seq. }
  eexists _, w'. split; [done|]. split; [done|]. split.
  - intros l o Hl. apply Hfr.
    + cbn. unfold h2, h1. rewrite !lookup_insert_ne; [done|..]; intros <-; congruence.
    + intros ->. congruence.
    + intros ->. congruence.
  - destruct (GCM_loop _ _ _ _ _ _ _ _) as [[H T]|]; [|done].
    destruct (Hres H T eq_refl) as [HH HT]. by exists hist, time.
Qed.
End store_run.
Section store_run_stochastic.
Context (xdot : np.ndarray → float → np.ndarray).
Context (rng : Type) (randn : nat → rng → np.ndarray * rng).
Context (F dt : float) (param : list float) (stoch phi : float).
Local Abbreviation world := (Store.world rng).
Local Abbreviation heap := (Store.heap rng).
Local Abbreviation gen := (Store.gen rng).
Local Abbreviation Vec := Store.Vec.
Local Abbreviation Mat := Store.Mat.
Local Abbreviation loop := (GCMs_loop xdot rng randn F dt param stoch phi).

Lemma GCMs_loop_store ns : ∀ (w : world) hist time ek X H T e x,
  heap w !! hist = Some (Mat H) → heap w !! time = Some (Vec T) →
  heap w !! ek = Some (Vec e) → heap w !! X = Some (Vec x) → hist ≠ time →
  Forall (λ n, n < length H ∧ n < length T) ns →
  ∃ w', Store.GCMs_loop xdot rng randn F dt param stoch phi ns hist time ek X w
        = ((λ _, (hist, time)) <$> (loop ns H T e x (gen w)).1, w')
    ∧ gen w' = (loop ns H T e x (gen w)).2
    ∧ (∀ l o, heap w !! l = Some o → l ≠ hist → l ≠ time → heap w' !! l = Some o)
    ∧ (∀ H' T', (loop ns H T e x (gen w)).1 = Some (H', T') →
         heap w' !! hist = Some (Mat H') ∧ heap w' !! time = Some (Vec T')).
Proof.
  induction ns as [|n ns IH]; intros w hist time ek X H T e x Hh Ht He HX Hne Hns.
  { exists w. cbn. split; [done|]. split; [done|]. split; [done|].
    by intros ?? [= <- <-]. }
  apply Forall_cons in Hns as [[HnH HnT] Hns].
  cbn [Store.GCMs_loop GCMs_loop].
  unfold mbind, Store.M_bind, Store.bind, Store.load, Store.alloc, Store.lift,
    Store.store_row, Store.store_item, Store.draw.
  rewrite He, HX. destruct (randn (length x) (gen w)) as [z g].
  cbn [Store.heap Store.gen].
  set (e' := red_noise stoch phi e z).
  set (ek' := fresh (dom (heap w))).
  assert (Hek' : heap w !! ek' = None) by apply not_elem_of_dom, is_fresh.
  rewrite lookup_insert_eq. cbn [Store.heap Store.gen].
  set (h1 := <[ek' := Vec e']> (heap w)).
  set (x' := GCMs_step xdot F dt param stoch e' x).
  set (X' := fresh (dom h1)).
  assert (HX' : h1 !! X' = None) by apply not_elem_of_dom, is_fresh.
  assert (HXe : X' ≠ ek').
  { intros E. rewrite E in HX'. unfold h1 in HX'. by rewrite lookup_insert_eq in HX'. }
  assert (HX'w : heap w !! X' = None).
  { unfold h1 in HX'. by rewrite lookup_insert_ne in HX'. }
  assert (Hfresh : ∀ l o, heap w !! l = Some o →
            (<[X' := Vec x']> h1) !! l = Some o).
  { intros l o Hl. unfold h1. rewrite !lookup_insert_ne; [done|..]; intros <-; congruence. }
  rewrite lookup_insert_eq.
  destruct (diverged x') as [[]|] eqn:Hd; cbn [option_bind Store.heap Store.gen].
  - eexists. split; [done|]. cbn. split; [done|]. split; [by auto|].
    intros ?? [= <- <-]. by split; apply Hfresh.
  - rewrite (Hfresh _ _ Hh). destruct (decide _) as [_|]; [|done].
    cbn [Store.heap Store.gen].
    rewrite lookup_insert_ne, (Hfresh _ _ Ht) by done.
    destruct (decide _) as [_|]; [|done]. cbn [Store.heap Store.gen].
    assert (hist ≠ X') by (intros ->; congruence).
    assert (time ≠ X') by (intros ->; congruence).
    assert (hist ≠ ek') by (intros ->; congruence).
    assert (time ≠ ek') by (intros ->; congruence).
    match goal with |- context [Store.GCMs_loop _ _ _ _ _ _ _ _ _ _ _ _ _ ?w1] =>
      edestruct (IH w1 hist time ek' X') as (w' & -> & Hg & Hfr & Hres) end.
    { cbn. rewrite lookup_insert_ne, lookup_insert_eq by done. done. }
    { cbn. by rewrite lookup_insert_eq. }
    { cbn. unfold h1.
      rewrite lookup_insert_ne, lookup_insert_ne, lookup_insert_ne, lookup_insert_eq by done.
      done. }
    { cbn. rewrite lookup_insert_ne, lookup_insert_ne, lookup_insert_eq by done. done. }
    { done. }
    { by rewrite !length_insert. }
    exists w'. split; [done|]. split; [done|]. split; [|done].
    intros l o Hl Hlh Hlt. apply Hfr; try done. cbn.
    rewrite lookup_insert_ne, lookup_insert_ne by done. by apply Hfresh.
  - eexists. split; [done|]. cbn. split; [done|]. split; [by auto|done].
Qed.

(** A call of [GCMs] on the store: what it returns and the generator state
    it leaves are those of [GCMs] on the value of [X0] and the generator
    state at the call; the arrays it returns did not exist before the call
    and every array that existed is as it was. *)
Lemma GCMs_store (w : world) X0 x0 nt :
  heap w !! X0 = Some (Vec x0) →
  ∃ r w', Store.GCMs xdot rng randn X0 F dt nt param stoch phi w = (r, w')
    ∧ gen w' = (GCMs xdot rng randn x0 F dt nt param stoch phi (gen w)).2
    ∧ (∀ l o, heap w !! l = Some o → heap w' !! l = Some o)
    ∧ match (GCMs xdot rng randn x0 F dt nt param stoch phi (gen w)).1 with
      | None => r = None
      | Some (H, T) =>
          ∃ hist time, r = Some (hist, time)
            ∧ heap w !! hist = None ∧ heap w !! time = None
            ∧ heap w' !! hist = Some (Mat H) ∧ heap w' !! time = Some (Vec T)
      end.
Proof.
  intros HX0. unfold Store.GCMs, GCMs.
  unfold mbind, Store.M_bind, Store.bind, Store.load, Store.alloc, Store.lift.
  cbn [Store.heap Store.gen].
  set (time := fresh (dom (heap w))).
  assert (Htime : heap w !! time = None) by apply not_elem_of_dom, is_fresh.
  assert (HX0t : X0 ≠ time) by by eapply fresh_lookup.
  rewrite lookup_insert_ne, HX0 by done.
  destruct (nt <? 0)%Z eqn:Hnt.
  { eexists _, _. split; [done|]. cbn. split; [done|]. split; [|done].
    intros l o Hl. rewrite lookup_insert_ne; [done|]. intros <-. congruence. }
  cbn [Store.heap Store.gen].
  set (h1 := <[time := Vec (time0 dt nt)]> (heap w)).
  set (hist := fresh (dom h1)).
  assert (Hhist : h1 !! hist = None) by apply not_elem_of_dom, is_fresh.
  set (h2 := <[hist := Mat (hist0 nt (length x0))]> h1).
  set (X := fresh (dom h2)).
  assert (HX : h2 !! X = None) by apply not_elem_of_dom, is_fresh.
  rewrite lookup_insert_eq. cbn [Store.heap Store.gen].
  set (h3 := <[X := Vec x0]> h2).
  set (ek := fresh (dom h3)).
  assert (Hek : h3 !! ek = None) by apply not_elem_of_dom, is_fresh.
  assert (Hht : hist ≠ time).
  { intros E. rewrite E in Hhist. unfold h1 in Hhist. by rewrite lookup_insert_eq in Hhist. }
  assert (HXh : X ≠ hist).
  { intros E. rewrite E in HX. unfold h2 in HX. by rewrite lookup_insert_eq in HX. }
  assert (HXt : X ≠ time).
  { intros E. rewrite E in HX. unfold h2, h1 in HX.
    by rewrite lookup_insert_ne, lookup_insert_eq in HX. }
  assert (HeX : ek ≠ X).
  { intros E. rewrite E in Hek. unfold h3 in Hek. by rewrite lookup_insert_eq in Hek. }
  assert (Heh : ek ≠ hist).
  { intros E. rewrite E in Hek. unfold h3, h2 in Hek.
    by rewrite lookup_insert_ne, lookup_insert_eq in Hek. }
  assert (Het : ek ≠ time).
  { intros E. rewrite E in Hek. unfold h3, h2, h1 in Hek.
    by rewrite lookup_insert_ne, lookup_insert_ne, lookup_insert_eq in Hek. }
  assert (Hhist' : heap w !! hist = None).
  { unfold h1 in Hhist. by rewrite lookup_insert_ne in Hhist. }
  assert (HX' : heap w !! X = None).
  { unfold h2, h1 in HX. by rewrite !lookup_insert_ne in HX. }
  assert (Hek' : heap w !! ek = None).
  { unfold h3, h2, h1 in Hek. by rewrite !lookup_insert_ne in Hek. }
  match goal with |- context [Store.GCMs_loop _ _ _ _ _ _ _ _ ?ns _ _ _ _ ?w1] =>
    destruct (GCMs_loop_store ns w1 hist time ek X
                (hist0 nt (length x0)) (time0 dt nt) (np.zeros (length x0)) x0)
      as (w' & -> & Hg & Hfr & Hres) end.
  { cbn. unfold h3, h2. by rewrite lookup_insert_ne, lookup_insert_ne, lookup_insert_eq. }
  { cbn. unfold h3, h2, h1.
    by rewrite lookup_insert_ne, lookup_insert_ne, lookup_insert_ne, lookup_insert_eq. }
  { cbn. by rewrite lookup_insert_eq. }
  { cbn. unfold h3. by rewrite lookup_insert_ne, lookup_insert_eq. }
  { done. }
  { apply seq_bound.
    - by rewrite hist0_nan, length_replicate.
    - unfold time0, np.arange. by rewrite !length_fmap, length_seq. }
  cbn [Store.gen] in *.
  eexists _, w'. split; [done|]. split; [done|]. split.
  - intros l o Hl. apply Hfr.
    + cbn. unfold h3, h2, h1. rewrite !lookup_insert_ne; [done|..]; intros <-; congruence.
    + intros ->. congruence.
    + intros ->. congruence.
  - destruct (GCMs_loop _ _ _ _ _ _ _ _ _ _ _ _ _ _).1 as [[H T]|]; [|done].
    destruct (Hres H T eq_refl) as [HH HT]. by exists hist, time.
Qed.
End store_run_stochastic.

(** ** The caller's state *)

Section store_properties.
Context (xdot : np.ndarray → float → np.ndarray).
Context (rng : Type) (randn : nat → rng → np.ndarray * rng).
Local Abbreviation world := (Store.world rng).
Local Abbreviation heap := (Store.heap rng).
Local Abbreviation gen := (Store.gen rng).
Local Abbreviation Vec := Store.Vec.
Local Abbreviation Mat := Store.Mat.

Lemma GCM_returned (w : world) X0 x0 F dt nt param :
  heap w !! X0 = Some (Vec x0) →
  Store.returned rng (Store.GCM xdot rng X0 F dt nt param w)
  = Store.contents (GCM xdot x0 F dt nt param).
Proof.
  intros HX0.
  destruct (GCM_store xdot rng F dt param w X0 x0 nt HX0) as (r & w' & -> & _ & _ & Hr).
  unfold Store.returned, Store.contents. cbn [fst snd].
  destruct (GCM xdot x0 F dt nt param) as [[H T]|].
  - destruct Hr as (hist & time & -> & _ & _ & -> & ->). done.
  - by rewrite Hr.
Qed.

Lemma GCMs_returned (w : world) X0 x0 F dt nt param stoch phi :
  heap w !! X0 = Some (Vec x0) →
  Store.returned rng (Store.GCMs xdot rng randn X0 F dt nt param stoch phi w)
  = Store.contents (GCMs xdot rng randn x0 F dt nt param stoch phi (gen w)).1.
Proof.
  intros HX0.
  destruct (GCMs_store xdot rng randn F dt param stoch phi w X0 x0 nt HX0)
    as (r & w' & -> & _ & _ & Hr).
  unfold Store.returned, Store.contents. cbn [fst snd].
  destruct (GCMs xdot rng randn x0 F dt nt param stoch phi (gen w)).1 as [[H T]|].
  - destruct Hr as (hist & time & -> & _ & _ & -> & ->). done.
  - by rewrite Hr.
Qed.

(** C7. A call of [GCM] or [GCMs] leaves the array [X0] of its caller, and
    every other array that exists at the call, as it was: the arrays it
    writes are its own.  What it returns is determined by the value of
    [X0] and the other arguments, and for [GCMs] by the state of the random
    generator at the call, which [GCMs] advances and [GCM] does not
    touch. *)
Theorem GCM_leaves_caller_state (w : world) X0 x0 F dt nt param stoch phi :
  heap w !! X0 = Some (Vec x0) →
  (∃ r w', Store.GCM xdot rng X0 F dt nt param w = (r, w')
     ∧ heap w' !! X0 = Some (Vec x0)
     ∧ (∀ l o, heap w !! l = Some o → heap w' !! l = Some o)
     ∧ gen w' = gen w
     ∧ Store.returned rng (r, w') = Store.contents (GCM xdot x0 F dt nt param))
  ∧ (∃ r w', Store.GCMs xdot rng randn X0 F dt nt param stoch phi w = (r, w')
     ∧ heap w' !! X0 = Some (Vec x0)
     ∧ (∀ l o, heap w !! l = Some o → heap w' !! l = Some o)
     ∧ gen w' = (GCMs xdot rng randn x0 F dt nt param stoch phi (gen w)).2
     ∧ Store.returned rng (r, w')
       = Store.contents (GCMs xdot rng randn x0 F dt nt param stoch phi (gen w)).1).
Proof.
  intros HX0. split.
  - pose proof (GCM_returned w X0 x0 F dt nt param HX0) as Hret.
    destruct (GCM_store xdot rng F dt param w X0 x0 nt HX0) as (r & w' & E & Hg & Hfr & _).
    rewrite E in Hret. exists r, w'. repeat split; try done. by apply Hfr.
  - pose proof (GCMs_returned w X0 x0 F dt nt param stoch phi HX0) as Hret.
    destruct (GCMs_store xdot rng randn F dt param stoch phi w X0 x0 nt HX0)
      as (r & w' & E & Hg & Hfr & _).
    rewrite E in Hret. exists r, w'. repeat split; try done. by apply Hfr.
Qed.

(** C5. Two calls of [GCM] on initial states of equal value, with equal
    [F], [dt], [nt] and [param], return arrays of equal contents, slot for
    slot, or both raise; so do two calls of [GCMs] when the random
    generator is in the same state at both.  Nothing else in the store
    matters. *)
Theorem GCM_deterministic (w1 w2 : world) X1 X2 x0 F dt nt param stoch phi :
  heap w1 !! X1 = Some (Vec x0) → heap w2 !! X2 = Some (Vec x0) →
  Store.returned rng (Store.GCM xdot rng X1 F dt nt param w1)
    = Store.returned rng (Store.GCM xdot rng X2 F dt nt param w2)
  ∧ (gen w1 = gen w2 →
     Store.returned rng (Store.GCMs xdot rng randn X1 F dt nt param stoch phi w1)
     = Store.returned rng (Store.GCMs xdot rng randn X2 F dt nt param stoch phi w2)).
Proof.
  intros H1 H2. split.
  - by rewrite (GCM_returned w1 X1 x0), (GCM_returned w2 X2 x0).
  - intros Hg. by rewrite (GCMs_returned w1 X1 x0), (GCMs_returned w2 X2 x0), Hg.
Qed.
End store_properties.
(** ** Not-a-number and the guard *)

Section GCM_nan_run.
Context (xdot : np.ndarray → float → np.ndarray).
Hypothesis xdot_length : ∀ X F, length (xdot X F) = length X.

(** X1. The guard of line 275 never trips once a slot of the state is
    not-a-number: the maximum is not-a-number and compares false with the
    threshold.  A run from a state with such a slot records all its [nt]
    rows, each with a not-a-number slot, whatever the other slots hold. *)
Theorem GCM_nan_never_trips X0 F dt nt param :
  (0 ≤ nt)%Z → ¬ no_nan X0 →
  ∃ hist time,
    GCM xdot X0 F dt nt param = Some (hist, time)
    ∧ GCM_completed xdot F dt param (Z.to_nat nt) X0 = Some (Z.to_nat nt)
    ∧ ∀ n, n < Z.to_nat nt →
        hist !! n = Some (GCM_state xdot F dt param X0 (S n))
        ∧ ¬ no_nan (GCM_state xdot F dt param X0 (S n)).
Proof.
  intros Hnt Hnan.
  assert (HX : X0 ≠ []) by (intros ->; apply Hnan, Forall_nil_2).
  assert (Hall : ∀ n, ¬ no_nan (GCM_state xdot F dt param X0 n)).
  { intros n H. apply Hnan.
    apply (GCM_state_no_nan xdot F dt param xdot_length X0 n 0); [lia|done]. }
  destruct (GCM_run xdot F dt param xdot_length X0 nt Hnt HX)
    as (m & Hc & HG & Hle & Hlt & Hm).
  assert (m = Z.to_nat nt) as ->.
  { destruct (decide (m = Z.to_nat nt)) as [|Hne]; [done|].
    destruct (Hall (S m)). apply diverged_true_no_nan, Hm. lia. }
  eexists _, _. split; [done|]. split; [done|]. intros n Hn. split.
  - by apply history_lookup_lt.
  - apply Hall.
Qed.
End GCM_nan_run.

(** ** More on the run of [GCM] *)

Lemma ltb_false_leb x y :
  is_nan x = false → is_nan y = false → (x <? y) = false → (y <=? x) = true.
Proof.
  intros Hx Hy H. apply leb_iff. split; [done|]. split; [done|].
  intros Hlt. rewrite (proj2 (ltb_iff x y)) in H; [done|]. by repeat split.
Qed.

Lemma add_nan_row K l : length l = K → np.add (nan_row K) l = nan_row K.
Proof.
  intros <-. unfold np.add, nan_row.
  induction l as [|y l IH]; [done|]. cbn. by rewrite add_nan_l, IH.
Qed.

Lemma diverged_nan_row K : (0 < K)%nat → diverged (nan_row K) = Some false.
Proof.
  intros HK. destruct (diverged (nan_row K)) as [[]|] eqn:Hd; [|done|].
  - apply diverged_true_no_nan in Hd. destruct K; [lia|].
    by apply Forall_cons_1 in Hd as [? _].
  - apply diverged_None in Hd. destruct K; [lia|done].
Qed.

Section GCM_composition.
Context (xdot : np.ndarray → float → np.ndarray).
Context (F dt : float) (param : list float).
Hypothesis xdot_length : ∀ X F, length (xdot X F) = length X.
Local Abbreviation step := (GCM_step xdot F dt param).
Local Abbreviation state := (GCM_state xdot F dt param).
Local Abbreviation completed := (GCM_completed xdot F dt param).
Local Abbreviation rows := (history xdot F dt param).

Lemma GCM_state_add X a b : state X (a + b) = state (state X a) b.
Proof. unfold GCM_state. by rewrite Nat.add_comm, Nat.iter_add. Qed.

Lemma GCM_completed_add a : ∀ b X,
  completed (a + b) X =
    m ← completed a X;
    if decide (m = a) then (λ m', a + m')%nat <$> completed b (state X a) else Some m.
Proof.
  induction a as [|a IH]; intros b X.
  { cbn. by destruct (completed b X). }
  cbn [Nat.add GCM_completed].
  destruct (diverged (step X)) as [[]|]; cbn [mbind option_bind]; [done| |done].
  rewrite IH. destruct (completed a (step X)) as [m|]; [|done].
  cbn [fmap option_fmap option_map mbind option_bind].
  rewrite GCM_state_S.
  destruct (decide (m = a)) as [->|Hne].
  - rewrite decide_True by done.
    destruct (completed b _); [|done]. done.
  - by rewrite decide_False by lia.
Qed.

Lemma GCM_step_nan_row K : step (nan_row K) = nan_row K.
Proof.
  unfold GCM_step. apply add_nan_row. unfold np.smul, np.sub.
  rewrite length_fmap, length_zip_with, xdot_length, polyval_length.
  unfold nan_row. rewrite length_replicate. lia.
Qed.

Lemma GCM_state_nan_row K n : state (nan_row K) n = nan_row K.
Proof.
  induction n as [|n IH]; [done|]. by rewrite GCM_state_S, GCM_step_nan_row.
Qed.

Lemma GCM_completed_nan_row K k : (0 < K)%nat → completed k (nan_row K) = Some k.
Proof.
  intros HK. induction k as [|k IH]; [done|].
  cbn [GCM_completed]. rewrite GCM_step_nan_row, diverged_nan_row by done.
  cbn. by rewrite IH.
Qed.
End GCM_composition.

Section GCM_more.
Context (xdot : np.ndarray → float → np.ndarray).
Hypothesis xdot_length : ∀ X F, length (xdot X F) = length X.

(** X2. The times of a run the guard cut short are not increasing: the
    iteration that trips the guard leaves slot [m] of [time] at the
    [dt * m] of line 271, which is also what iteration [m - 1] wrote in slot
    [m - 1] with the row it recorded.  Slot [m] of [hist] holds no state. *)
Theorem GCM_time_repeats_at_break X0 F dt nt param n :
  n < Z.to_nat nt →
  diverged (GCM_state xdot F dt param X0 1) = Some false →
  diverged (GCM_state xdot F dt param X0 (S n)) = Some true →
  ∃ m hist time,
    GCM_completed xdot F dt param (Z.to_nat nt) X0 = Some m
    ∧ GCM xdot X0 F dt nt param = Some (hist, time)
    ∧ (0 < m)%nat ∧ m < Z.to_nat nt
    ∧ hist !! (m - 1)%nat = Some (GCM_state xdot F dt param X0 m)
    ∧ hist !! m = Some (replicate (length X0) nan)
    ∧ time !! (m - 1)%nat = Some (dt * np.of_int (Z.of_nat m))
    ∧ time !! m = Some (dt * np.of_int (Z.of_nat m)).
Proof.
  intros Hn H1 Hd.
  assert (HX : X0 ≠ []) by (by eapply diverged_nonempty).
  destruct (GCM_run xdot F dt param xdot_length X0 nt ltac:(lia) HX)
    as (m & Hc & HG & Hle & Hlt & Hm).
  assert (m ≤ n).
  { destruct (decide (m ≤ n)) as [|Hgt]; [done|].
    rewrite Hlt in Hd by lia. done. }
  assert (0 < m)%nat.
  { destruct m; [|lia]. rewrite Hm in H1 by lia. done. }
  eexists m, _, _. split; [done|]. split; [done|]. split; [done|]. split; [lia|].
  split; [|split; [|split]].
  - rewrite history_lookup_lt by lia. do 2 f_equal. lia.
  - by rewrite history_lookup_ge by lia.
  - rewrite times_lookup_lt by lia. do 3 f_equal. lia.
  - by rewrite times_lookup_ge by lia.
Qed.

(** X3. Every row of the history [GCM] returns has a not-a-number slot or
    holds values of absolute value at most 1000 only: a state is recorded
    only after the guard of line 275 let it pass, and the rows that were not
    written are not-a-number. *)
Theorem GCM_rows_bounded_or_nan X0 F dt nt param hist time j row v :
  GCM xdot X0 F dt nt param = Some (hist, time) →
  hist !! j = Some row → no_nan row → v ∈ row →
  (PrimFloat.abs v <=? 1e3) = true.
Proof.
  intros HG Hj Hrow Hv.
  assert (Hvn : is_nan v = false) by (by apply (proj1 (Forall_forall _ _) Hrow)).
  apply ltb_false_leb; [done|by rewrite is_nan_abs|].
  rewrite GCM_spec in HG. destruct (nt <? 0)%Z; [done|].
  destruct (GCM_completed xdot F dt param (Z.to_nat nt) X0) as [m|] eqn:Hc; [|done].
  cbn in HG. injection HG as <- <-.
  destruct (decide (X0 = [])) as [->|HX].
  { destruct (Z.to_nat nt) as [|k] eqn:Hk; [by destruct m|].
    rewrite GCM_completed_empty in Hc by (done || lia). done. }
  destruct (GCM_completed_spec xdot F dt param xdot_length (Z.to_nat nt) X0 HX)
    as (m' & Hc' & Hle & Hlt & _).
  rewrite Hc in Hc'. injection Hc' as <-.
  destruct (decide (j < m)) as [Hjm|Hjm].
  - rewrite history_lookup_lt in Hj by done. injection Hj as <-.
    by apply (diverged_false_bound _ (Hlt j Hjm)).
  - assert (j < Z.to_nat nt).
    { apply lookup_lt_Some in Hj. by rewrite history_length in Hj. }
    rewrite history_lookup_ge in Hj by lia. injection Hj as <-.
    destruct X0 as [|x X0]; [done|]. by apply Forall_cons_1 in Hrow as [? _].
Qed.

(** X4. A run can be continued from its last row: for a run of [nt1]
    iterations that returned, [GCM] started from the last row of its history
    for [nt2] more iterations returns the rows that the single run of
    [nt1 + nt2] iterations has after the first [nt1].  When the first run was
    cut short by the guard its last row is not-a-number, and so is every row
    of the continuation, as are the unwritten rows of the single run. *)
Theorem GCM_restart X0 F dt nt1 nt2 param hist1 time1 Xlast :
  (0 ≤ nt2)%Z →
  GCM xdot X0 F dt nt1 param = Some (hist1, time1) →
  last hist1 = Some Xlast →
  ∃ hist2 time2 time,
    GCM xdot Xlast F dt nt2 param = Some (hist2, time2)
    ∧ GCM xdot X0 F dt (nt1 + nt2) param = Some (hist1 ++ hist2, time).
Proof.
  intros Hnt2 HG Hlast.
  rewrite GCM_spec in HG. destruct (nt1 <? 0)%Z eqn:Hnt1; [done|].
  apply Z.ltb_ge in Hnt1.
  destruct (GCM_completed xdot F dt param (Z.to_nat nt1) X0) as [m1|] eqn:Hc1; [|done].
  cbn in HG. injection HG as <- <-.
  assert (HX : X0 ≠ []).
  { intros ->. destruct (Z.to_nat nt1) as [|k] eqn:Hk.
    - by destruct m1.
    - rewrite GCM_completed_empty in Hc1 by (done || lia). done. }
  destruct (GCM_completed_spec xdot F dt param xdot_length (Z.to_nat nt1) X0 HX)
    as (m & Hc & Hle & _).
  rewrite Hc1 in Hc. injection Hc as <-.
  rewrite last_lookup, history_length in Hlast by done.
  assert (Hpos : (0 < Z.to_nat nt1)%nat).
  { destruct (Z.to_nat nt1); [by destruct m1|lia]. }
  rewrite !GCM_spec.
  destruct (nt2 <? 0)%Z eqn:E2; [apply Z.ltb_lt in E2; lia|clear E2].
  destruct (nt1 + nt2 <? 0)%Z eqn:E3; [apply Z.ltb_lt in E3; lia|clear E3].
  rewrite Z2Nat.inj_add by lia.
  rewrite (GCM_completed_add xdot F dt param), Hc1. cbn [mbind option_bind].
  destruct (decide (m1 = Z.to_nat nt1)) as [->|Hne].
  - rewrite history_lookup_lt in Hlast by lia.
    replace (S (Nat.pred (Z.to_nat nt1))) with (Z.to_nat nt1) in Hlast by lia.
    injection Hlast as <-.
    assert (HXl : GCM_state xdot F dt param X0 (Z.to_nat nt1) ≠ [])
      by (by apply GCM_state_nonempty).
    destruct (GCM_completed_spec xdot F dt param xdot_length (Z.to_nat nt2) _ HXl)
      as (m2 & -> & Hle2 & _).
    cbn [mbind option_bind fmap option_fmap option_map]. eexists _, _, _. split; [done|]. f_equal. f_equal.
    unfold history. rewrite Nat.sub_diag. cbn [replicate]. rewrite app_nil_r.
    rewrite seq_app, fmap_app, <-(assoc_L (++)). f_equal. f_equal.
    + replace (0 + Z.to_nat nt1)%nat with (Z.to_nat nt1 + 0)%nat by lia.
      rewrite <-fmap_add_seq, <-list_fmap_compose.
      apply list_fmap_ext. intros ? j _. unfold compose.
      by rewrite <-(GCM_state_add xdot F dt param), Nat.add_succ_r.
    + rewrite (GCM_state_length xdot F dt param xdot_length). f_equal. lia.
  - rewrite history_lookup_ge in Hlast by lia. injection Hlast as <-.
    assert (HK : (0 < length X0)%nat) by (destruct X0; [done|cbn; lia]).
    rewrite (GCM_completed_nan_row xdot F dt param xdot_length) by done.
    cbn [mbind option_bind fmap option_fmap option_map]. eexists _, _, _. split; [done|]. f_equal. f_equal.
    unfold history. rewrite <-(assoc_L (++)). f_equal.
    rewrite Nat.sub_diag. cbn [replicate]. rewrite app_nil_r.
    replace (Z.to_nat nt1 + Z.to_nat nt2 - m1)%nat
      with ((Z.to_nat nt1 - m1) + Z.to_nat nt2)%nat by lia.
    rewrite replicate_add. f_equal.
    generalize (Z.to_nat nt2). intros k. induction k as [|k IH]; [done|].
    rewrite seq_S, fmap_app. cbn [fmap list_fmap app Nat.add].
    rewrite (GCM_state_nan_row xdot F dt param xdot_length), <-IH.
    change [nan_row (length X0)] with (replicate 1 (nan_row (length X0))).
    rewrite <-replicate_add. f_equal. lia.
Qed.
End GCM_more.


(** ** Leading zero coefficients *)

(** With a step size that is not negative the slot of an infinite state
    component is not-a-number after the step, whatever the coupling term. *)
Lemma tendency_infinite s x a F :
  Prim2SF x = S754_infinity s →
  Prim2SF (a - x + F) = S754_nan ∨ Prim2SF (a - x + F) = S754_infinity (negb s).
Proof.
  intros Hx. rewrite add_spec, sub_spec, Hx.
  destruct s, (Prim2SF a) as [[]|[]| |[] ma ea], (Prim2SF F) as [[]|[]| |[] mF eF];
    (by left) || (by right).
Qed.

Lemma step_infinite s x dt a F P :
  Prim2SF x = S754_infinity s → (dt <? 0) = false →
  x + dt * (a - x + F - P) = nan.
Proof.
  intros Hx Hdt. apply Prim2SF_inj.
  rewrite FloatAxioms.ltb_spec in Hdt. revert Hdt.
  rewrite add_spec, mul_spec, sub_spec, Hx.
  change (Prim2SF 0) with (S754_zero false). change (Prim2SF nan) with S754_nan.
  destruct (tendency_infinite s x a F Hx) as [-> | ->];
  destruct s, (Prim2SF P) as [[]|[]| |[] mP eP],
    (Prim2SF dt) as [[]|[]| |[] md ed]; try reflexivity; discriminate.
Qed.

Lemma leading_zero_scalar p x dt a F :
  (dt <? 0) = false →
  x + dt * (a - x + F - np.horner (0 :: p) x) = x + dt * (a - x + F - np.horner p x).
Proof.
  intros Hdt. unfold np.horner. cbn [foldl].
  destruct (Prim2SF x) as [s|s| |s m e] eqn:Hx.
  - by rewrite zero_poly_finite by by rewrite Hx.
  - by rewrite !(step_infinite s).
  - apply Prim2SF_nan in Hx as ->. by rewrite !add_nan_l.
  - by rewrite zero_poly_finite by by rewrite Hx.
Qed.

Lemma GCM_loop_ext xdot F dt p q ns :
  (∀ X, GCM_step xdot F dt p X = GCM_step xdot F dt q X) →
  ∀ hist time X,
    GCM_loop xdot F dt p ns hist time X = GCM_loop xdot F dt q ns hist time X.
Proof.
  intros Hstep. induction ns as [|n ns IH]; intros hist time X; [done|].
  cbn [GCM_loop]. rewrite Hstep.
  destruct (diverged _) as [[]|]; cbn [mbind option_bind]; [done| |done]. apply IH.
Qed.

Section leading_zero.
Context (xdot : np.ndarray → float → np.ndarray).
Hypothesis xdot_length : ∀ X F, length (xdot X F) = length X.
Hypothesis xdot_shape : tendency_shape xdot.

Lemma GCM_step_leading_zero F dt param X :
  (dt <? 0) = false →
  GCM_step xdot F dt (0 :: param) X = GCM_step xdot F dt param X.
Proof.
  intros Hdt. apply (list_eq_same_length _ _ (length X)).
  { by rewrite GCM_step_length. }
  { by rewrite GCM_step_length. }
  intros k y z Hk Hy Hz.
  apply lookup_lt_is_Some in Hk as [x Hx].
  destruct (xdot_shape X F k x Hx) as [a Ha].
  rewrite (GCM_step_lookup _ _ _ _ _ _ _ _ Hx Ha) in Hy.
  rewrite (GCM_step_lookup _ _ _ _ _ _ _ _ Hx Ha) in Hz.
  injection Hy as <-. injection Hz as <-. by apply leading_zero_scalar.
Qed.

(** X5. A leading zero coefficient changes nothing: with a step size that
    is not negative, [GCM] with [param = [0, c1, ..., cn]] returns exactly
    what it returns with [param = [c1, ..., cn]], on every state (Horner's
    scheme starts from [0 * x + 0], which is [0] unless [x] is infinite or
    not-a-number, and then the slot is not-a-number after the step in both
    runs).  The tendency may be any function giving [(a - X_k) + F] in slot
    [k]. *)
Theorem GCM_leading_zero_coefficient X0 F dt nt param :
  (dt <? 0) = false →
  GCM xdot X0 F dt nt (0 :: param) = GCM xdot X0 F dt nt param.
Proof.
  intros Hdt. unfold GCM. destruct (nt <? 0)%Z; [done|].
  apply GCM_loop_ext. intros X. by apply GCM_step_leading_zero.
Qed.
End leading_zero.


(** ** The run of [GCMs] *)

Section GCMs_facts.
Context (xdot : np.ndarray → float → np.ndarray).
Context (rng : Type) (randn : nat → rng → np.ndarray * rng).
Context (F dt : float) (param : list float) (stoch phi : float).
Local Abbreviation next := (GCMs_next xdot rng randn F dt param stoch phi).
Local Abbreviation completed := (GCMs_completed xdot rng randn F dt param stoch phi).
Local Abbreviation loop := (GCMs_loop xdot rng randn F dt param stoch phi).

Lemma GCMs_next_iter s n : Nat.iter (S n) next s = Nat.iter n next (next s).
Proof. by rewrite Nat.iter_succ_r. Qed.

Lemma GCMs_loop_unfold n ns hist time ek X g :
  loop (n :: ns) hist time ek X g =
    let s := next (ek, X, g) in
    match diverged s.1.2 with
    | None => (None, s.2)
    | Some true => (Some (hist, time), s.2)
    | Some false =>
        loop ns (<[n := s.1.2]> hist) (<[n := dt * np.of_int (Z.of_nat n + 1)]> time)
          s.1.1 s.1.2 s.2
    end.
Proof. cbn [GCMs_loop GCMs_next]. by destruct (randn (length X) g). Qed.

Lemma GCMs_loop_spec k : ∀ i hist time ek X g,
  i + k ≤ length hist → i + k ≤ length time →
  (loop (seq i k) hist time ek X g).1 =
    m ← completed k (ek, X, g);
    Some (take i hist ++ ((λ j, (Nat.iter (S j) next (ek, X, g)).1.2) <$> seq 0 m)
            ++ drop (i + m) hist,
          take i time ++ ((λ j, dt * np.of_int (Z.of_nat (i + j) + 1)) <$> seq 0 m)
            ++ drop (i + m) time).
Proof.
  induction k as [|k IH]; intros i hist time ek X g Hh Ht.
  { cbn [seq fmap list_fmap app GCMs_loop GCMs_completed mbind option_bind fst].
    by rewrite Nat.add_0_r, !take_drop. }
  cbn [seq GCMs_completed]. rewrite GCMs_loop_unfold. cbv zeta.
  destruct (next (ek, X, g)) as [[ek' X'] g'] eqn:Hs. cbn [fst snd].
  destruct (diverged X') as [[]|] eqn:Hd; cbn [mbind option_bind fst]; [|clear Hd|done].
  { cbn [seq fmap list_fmap app]. by rewrite Nat.add_0_r, !take_drop. }
  rewrite IH; [|rewrite length_insert; lia..].
  destruct (completed k (ek', X', g')) as [m|];
    [cbn [fmap option_fmap option_map mbind option_bind]|done].
  do 2 f_equal; apply splice_insert; try done; try lia.
  - cbn [Nat.iter nat_rect]. by rewrite Hs.
  - intros j. by rewrite (GCMs_next_iter _ (S j)), Hs.
  - by rewrite Nat.add_0_r.
  - intros j. do 3 f_equal. lia.
Qed.

(** The generator the loop leaves: the one after the iterations it started,
    one more than it recorded when the guard stopped it. *)
Lemma GCMs_loop_gen k : ∀ i hist time ek X g m,
  completed k (ek, X, g) = Some m →
  (loop (seq i k) hist time ek X g).2 = (Nat.iter (S m `min` k) next (ek, X, g)).2.
Proof.
  induction k as [|k IH]; intros i hist time ek X g m Hc.
  { by rewrite Nat.min_0_r. }
  cbn [seq]. rewrite GCMs_loop_unfold. cbv zeta.
  cbn [GCMs_completed] in Hc.
  destruct (next (ek, X, g)) as [[ek' X'] g'] eqn:Hs. cbn [fst snd] in *.
  destruct (diverged X') as [[]|]; cbn [mbind option_bind] in Hc; [| |done].
  { injection Hc as <-. cbn [Nat.min Nat.iter nat_rect snd]. by rewrite Hs. }
  destruct (completed k (ek', X', g')) as [m'|] eqn:Hc'; [|done].
  injection Hc as <-. rewrite (IH _ _ _ _ _ _ m' Hc').
  rewrite <-Nat.succ_min_distr, GCMs_next_iter. by rewrite Hs.
Qed.
End GCMs_facts.

Section GCMs_total.
Context (xdot : np.ndarray → float → np.ndarray).
Hypothesis xdot_length : ∀ X F, length (xdot X F) = length X.
Context (rng : Type) (randn : nat → rng → np.ndarray * rng).
Hypothesis randn_length : ∀ K g, length (randn K g).1 = K.
Context (F dt : float) (param : list float) (stoch phi : float).
Local Abbreviation next := (GCMs_next xdot rng randn F dt param stoch phi).
Local Abbreviation completed := (GCMs_completed xdot rng randn F dt param stoch phi).
Local Abbreviation state := (GCMs_state xdot rng randn F dt param stoch phi).

Lemma red_noise_length ek z : length (red_noise stoch phi ek z) = length ek `min` length z.
Proof. unfold red_noise, np.add, np.smul. by rewrite length_zip_with, !length_fmap. Qed.

(** The shapes of the red noise and of the state are those of [X0] in every
    iteration, and the generator has made one draw of that size for each. *)
Lemma GCMs_next_shape K ek X g :
  length ek = K → length X = K →
  length (next (ek, X, g)).1.1 = K ∧ length (next (ek, X, g)).1.2 = K
  ∧ (next (ek, X, g)).2 = (randn K g).2.
Proof.
  intros He HX. cbn [GCMs_next]. rewrite HX.
  pose proof (randn_length K g) as Hz. destruct (randn K g) as [z g']. cbn [fst snd] in *.
  assert (Hl : length (red_noise stoch phi ek z) = K) by (rewrite red_noise_length; lia).
  split; [done|]. split; [|done]. rewrite GCMs_step_length; [done|done|]. by rewrite Hl.
Qed.

Lemma GCMs_iter_shape K n : ∀ ek X g,
  length ek = K → length X = K →
  length (Nat.iter n next (ek, X, g)).1.1 = K
  ∧ length (Nat.iter n next (ek, X, g)).1.2 = K
  ∧ (Nat.iter n next (ek, X, g)).2 = draws rng randn K n g.
Proof.
  induction n as [|n IH]; intros ek X g He HX; [done|].
  rewrite GCMs_next_iter. unfold draws. rewrite Nat.iter_succ_r.
  destruct (GCMs_next_shape K ek X g He HX) as (He' & HX' & <-).
  destruct (next (ek, X, g)) as [[ek' X'] g']. by apply IH.
Qed.

Lemma GCMs_completed_spec K k : ∀ ek X g,
  (0 < K)%nat → length ek = K → length X = K →
  ∃ m, completed k (ek, X, g) = Some m ∧ m ≤ k
    ∧ (∀ j, j < m → diverged (Nat.iter (S j) next (ek, X, g)).1.2 = Some false)
    ∧ (m < k → diverged (Nat.iter (S m) next (ek, X, g)).1.2 = Some true).
Proof.
  induction k as [|k IH]; intros ek X g HK He HX.
  { exists O. repeat split; [done|lia|lia]. }
  cbn [GCMs_completed].
  destruct (GCMs_next_shape K ek X g He HX) as (He' & HX' & _).
  destruct (next (ek, X, g)) as [[ek' X'] g'] eqn:Hs. cbn [fst snd] in *.
  assert (Hne : X' ≠ []) by (intros ->; cbn in HX'; lia).
  destruct (diverged_is_Some _ Hne) as [[] Hd]; rewrite Hd; cbn [mbind option_bind].
  { exists O. repeat split; [lia|lia|]. intros _. cbn [Nat.iter nat_rect]. by rewrite Hs. }
  destruct (IH ek' X' g' HK He' HX') as (m & -> & Hle & Hlt & Hm).
  exists (S m). repeat split; [lia| |].
  - intros [|j] Hj; [cbn [Nat.iter nat_rect]; by rewrite Hs|].
    rewrite GCMs_next_iter, Hs. apply Hlt. lia.
  - intros Hk. rewrite GCMs_next_iter, Hs. apply Hm. lia.
Qed.

Lemma GCMs_completed_empty k ek g : (0 < k)%nat → completed k (ek, [], g) = None.
Proof.
  destruct k; [lia|]. intros _. cbn [GCMs_completed GCMs_next length].
  destruct (randn 0 g) as [z g']. by cbn.
Qed.

(** What a call of [GCMs] that returns gives back and leaves. *)
Lemma GCMs_run X0 nt g :
  (0 ≤ nt)%Z → X0 ≠ [] →
  ∃ m, completed (Z.to_nat nt) (np.zeros (length X0), X0, g) = Some m
    ∧ GCMs xdot rng randn X0 F dt nt param stoch phi g
      = (Some (((λ j, (state X0 g (S j)).1.2) <$> seq 0 m)
                 ++ replicate (Z.to_nat nt - m) (nan_row (length X0)),
               times dt (Z.to_nat nt) m),
         draws rng randn (length X0) (S m `min` Z.to_nat nt) g)
    ∧ m ≤ Z.to_nat nt
    ∧ (∀ j, j < m → diverged (state X0 g (S j)).1.2 = Some false)
    ∧ (m < Z.to_nat nt → diverged (state X0 g (S m)).1.2 = Some true).
Proof.
  intros Hnt HX.
  assert (HK : (0 < length X0)%nat) by (destruct X0; [done|cbn; lia]).
  assert (Hz : length (np.zeros (length X0)) = length X0) by apply length_replicate.
  destruct (GCMs_completed_spec (length X0) (Z.to_nat nt) _ X0 g HK Hz eq_refl)
    as (m & Hc & Hle & Hlt & Hm).
  exists m. split; [done|]. split; [|done].
  unfold GCMs. destruct (nt <? 0)%Z eqn:E; [apply Z.ltb_lt in E; lia|].
  apply injective_projections.
  - rewrite GCMs_loop_spec.
    2:{ rewrite hist0_nan, length_replicate. lia. }
    2:{ unfold time0, np.arange. rewrite !length_fmap, length_seq. lia. }
    rewrite Hc. cbn [mbind option_bind fst]. unfold times.
    cbn [take app Nat.add]. rewrite hist0_nan, drop_replicate.
    unfold time0, np.arange. by rewrite <-list_fmap_compose, <-fmap_drop, drop_seq.
  - rewrite (GCMs_loop_gen _ _ _ _ _ _ _ _ _ _ _ _ _ _ _ m Hc). cbn [snd].
    by apply GCMs_iter_shape.
Qed.
End GCMs_total.


Lemma mul_nan_l y : nan * y = nan.
Proof. apply Prim2SF_inj. by rewrite mul_spec. Qed.

Lemma sqrt_negative x : (x <? 0) = true → sqrt x = nan.
Proof.
  intros H. apply Prim2SF_inj. rewrite sqrt_spec.
  rewrite FloatAxioms.ltb_spec in H. revert H.
  change (Prim2SF 0) with (S754_zero false). change (Prim2SF nan) with S754_nan.
  by destruct (Prim2SF x) as [[]|[]| |[] m e].
Qed.

Lemma add_nan_row_r K l : length l = K → np.add l (nan_row K) = nan_row K.
Proof.
  intros <-. unfold np.add, nan_row.
  induction l as [|y l IH]; [done|]. cbn. by rewrite add_nan_r, IH.
Qed.

Lemma smul_nan_row c K : np.smul c (nan_row K) = nan_row K.
Proof.
  unfold np.smul, nan_row. induction K as [|K IH]; [done|]. cbn. by rewrite mul_nan_r, IH.
Qed.

Lemma smul_nan K z : length z = K → np.smul nan z = nan_row K.
Proof.
  intros <-. unfold np.smul, nan_row.
  induction z as [|y z IH]; [done|].
  rewrite fmap_cons. cbn [length replicate]. by rewrite mul_nan_l, IH.
Qed.

Section GCMs_run_properties.
Context (xdot : np.ndarray → float → np.ndarray).
Hypothesis xdot_length : ∀ X F, length (xdot X F) = length X.
Context (rng : Type) (randn : nat → rng → np.ndarray * rng).
Hypothesis randn_length : ∀ K g, length (randn K g).1 = K.
Local Abbreviation state := (GCMs_state xdot rng randn).
Local Abbreviation completed := (GCMs_completed xdot rng randn).

(** X6. The guard and the buffers of [GCMs] are those of [GCM].  A call
    with [0 <= nt] on a state that is not empty returns; with [m] the
    iterations before the first one whose state trips the guard of line 514,
    rows [0 .. m-1] of the history are the states after 1, ..., [m]
    iterations of lines 512-513 and their times are [dt * (n + 1)], and the
    rows from [m] on are not-a-number with the times [dt * n] of line 507. *)
Theorem GCMs_records_until_guard X0 F dt nt param stoch phi g :
  (0 ≤ nt)%Z → X0 ≠ [] →
  ∃ m hist time,
    completed F dt param stoch phi (Z.to_nat nt) (np.zeros (length X0), X0, g) = Some m
    ∧ (GCMs xdot rng randn X0 F dt nt param stoch phi g).1 = Some (hist, time)
    ∧ m ≤ Z.to_nat nt ∧ length hist = Z.to_nat nt ∧ length time = Z.to_nat nt
    ∧ (∀ j, j < m →
         hist !! j = Some (state F dt param stoch phi X0 g (S j)).1.2
         ∧ time !! j = Some (dt * np.of_int (Z.of_nat j + 1))
         ∧ diverged (state F dt param stoch phi X0 g (S j)).1.2 = Some false)
    ∧ (m < Z.to_nat nt →
         diverged (state F dt param stoch phi X0 g (S m)).1.2 = Some true)
    ∧ (∀ j, m ≤ j → j < Z.to_nat nt →
         hist !! j = Some (replicate (length X0) nan)
         ∧ time !! j = Some (dt * np.of_int (Z.of_nat j))).
Proof.
  intros Hnt HX.
  destruct (GCMs_run xdot xdot_length rng randn randn_length
              F dt param stoch phi X0 nt g Hnt HX) as (m & Hc & HG & Hle & Hlt & Hm).
  eexists m, _, _. split; [done|]. split; [by rewrite HG|]. split; [done|].
  split; [|split; [|split; [|split]]].
  - rewrite length_app, length_fmap, length_seq, length_replicate. lia.
  - by apply times_length.
  - intros j Hj. split; [|split].
    + rewrite lookup_app_l by (rewrite length_fmap, length_seq; lia).
      by rewrite list_lookup_fmap, lookup_seq_lt.
    + by apply times_lookup_lt.
    + by apply Hlt.
  - done.
  - intros j Hmj Hj. split.
    + rewrite lookup_app_r by (rewrite length_fmap, length_seq; lia).
      rewrite length_fmap, length_seq. apply lookup_replicate_2. lia.
    + by apply times_lookup_ge.
Qed.

(** X7. [GCMs] draws from the generator once in every iteration it
    starts, [len(X0)] samples each time: a call that records [m] rows leaves
    the generator where [nt] calls of [randn(len(X0))] leave it when the
    guard did not stop the run ([m = nt]), and where [m + 1] calls leave it
    when it did; the samples drawn for the state that tripped the guard are
    used up.  This holds for every [stoch], [0] included. *)
Theorem GCMs_generator_draws X0 F dt nt param stoch phi g :
  (0 ≤ nt)%Z → X0 ≠ [] →
  ∃ m,
    completed F dt param stoch phi (Z.to_nat nt) (np.zeros (length X0), X0, g) = Some m
    ∧ m ≤ Z.to_nat nt
    ∧ (GCMs xdot rng randn X0 F dt nt param stoch phi g).2
      = draws rng randn (length X0) (if decide (m < Z.to_nat nt) then S m else m) g.
Proof.
  intros Hnt HX.
  destruct (GCMs_run xdot xdot_length rng randn randn_length
              F dt param stoch phi X0 nt g Hnt HX) as (m & Hc & HG & Hle & Hlt & Hm).
  exists m. split; [done|]. split; [done|]. rewrite HG. cbn [snd]. f_equal.
  destruct (decide (m < Z.to_nat nt)); lia.
Qed.

(** Once the buffers are made, the only exception of [GCMs] is that of
    the maximum of an empty array. *)
Lemma GCMs_None_iff X0 F dt nt param stoch phi g :
  (GCMs xdot rng randn X0 F dt nt param stoch phi g).1 = None
  ↔ (nt < 0)%Z ∨ (0 < nt)%Z ∧ X0 = [].
Proof.
  split.
  - intros H. destruct (decide (nt < 0)%Z) as [|Hnt]; [by left|right].
    destruct (decide (X0 = [])) as [->|HX].
    + split; [|done]. destruct (decide (nt = 0%Z)) as [->|]; [done|lia].
    + destruct (GCMs_run xdot xdot_length rng randn randn_length
                  F dt param stoch phi X0 nt g ltac:(lia) HX) as (m & _ & HG & _).
      by rewrite HG in H.
  - intros [Hnt|[Hnt ->]]; unfold GCMs.
    + by rewrite (proj2 (Z.ltb_lt _ _) Hnt).
    + rewrite (proj2 (Z.ltb_ge _ _)) by lia.
      rewrite GCMs_loop_spec.
      2:{ rewrite hist0_nan, length_replicate. lia. }
      2:{ unfold time0, np.arange. rewrite !length_fmap, length_seq. lia. }
      rewrite GCMs_completed_empty; [done|lia].
Qed.

(** X8. [GCMs] validates no parameter either: for every [X0], [F], [dt],
    [nt], [param], [stoch], [phi] and generator state it raises exactly when
    the buffers of line 507 cannot be made, which is when [nt] is negative or
    beyond what numpy has room for, or when [X0] is empty and [nt > 0]; in
    every other case it returns. *)
Theorem GCMs_raises_iff room X0 F dt nt param stoch phi g :
  (GCMs_alloc xdot room rng randn X0 F dt nt param stoch phi g).1 = None
  ↔ (nt < 0)%Z ∨ room nt (length X0) = false ∨ (0 < nt)%Z ∧ X0 = [].
Proof.
  unfold GCMs_alloc. destruct (room nt (length X0)).
  - rewrite GCMs_None_iff. split; [intros [|]; auto|]. intros [|[|]]; auto. done.
  - split; auto.
Qed.

(** X9. [phi] is not validated: when [(1 - phi) * (1 + phi)] is negative
    (the magnitude of [phi] above 1) its square root is not-a-number, and so
    is every slot of the red noise and of the state from the first iteration
    on, whatever [stoch] is, [0] included.  The guard never trips on them:
    the call records all its [nt] rows, each not-a-number in every slot, and
    all the times [dt * (n + 1)]. *)
Theorem GCMs_phi_out_of_range X0 F dt nt param stoch phi g :
  ((1 - phi) * (1 + phi) <? 0) = true →
  (0 ≤ nt)%Z → X0 ≠ [] →
  (GCMs xdot rng randn X0 F dt nt param stoch phi g).1
  = Some (replicate (Z.to_nat nt) (replicate (length X0) nan),
          (λ n, dt * np.of_int (Z.of_nat n + 1)) <$> seq 0 (Z.to_nat nt)).
Proof.
  intros Hphi Hnt HX.
  assert (Hnext : ∀ ek X g, length ek = length X0 → length X = length X0 →
            (GCMs_next xdot rng randn F dt param stoch phi (ek, X, g)).1.2
            = nan_row (length X0)).
  { intros ek X g' He HX'. cbn [GCMs_next]. rewrite HX'.
    pose proof (randn_length (length X0) g') as Hz.
    destruct (randn (length X0) g') as [z g'']. cbn [fst snd] in *.
    assert (Hek : red_noise stoch phi ek z = nan_row (length X0)).
    { unfold red_noise. rewrite sqrt_negative, mul_nan_r, (smul_nan (length X0)) by done.
      apply add_nan_row_r. unfold np.smul. by rewrite length_fmap. }
    rewrite Hek. unfold GCMs_step. rewrite smul_nan_row.
    rewrite (add_nan_row_r (length X0)).
    2:{ unfold np.sub. rewrite length_zip_with, xdot_length, polyval_length. lia. }
    rewrite smul_nan_row. by apply add_nan_row_r. }
  assert (Hstate : ∀ j, (state F dt param stoch phi X0 g (S j)).1.2 = nan_row (length X0)).
  { intros j. unfold GCMs_state. rewrite Nat.iter_succ.
    destruct (GCMs_iter_shape xdot xdot_length rng randn randn_length
                F dt param stoch phi (length X0) j (np.zeros (length X0)) X0 g)
      as (He & HX' & _); [apply length_replicate|done|].
    destruct (Nat.iter j _ _) as [[ek X] g']. by apply Hnext. }
  assert (HK : (0 < length X0)%nat) by (destruct X0; [done|cbn; lia]).
  destruct (GCMs_run xdot xdot_length rng randn randn_length
              F dt param stoch phi X0 nt g Hnt HX) as (m & Hc & HG & Hle & Hlt & Hm).
  assert (m = Z.to_nat nt) as ->.
  { destruct (decide (m = Z.to_nat nt)) as [|Hne]; [done|].
    rewrite Hstate, diverged_nan_row in Hm by done. by specialize (Hm ltac:(lia)). }
  rewrite HG. cbn [fst]. f_equal. f_equal.
  - rewrite Nat.sub_diag. cbn [replicate]. rewrite app_nil_r.
    generalize (Z.to_nat nt). intros k. induction k as [|k IH]; [done|].
    rewrite seq_S, fmap_app, IH. cbn [fmap list_fmap Nat.add]. rewrite Hstate.
    change [nan_row (length X0)] with (replicate 1 (nan_row (length X0))).
    rewrite <-replicate_add. unfold nan_row. f_equal. lia.
  - unfold times. rewrite Nat.sub_diag. cbn [seq fmap list_fmap]. by rewrite app_nil_r.
Qed.
End GCMs_run_properties.


(** ** Calls one after the other *)

Section store_calls.
Context (xdot : np.ndarray → float → np.ndarray).
Context (rng : Type) (randn : nat → rng → np.ndarray * rng).
Local Abbreviation world := (Store.world rng).
Local Abbreviation heap := (Store.heap rng).
Local Abbreviation gen := (Store.gen rng).
Local Abbreviation Vec := Store.Vec.
Local Abbreviation Mat := Store.Mat.

(** X10. The arrays [GCM] and [GCMs] return are new and their own: neither
    is an array that existed at the call, [X0] included, and [hist] and
    [time] are two arrays.  Writing into a result cannot change the initial
    state nor any other array of the caller. *)
Theorem GCM_returns_new_arrays (w : world) X0 x0 F dt nt param stoch phi hist time :
  heap w !! X0 = Some (Vec x0) →
  (Store.GCM xdot rng X0 F dt nt param w).1 = Some (hist, time)
  ∨ (Store.GCMs xdot rng randn X0 F dt nt param stoch phi w).1 = Some (hist, time) →
  heap w !! hist = None ∧ heap w !! time = None
  ∧ hist ≠ time ∧ hist ≠ X0 ∧ time ≠ X0.
Proof.
  intros HX0 [Hr|Hr].
  - destruct (GCM_store xdot rng F dt param w X0 x0 nt HX0) as (r & w' & E & _ & _ & Hr').
    rewrite E in Hr. cbn [fst] in Hr. subst r.
    destruct (GCM xdot x0 F dt nt param) as [[H T]|]; [|done].
    destruct Hr' as (h & t & [= <- <-] & Hh & Ht & Hh' & Ht').
    repeat split; try done; intros ->; congruence.
  - destruct (GCMs_store xdot rng randn F dt param stoch phi w X0 x0 nt HX0)
      as (r & w' & E & _ & _ & Hr').
    rewrite E in Hr. cbn [fst] in Hr. subst r.
    destruct (GCMs xdot rng randn x0 F dt nt param stoch phi (gen w)).1 as [[H T]|]; [|done].
    destruct Hr' as (h & t & [= <- <-] & Hh & Ht & Hh' & Ht').
    repeat split; try done; intros ->; congruence.
Qed.

(** X11. Calls from the same initial array do not disturb each other, as
    the notebook makes them (lines 285-287, 401-406): after a first call of
    [GCM] a second one, with any arguments, returns what it returns on the
    value [X0] had before the first; its arrays are not those of the first
    call, and what the first call returned is still in them. *)
Theorem GCM_successive_calls (w : world) X0 x0 F1 dt1 nt1 p1 F2 dt2 nt2 p2 r1 w1 r2 w2 :
  heap w !! X0 = Some (Vec x0) →
  Store.GCM xdot rng X0 F1 dt1 nt1 p1 w = (r1, w1) →
  Store.GCM xdot rng X0 F2 dt2 nt2 p2 w1 = (r2, w2) →
  Store.returned rng (r2, w2) = Store.contents (GCM xdot x0 F2 dt2 nt2 p2)
  ∧ Store.returned rng (r1, w2) = Store.contents (GCM xdot x0 F1 dt1 nt1 p1)
  ∧ (∀ h1 t1 h2 t2, r1 = Some (h1, t1) → r2 = Some (h2, t2) →
       h2 ≠ h1 ∧ h2 ≠ t1 ∧ t2 ≠ h1 ∧ t2 ≠ t1).
Proof.
  intros HX0 E1 E2.
  destruct (GCM_store xdot rng F1 dt1 p1 w X0 x0 nt1 HX0)
    as (r & w' & E & _ & Hfr1 & Hr1).
  rewrite E1 in E. injection E as <- <-.
  pose proof (Hfr1 _ _ HX0) as HX1.
  destruct (GCM_store xdot rng F2 dt2 p2 w1 X0 x0 nt2 HX1)
    as (r & w' & E & _ & Hfr2 & Hr2).
  rewrite E2 in E. injection E as <- <-.
  split; [|split].
  - rewrite <-E2. by apply GCM_returned.
  - unfold Store.returned, Store.contents. cbn [fst snd].
    destruct (GCM xdot x0 F1 dt1 nt1 p1) as [[H T]|]; [|by rewrite Hr1].
    destruct Hr1 as (h & t & -> & _ & _ & Hh & Ht).
    by rewrite (Hfr2 _ _ Hh), (Hfr2 _ _ Ht).
  - intros h1 t1 h2 t2 -> ->.
    destruct (GCM xdot x0 F1 dt1 nt1 p1) as [[H1 T1]|]; [|done].
    destruct (GCM xdot x0 F2 dt2 nt2 p2) as [[H2 T2]|]; [|done].
    destruct Hr1 as (h & t & [= <- <-] & _ & _ & Hh & Ht).
    destruct Hr2 as (h & t & [= <- <-] & Hh2 & Ht2 & _).
    repeat split; intros ->; congruence.
Qed.
End store_calls.


(** ** The red noise at [phi = 1] *)

Lemma add_neg_zero_r x : x + (-0) = x.
Proof.
  apply Prim2SF_inj. rewrite add_spec.
  change (Prim2SF (-0)) with (S754_zero true).
  by destruct (Prim2SF x) as [[]|[]| |[] m e].
Qed.

Lemma mul_zero_finite c :
  is_finite c = true → c * 0 = 0 ∨ c * 0 = -0.
Proof.
  intros Hc%is_finite_spec.
  destruct (Prim2SF (c * 0)) as [[]|s| |s m e] eqn:E.
  - right. by apply Prim2SF_neg_zero.
  - left. by apply Prim2SF_pos_zero.
  - rewrite mul_spec in E. change (Prim2SF 0) with (S754_zero false) in E.
    by destruct (Prim2SF c) as [[]|[]| |[] mc ec].
  - rewrite mul_spec in E. change (Prim2SF 0) with (S754_zero false) in E.
    by destruct (Prim2SF c) as [[]|[]| |[] mc ec].
  - rewrite mul_spec in E. change (Prim2SF 0) with (S754_zero false) in E.
    by destruct (Prim2SF c) as [[]|[]| |[] mc ec].
Qed.

(** At [phi = 1] the factor [sqrt((1 - phi) * (1 + phi))] is [0]: the red
    noise stays [+0], the samples and [stoch] being finite. *)
Lemma red_noise_one_scalar stoch z :
  is_finite stoch = true → is_finite z = true →
  1 * 0 + stoch * sqrt ((1 - 1) * (1 + 1)) * z = 0.
Proof.
  intros Hs Hz%is_finite_spec.
  change (1 * 0) with 0. change (sqrt ((1 - 1) * (1 + 1))) with 0.
  destruct (mul_zero_finite stoch Hs) as [-> | ->];
    apply Prim2SF_inj; rewrite add_spec, mul_spec;
    change (Prim2SF 0) with (S754_zero false);
    change (Prim2SF (-0)) with (S754_zero true);
    by destruct (Prim2SF z) as [[]|[]| |[] m e].
Qed.

Lemma red_noise_one stoch K z :
  is_finite stoch = true →
  length z = K → Forall (λ v, is_finite v = true) z →
  red_noise stoch 1 (np.zeros K) z = np.zeros K.
Proof.
  intros Hs Hlen Hz. unfold red_noise, np.add, np.smul, np.zeros.
  apply (list_eq_same_length _ _ K); [by rewrite length_replicate| |].
  { rewrite length_zip_with, !length_fmap, length_replicate. lia. }
  intros k y y' Hk. rewrite lookup_zip_with, !list_lookup_fmap, !lookup_replicate_2 by done.
  destruct (z !! k) as [v|] eqn:Hv; [|done]. cbn. intros [= <-] [= <-].
  apply red_noise_one_scalar; [done|]. by apply (proj1 (Forall_lookup _ _) Hz k).
Qed.

Lemma stoch_finite_scalar stoch x dt a F P :
  is_finite stoch = true →
  x + dt * (a - x + F - P + stoch * 0) = x + dt * (a - x + F - P).
Proof.
  intros Hs. destruct (mul_zero_finite stoch Hs) as [-> | ->].
  - apply stoch_zero_scalar.
  - by rewrite add_neg_zero_r.
Qed.

Section GCMs_persistent.
Context (xdot : np.ndarray → float → np.ndarray).
Hypothesis xdot_length : ∀ X F, length (xdot X F) = length X.
Hypothesis xdot_shape : tendency_shape xdot.
Context (rng : Type) (randn : nat → rng → np.ndarray * rng).
Hypothesis randn_length : ∀ K g, length (randn K g).1 = K.
Hypothesis randn_finite : ∀ K g, Forall (λ v, is_finite v = true) (randn K g).1.
Context (F dt : float) (param : list float) (stoch : float).
Hypothesis stoch_finite : is_finite stoch = true.

Lemma GCMs_step_zero_noise X :
  GCMs_step xdot F dt param stoch (np.zeros (length X)) X = GCM_step xdot F dt param X.
Proof.
  apply (list_eq_same_length _ _ (length X)).
  { by rewrite GCM_step_length. }
  { rewrite GCMs_step_length; [done|done|apply length_replicate]. }
  intros k y z Hk Hy Hz.
  pose proof (lookup_replicate_2 _ 0 _ Hk) as He.
  apply lookup_lt_is_Some in Hk as [x Hx].
  destruct (xdot_shape X F k x Hx) as [a Ha].
  rewrite (GCMs_step_lookup _ _ _ _ _ _ _ _ _ _ _ Hx Ha He) in Hy.
  rewrite (GCM_step_lookup _ _ _ _ _ _ _ _ Hx Ha) in Hz.
  injection Hy as <-. injection Hz as <-. by apply stoch_finite_scalar.
Qed.

Lemma GCMs_loop_one ns : ∀ hist time X g,
  (GCMs_loop xdot rng randn F dt param stoch 1 ns hist time
     (np.zeros (length X)) X g).1
  = GCM_loop xdot F dt param ns hist time X.
Proof.
  induction ns as [|n ns IH]; intros hist time X g; [done|].
  cbn [GCMs_loop GCM_loop].
  pose proof (randn_length (length X) g) as Hl.
  pose proof (randn_finite (length X) g) as Hf.
  destruct (randn (length X) g) as [z g']. cbn [fst] in Hl, Hf.
  rewrite red_noise_one, GCMs_step_zero_noise by done.
  assert (Hlen : length X = length (GCM_step xdot F dt param X))
    by by rewrite GCM_step_length.
  revert Hlen. generalize (GCM_step xdot F dt param X). intros X' ->.
  destruct (diverged X') as [[]|]; cbn [mbind option_bind]; [done| |done]. apply IH.
Qed.

(** X12. At [phi = 1] the red noise of [GCMs] never leaves zero: the
    factor [sqrt((1 - phi) * (1 + phi))] of line 512 is [0] and [ek] starts
    at zero.  For every finite [stoch] the call returns exactly what [GCM]
    returns on the same arguments, the samples of [randn] being finite.  The
    tendency may be any function giving [(a - X_k) + F] in slot [k]. *)
Theorem GCMs_phi_one_is_GCM X0 nt g :
  (GCMs xdot rng randn X0 F dt nt param stoch 1 g).1
  = GCM xdot X0 F dt nt param.
Proof.
  unfold GCMs, GCM. destruct (nt <? 0)%Z; [done|]. apply GCMs_loop_one.
Qed.
End GCMs_persistent.


(** ** The initial state of the runs *)

Lemma stretch_id {A} n (l : list A) : length l = n → stretch n l = l.
Proof. intros <-. by destruct l as [|x [|y l]]. Qed.

Lemma broadcast_same n : broadcast n n = Some n.
Proof. unfold broadcast. by rewrite decide_True. Qed.

Lemma zero_mul_finite z : is_finite z = true → 0 * z = 0 ∨ 0 * z = -0.
Proof.
  intros Hz%is_finite_spec.
  destruct (Prim2SF (0 * z)) as [[]|s| |s m e] eqn:E.
  - right. by apply Prim2SF_neg_zero.
  - left. by apply Prim2SF_pos_zero.
  - rewrite mul_spec in E. change (Prim2SF 0) with (S754_zero false) in E.
    by destruct (Prim2SF z) as [[]|[]| |[] mz ez].
  - rewrite mul_spec in E. change (Prim2SF 0) with (S754_zero false) in E.
    by destruct (Prim2SF z) as [[]|[]| |[] mz ez].
  - rewrite mul_spec in E. change (Prim2SF 0) with (S754_zero false) in E.
    by destruct (Prim2SF z) as [[]|[]| |[] mz ez].
Qed.

(** X13. The perturbation of line 284 has the amplitude [0.0] and perturbs
    nothing: with as many samples as [Xtrue[0]] has slots, all finite, every
    slot of [Xinit] holds the value of the slot of [Xtrue[0]], bit for bit
    unless that is [-0], which can become [+0].  (The samples are drawn all
    the same.) *)
Theorem Xinit_is_Xtrue0 Xtrue0 z :
  length z = length Xtrue0 → Forall (λ v, is_finite v = true) z →
  ∃ X, Xinit Xtrue0 z = Some X ∧ length X = length Xtrue0
    ∧ ∀ k x, Xtrue0 !! k = Some x →
        ∃ y, X !! k = Some y ∧ (y = x ∨ Prim2SF x = S754_zero true ∧ y = 0).
Proof.
  intros Hlen Hz. unfold Xinit, add1.
  assert (Hl : length (np.smul 0 z) = length Xtrue0)
    by (unfold np.smul; by rewrite length_fmap).
  rewrite Hl, broadcast_same. cbn [mbind option_bind].
  rewrite !stretch_id by done.
  eexists. split; [done|]. split.
  { unfold np.add. rewrite length_zip_with. lia. }
  intros k x Hx.
  assert (Hk : k < length z) by (rewrite Hlen; by eapply lookup_lt_Some).
  apply lookup_lt_is_Some in Hk as [v Hv].
  pose proof (proj1 (Forall_lookup _ _) Hz k v Hv) as Hfin.
  unfold np.add, np.smul.
  rewrite lookup_zip_with, Hx, list_lookup_fmap, Hv. cbn.
  eexists. split; [done|].
  destruct (zero_mul_finite v Hfin) as [-> | ->].
  - destruct (Prim2SF x) as [[]|s| |s m e] eqn:E;
      try (left; apply add_0_r; by rewrite E).
    right. split; [done|]. by apply Prim2SF_neg_zero in E as ->.
  - left. apply add_neg_zero_r.
Qed.

(** ** The error of a run *)

Lemma sub_nan_l y : nan - y = nan.
Proof. apply Prim2SF_inj. by rewrite sub_spec. Qed.

Lemma div_nan_l y : nan / y = nan.
Proof. apply Prim2SF_inj. by rewrite div_spec. Qed.

Lemma is_nan_nan x : is_nan x = true → x = nan.
Proof.
  rewrite is_nan_spec. intros H. apply Prim2SF_inj.
  by destruct (Prim2SF x).
Qed.

(** A slot that is not-a-number stays so in the squared difference. *)
Lemma square_sub_nan r t : length t = length r → ¬ no_nan r →
  ¬ no_nan (np.mul (np.sub r t) (np.sub r t)).
Proof.
  intros Hlen Hr Hsq. apply Hr. apply Forall_lookup. intros k x Hx.
  destruct (is_nan x) eqn:Hn; [|done]. apply is_nan_nan in Hn as ->.
  assert (Hk : k < length t) by (rewrite Hlen; by eapply lookup_lt_Some).
  apply lookup_lt_is_Some in Hk as [y Hy].
  assert (H : is_nan ((nan - y) * (nan - y)) = false).
  { apply (proj1 (Forall_lookup _ _) Hsq k).
    unfold np.mul, np.sub. by rewrite lookup_zip_with, lookup_zip_with, Hx, Hy. }
  rewrite sub_nan_l, mul_nan_l in H. by vm_compute in H.
Qed.

Lemma example_add_reduce_nan r : ¬ no_nan r → example_add_reduce r = nan.
Proof.
  unfold example_add_reduce. generalize 0. induction r as [|x r IH]; intros a Hr.
  { destruct Hr. constructor. }
  cbn [foldl]. destruct (is_nan x) eqn:Hx.
  - apply is_nan_nan in Hx as ->. rewrite add_nan_r.
    clear. induction r as [|y r IH]; [done|]. cbn [foldl]. by rewrite add_nan_l.
  - apply IH. intros Hr'. apply Hr. by constructor.
Qed.

Section GCM_shape.
Context (xdot : np.ndarray → float → np.ndarray).
Hypothesis xdot_length : ∀ X F, length (xdot X F) = length X.

(** The history is an array of [nt] rows of [len(X0)] columns. *)
Lemma GCM_hist_shaped X0 F dt nt param hist time :
  GCM xdot X0 F dt nt param = Some (hist, time) →
  shaped (Array2 (Z.to_nat nt) (length X0) hist).
Proof.
  intros HG. rewrite GCM_spec in HG. destruct (nt <? 0)%Z; [done|].
  destruct (GCM_completed xdot F dt param (Z.to_nat nt) X0) as [m|] eqn:Hc; [|done].
  cbn in HG. injection HG as <- <-.
  assert (Hle : m ≤ Z.to_nat nt).
  { destruct (decide (X0 = [])) as [->|HX].
    - destruct (Z.to_nat nt) as [|k] eqn:Hk; [destruct m; [lia|done]|].
      rewrite GCM_completed_empty in Hc by (done || lia). done.
    - destruct (GCM_completed_spec xdot F dt param xdot_length (Z.to_nat nt) X0 HX)
        as (m' & Hc' & Hle & _).
      rewrite Hc in Hc'. by injection Hc' as <-. }
  split; cbn [rows nrows ncols].
  - by apply history_length.
  - unfold history. apply Forall_app. split.
    + apply Forall_fmap, Forall_forall. intros j _. unfold compose.
      by apply GCM_state_length.
    + apply Forall_replicate. apply length_replicate.
Qed.
End GCM_shape.

Section err_facts.
Context (xdot : np.ndarray → float → np.ndarray).
Hypothesis xdot_length : ∀ X F, length (xdot X F) = length X.
Context (add_reduce : np.ndarray → float).
Hypothesis add_reduce_nan : ∀ r, ¬ no_nan r → add_reduce r = nan.

(** X14. The error of a run against a truth of one more row.  [err] sets
    row [j] of the history against row [j + 1] of [Xtrue]: the first row of
    the truth, the state at time 0 that [GCM] does not record, is left out.
    The error is not-a-number wherever the row of the history has a
    not-a-number slot, so from the row at which the guard stopped the run
    on.  The sum of a row may be taken in any order that gives not-a-number
    when an element is. *)
Theorem err_of_run X0 F dt nt param hist time Xtrue :
  GCM xdot X0 F dt nt param = Some (hist, time) →
  shaped Xtrue → nrows Xtrue = S (Z.to_nat nt) → ncols Xtrue = length X0 →
  ∃ m e,
    GCM_completed xdot F dt param (Z.to_nat nt) X0 = Some m
    ∧ err add_reduce (Array2 (Z.to_nat nt) (length X0) hist) Xtrue = Some e
    ∧ length e = Z.to_nat nt
    ∧ (∀ j row t, hist !! j = Some row → rows Xtrue !! S j = Some t →
         e !! j = Some (sqrt (add_reduce (np.mul (np.sub row t) (np.sub row t))
                              / np.of_int (Z.of_nat (length X0)))))
    ∧ (∀ j row, hist !! j = Some row → ¬ no_nan row → e !! j = Some nan)
    ∧ (∀ j, m ≤ j → j < Z.to_nat nt → e !! j = Some nan).
Proof.
  intros HG [HTn HTk] Hn Hk.
  destruct (GCM_hist_shaped xdot xdot_length _ _ _ _ _ _ _ HG) as [Hhn Hhk].
  cbn [rows nrows ncols] in Hhn, Hhk.
  assert (Hc : ∃ m, GCM_completed xdot F dt param (Z.to_nat nt) X0 = Some m
                 ∧ hist = history xdot F dt param X0 (Z.to_nat nt) m).
  { rewrite GCM_spec in HG. destruct (nt <? 0)%Z; [done|].
    destruct (GCM_completed xdot F dt param (Z.to_nat nt) X0) as [m|]; [|done].
    cbn in HG. injection HG as <- <-. by exists m. }
  destruct Hc as (m & Hc & Hhist).
  assert (Hrows : ∀ j row t, hist !! j = Some row → rows Xtrue !! S j = Some t →
            (zip_with (λ a b, np.sub (stretch (length X0) a) (stretch (length X0) b))
               hist (drop 1 (rows Xtrue))) !! j = Some (np.sub row t)).
  { intros j row t Hj Ht. rewrite lookup_zip_with, Hj, lookup_drop. cbn.
    rewrite Ht. cbn. rewrite !stretch_id; [done| |].
    - rewrite <-Hk. by apply (proj1 (Forall_lookup _ _) HTk (S j)).
    - by apply (proj1 (Forall_lookup _ _) Hhk j). }
  assert (He : ∀ j row t, hist !! j = Some row → rows Xtrue !! S j = Some t →
            (sqrt <$> mean_axis1 add_reduce
               (square2 (Array2 (Z.to_nat nt) (length X0)
                  (zip_with (λ a b, np.sub (stretch (length X0) a) (stretch (length X0) b))
                     hist (drop 1 (rows Xtrue)))))) !! j
            = Some (sqrt (add_reduce (np.mul (np.sub row t) (np.sub row t))
                          / np.of_int (Z.of_nat (length X0))))).
  { intros j row t Hj Ht. unfold mean_axis1, square2. cbn [rows nrows ncols].
    by rewrite !list_lookup_fmap, (Hrows j row t Hj Ht). }
  assert (Hnan : ∀ j row, hist !! j = Some row → ¬ no_nan row →
            (sqrt <$> mean_axis1 add_reduce
               (square2 (Array2 (Z.to_nat nt) (length X0)
                  (zip_with (λ a b, np.sub (stretch (length X0) a) (stretch (length X0) b))
                     hist (drop 1 (rows Xtrue)))))) !! j = Some nan).
  { intros j row Hj Hrow.
    assert (Hlt : S j < length (rows Xtrue)).
    { rewrite HTn, Hn, <-Hhn. apply ->Nat.succ_lt_mono. by eapply lookup_lt_Some. }
    apply lookup_lt_is_Some in Hlt as [t Ht].
    rewrite (He j row t Hj Ht), add_reduce_nan, div_nan_l; [done|].
    apply square_sub_nan; [|done].
    rewrite (proj1 (Forall_lookup _ _) HTk (S j) t Ht), Hk.
    symmetry. by apply (proj1 (Forall_lookup _ _) Hhk j). }
  exists m. eexists. split; [done|]. split; [|split; [|split; [|split]]].
  - unfold err, sub2, tail_rows. cbn [rows nrows ncols].
    rewrite Hn, Hk. replace (S (Z.to_nat nt) - 1)%nat with (Z.to_nat nt) by lia.
    rewrite !broadcast_same. cbn [mbind option_bind].
    rewrite !stretch_id; [done| |done].
    rewrite length_drop, HTn, Hn. lia.
  - unfold mean_axis1, square2. cbn [rows nrows ncols].
    rewrite !length_fmap, length_zip_with, length_drop, Hhn, HTn, Hn. lia.
  - done.
  - done.
  - intros j Hmj Hj.
    assert (HX : X0 ≠ []).
    { intros ->. destruct (Z.to_nat nt) as [|k] eqn:E; [lia|].
      rewrite GCM_completed_empty in Hc by (done || lia). done. }
    apply (Hnan j (nan_row (length X0))).
    + rewrite Hhist. apply history_lookup_ge; lia.
    + destruct X0 as [|x X0]; [done|]. intros H. by apply Forall_cons_1 in H as [? _].
Qed.
End err_facts.

(** ** What the guard tests *)

(** X15. The guard of lines 275 and 514, [np.abs(X).max() > 1e3], trips
    exactly when no slot of the state is not-a-number and some slot is above
    1000 in absolute value; it lets the state pass when a slot is
    not-a-number or every slot is within the bound; it raises on the empty
    state only. *)
Theorem guard_trips_iff (X : np.ndarray) :
  (diverged X = Some true
     ↔ no_nan X ∧ ∃ v, v ∈ X ∧ (1e3 <? PrimFloat.abs v) = true)
  ∧ (diverged X = Some false
     ↔ X ≠ [] ∧ (¬ no_nan X ∨ ∀ v, v ∈ X → (1e3 <? PrimFloat.abs v) = false))
  ∧ (diverged X = None ↔ X = []).
Proof.
  split; [apply diverged_true_iff|]. split; [apply diverged_false_iff|].
  apply diverged_None.
Qed.

(** ** Not-a-number in the parameters *)

Section GCM_nan_parameters.
Context (xdot : np.ndarray → float → np.ndarray).
Hypothesis xdot_length : ∀ X F, length (xdot X F) = length X.
Hypothesis xdot_shape : tendency_shape xdot.

Lemma GCM_step_nan_parameter F dt param X :
  is_nan dt = true ∨ is_nan F = true →
  GCM_step xdot F dt param X = nan_row (length X).
Proof.
  intros Hnan. apply (list_eq_same_length _ _ (length X)).
  { apply length_replicate. }
  { by rewrite GCM_step_length. }
  intros k y z Hk Hy Hz.
  apply lookup_replicate in Hz as [-> _].
  apply lookup_lt_is_Some in Hk as [x Hx].
  destruct (xdot_shape X F k x Hx) as [a Ha].
  rewrite (GCM_step_lookup _ _ _ _ _ _ _ _ Hx Ha) in Hy. injection Hy as <-.
  destruct Hnan as [Hn|Hn]; apply is_nan_nan in Hn as ->.
  - by rewrite mul_nan_l, add_nan_r.
  - by rewrite add_nan_r, sub_nan_l, mul_nan_r, add_nan_r.
Qed.

(** X16. A step size or a forcing that is not-a-number is not refused:
    every slot of the state is not-a-number from the first step on, the guard
    never trips, and [GCM] returns its [nt] rows, all not-a-number, with all
    the times [dt * (n + 1)].  The tendency may be any function giving
    [(a - X_k) + F] in slot [k]. *)
Theorem GCM_nan_parameters X0 F dt nt param :
  is_nan dt = true ∨ is_nan F = true →
  (0 ≤ nt)%Z → X0 ≠ [] →
  GCM xdot X0 F dt nt param
  = Some (replicate (Z.to_nat nt) (replicate (length X0) nan),
          (λ n, dt * np.of_int (Z.of_nat n + 1)) <$> seq 0 (Z.to_nat nt)).
Proof.
  intros Hnan Hnt HX.
  assert (Hstate : ∀ j, GCM_state xdot F dt param X0 (S j) = nan_row (length X0)).
  { intros j. unfold GCM_state. rewrite Nat.iter_succ, GCM_step_nan_parameter by done.
    f_equal. apply (GCM_state_length xdot F dt param xdot_length). }
  assert (HK : (0 < length X0)%nat) by (destruct X0; [done|cbn; lia]).
  destruct (GCM_run xdot F dt param xdot_length X0 nt Hnt HX)
    as (m & Hc & HG & Hle & Hlt & Hm).
  assert (m = Z.to_nat nt) as ->.
  { destruct (decide (m = Z.to_nat nt)) as [|Hne]; [done|].
    rewrite Hstate, diverged_nan_row in Hm by done. by specialize (Hm ltac:(lia)). }
  rewrite HG. f_equal. f_equal.
  - unfold history. rewrite Nat.sub_diag. cbn [replicate]. rewrite app_nil_r.
    generalize (Z.to_nat nt). intros k. induction k as [|k IH]; [done|].
    rewrite seq_S, fmap_app, IH. cbn [fmap list_fmap Nat.add]. rewrite Hstate.
    change [nan_row (length X0)] with (replicate 1 (nan_row (length X0))).
    rewrite <-replicate_add. unfold nan_row. f_equal. lia.
  - unfold times. rewrite Nat.sub_diag. cbn [seq fmap list_fmap]. by rewrite app_nil_r.
Qed.
End GCM_nan_parameters.

(** ** Calls of [GCMs] one after the other *)

Section store_calls_stochastic.
Context (xdot : np.ndarray → float → np.ndarray).
Context (rng : Type) (randn : nat → rng → np.ndarray * rng).
Local Abbreviation world := (Store.world rng).
Local Abbreviation heap := (Store.heap rng).
Local Abbreviation gen := (Store.gen rng).
Local Abbreviation Vec := Store.Vec.
Local Abbreviation Mat := Store.Mat.

(** X17. A second call of [GCMs] goes on in the random stream where the
    first one left it: without a new seed between them, it returns what
    [GCMs] returns on the value of [X0] in the generator state that the
    first call left, and leaves the state that call leaves.  What the first
    call returned is still in its arrays. *)
Theorem GCMs_successive_calls (w : world) X0 x0
    F1 dt1 nt1 p1 s1 phi1 F2 dt2 nt2 p2 s2 phi2 r1 w1 r2 w2 :
  heap w !! X0 = Some (Vec x0) →
  Store.GCMs xdot rng randn X0 F1 dt1 nt1 p1 s1 phi1 w = (r1, w1) →
  Store.GCMs xdot rng randn X0 F2 dt2 nt2 p2 s2 phi2 w1 = (r2, w2) →
  Store.returned rng (r1, w2)
  = Store.contents (GCMs xdot rng randn x0 F1 dt1 nt1 p1 s1 phi1 (gen w)).1
  ∧ Store.returned rng (r2, w2)
    = Store.contents
        (GCMs xdot rng randn x0 F2 dt2 nt2 p2 s2 phi2
           (GCMs xdot rng randn x0 F1 dt1 nt1 p1 s1 phi1 (gen w)).2).1
  ∧ gen w2
    = (GCMs xdot rng randn x0 F2 dt2 nt2 p2 s2 phi2
         (GCMs xdot rng randn x0 F1 dt1 nt1 p1 s1 phi1 (gen w)).2).2.
Proof.
  intros HX0 E1 E2.
  destruct (GCMs_store xdot rng randn F1 dt1 p1 s1 phi1 w X0 x0 nt1 HX0)
    as (r & w' & E & Hg1 & Hfr1 & Hr1).
  rewrite E1 in E. injection E as <- <-.
  pose proof (Hfr1 _ _ HX0) as HX1.
  destruct (GCMs_store xdot rng randn F2 dt2 p2 s2 phi2 w1 X0 x0 nt2 HX1)
    as (r & w' & E & Hg2 & Hfr2 & Hr2).
  rewrite E2 in E. injection E as <- <-.
  split; [|split].
  - unfold Store.returned, Store.contents. cbn [fst snd].
    destruct (GCMs xdot rng randn x0 F1 dt1 nt1 p1 s1 phi1 (gen w)).1 as [[H T]|];
      [|by rewrite Hr1].
    destruct Hr1 as (h & t & -> & _ & _ & Hh & Ht).
    by rewrite (Hfr2 _ _ Hh), (Hfr2 _ _ Ht).
  - rewrite <-E2, <-Hg1. by apply GCMs_returned.
  - by rewrite Hg2, Hg1.
Qed.
End store_calls_stochastic.

(** ** The red noise does not depend on the state *)

Section GCMs_noise.
Context (xdot : np.ndarray → float → np.ndarray).
Hypothesis xdot_length : ∀ X F, length (xdot X F) = length X.
Context (rng : Type) (randn : nat → rng → np.ndarray * rng).
Hypothesis randn_length : ∀ K g, length (randn K g).1 = K.

(** X18. The red noise of [GCMs] runs on its own: the noise [ek] and the
    generator after [n] iterations are determined by [stoch], [phi], the
    size of the state and the generator state at the call, and by nothing
    else.  Two calls made in the same generator state on states of the same
    size, with whatever [F], [dt], [param] and initial values, have the same
    noise in every iteration. *)
Theorem GCMs_noise_independent_of_state
    F dt param X0 F' dt' param' X0' stoch phi g n :
  length X0 = length X0' →
  (GCMs_state xdot rng randn F dt param stoch phi X0 g n).1.1
  = (GCMs_state xdot rng randn F' dt' param' stoch phi X0' g n).1.1
  ∧ (GCMs_state xdot rng randn F dt param stoch phi X0 g n).2
    = (GCMs_state xdot rng randn F' dt' param' stoch phi X0' g n).2.
Proof.
  intros HK. unfold GCMs_state. rewrite HK.
  assert (H : ∀ ek X X' g, length ek = length X0' → length X = length X0' →
            length X' = length X0' →
            (Nat.iter n (GCMs_next xdot rng randn F dt param stoch phi) (ek, X, g)).1.1
            = (Nat.iter n (GCMs_next xdot rng randn F' dt' param' stoch phi) (ek, X', g)).1.1
            ∧ (Nat.iter n (GCMs_next xdot rng randn F dt param stoch phi) (ek, X, g)).2
              = (Nat.iter n (GCMs_next xdot rng randn F' dt' param' stoch phi) (ek, X', g)).2).
  { induction n as [|n IH]; intros ek X X' g0 He HX HX'; [done|].
    rewrite !GCMs_next_iter.
    destruct (GCMs_next_shape xdot xdot_length rng randn randn_length
                F dt param stoch phi _ ek X g0 He HX) as (He1 & HX1 & _).
    destruct (GCMs_next_shape xdot xdot_length rng randn randn_length
                F' dt' param' stoch phi _ ek X' g0 He HX') as (_ & HX1' & _).
    revert He1 HX1 HX1'. cbn [GCMs_next]. rewrite HX, HX'.
    destruct (randn (length X0') g0) as [z g1]. cbn [fst snd].
    intros He1 HX1 HX1'. by apply IH. }
  apply H; [apply length_replicate|done..].
Qed.
End GCMs_noise.

(** ** Cyclic shifts of the state *)

Lemma roll_lookup (a : np.ndarray) s k :
  k < length a →
  np.roll a s !! k
  = a !! rotate_nat_add (Z.to_nat ((- s) `mod` Z.of_nat (length a))) k (length a).
Proof. intros Hk. unfold np.roll. by apply lookup_rotate_r. Qed.

Lemma roll_fmap (f : float → float) (a : np.ndarray) s :
  np.roll (f <$> a) s = f <$> np.roll a s.
Proof.
  apply (list_eq_same_length _ _ (length a)).
  { by rewrite length_fmap, roll_length. }
  { by rewrite roll_length, length_fmap. }
  intros k y z Hk. rewrite roll_lookup by (by rewrite length_fmap).
  rewrite !list_lookup_fmap, roll_lookup by done.
  rewrite length_fmap. congruence.
Qed.

Lemma roll_zip_with (f : float → float → float) (a b : np.ndarray) s :
  length a = length b →
  np.roll (zip_with f a b) s = zip_with f (np.roll a s) (np.roll b s).
Proof.
  intros Hlen. apply (list_eq_same_length _ _ (length a)).
  { rewrite length_zip_with, !roll_length. lia. }
  { rewrite roll_length, length_zip_with. lia. }
  intros k y z Hk.
  rewrite roll_lookup by (rewrite length_zip_with; lia).
  rewrite !lookup_zip_with, !roll_lookup by lia.
  rewrite length_zip_with, <-Hlen, Nat.min_id. congruence.
Qed.

Lemma roll_replicate n (x : float) s : np.roll (replicate n x) s = replicate n x.
Proof. unfold np.roll. apply rotate_replicate. Qed.

Lemma no_nan_roll X s : no_nan (np.roll X s) ↔ no_nan X.
Proof.
  unfold no_nan, np.roll. rewrite !Forall_forall.
  split; intros H v Hv; apply H; by apply elem_of_rotate in Hv || apply elem_of_rotate.
Qed.

(** The guard does not depend on the order of the slots. *)
Lemma diverged_roll X s : diverged (np.roll X s) = diverged X.
Proof.
  destruct (diverged X) as [[]|] eqn:Hd.
  - apply diverged_true_iff in Hd as (Hnn & v & Hv & Hlt).
    apply diverged_true_iff. split; [by apply no_nan_roll|].
    exists v. split; [|done]. by apply elem_of_rotate.
  - apply diverged_false_iff in Hd as (HX & Hor).
    apply diverged_false_iff. split.
    + intros E. apply HX. apply (f_equal length) in E. rewrite roll_length in E.
      by destruct X.
    + destruct Hor as [Hnn|Hb]; [left; by rewrite no_nan_roll|right].
      intros v Hv. apply Hb. by apply elem_of_rotate in Hv.
  - apply diverged_None in Hd as ->. apply diverged_None.
    apply length_zero_iff_nil. by rewrite roll_length.
Qed.

Lemma polyval_roll p X s : np.polyval p (np.roll X s) = np.roll (np.polyval p X) s.
Proof.
  unfold np.polyval, np.zeros_like, np.zeros. rewrite roll_length.
  rewrite <-(roll_replicate (length X) 0 s) at 1.
  assert (Hlen : length (replicate (length X) (0 : float)) = length X)
    by apply length_replicate.
  revert Hlen. generalize (replicate (length X) (0 : float)).
  induction p as [|c p IH]; intros y Hy; [done|].
  cbn [foldl]. unfold np.adds at 2 4, np.mul at 2 4.
  rewrite <-roll_zip_with, <-roll_fmap by done.
  apply IH. rewrite length_fmap, length_zip_with. lia.
Qed.

Section GCM_symmetry.
Context (xdot : np.ndarray → float → np.ndarray).
Hypothesis xdot_length : ∀ X F, length (xdot X F) = length X.
Hypothesis xdot_roll : ∀ X F s, xdot (np.roll X s) F = np.roll (xdot X F) s.

Lemma GCM_step_roll F dt param X s :
  GCM_step xdot F dt param (np.roll X s) = np.roll (GCM_step xdot F dt param X) s.
Proof.
  unfold GCM_step, np.add, np.smul, np.sub.
  rewrite xdot_roll, polyval_roll.
  rewrite <-roll_zip_with by (by rewrite xdot_length, polyval_length).
  rewrite <-roll_fmap. rewrite <-roll_zip_with; [done|].
  rewrite length_fmap, length_zip_with, xdot_length, polyval_length. lia.
Qed.

Lemma GCM_loop_roll F dt param s ns : ∀ hist time X,
  GCM_loop xdot F dt param ns ((λ x, np.roll x s) <$> hist) time (np.roll X s)
  = (λ r : list np.ndarray * np.ndarray, ((λ x, np.roll x s) <$> r.1, r.2))
      <$> GCM_loop xdot F dt param ns hist time X.
Proof.
  induction ns as [|n ns IH]; intros hist time X; [done|].
  cbn [GCM_loop]. rewrite GCM_step_roll, diverged_roll.
  destruct (diverged _) as [[]|]; cbn [mbind option_bind]; [done| |done].
  rewrite <-IH. by rewrite list_fmap_insert.
Qed.

(** X19. [GCM] keeps the cyclic symmetry of the system: for a tendency
    that commutes with [np.roll], as that of the Lorenz-96 system does, the
    run from the initial state shifted by [s] slots is the run from the
    initial state with every row of the history shifted by [s]; it records
    as many rows, with the same times.  (The polynomial is applied slot by
    slot and the guard does not depend on the order of the slots.) *)
Theorem GCM_roll X0 F dt nt param s :
  GCM xdot (np.roll X0 s) F dt nt param
  = (λ r : list np.ndarray * np.ndarray, ((λ x, np.roll x s) <$> r.1, r.2))
      <$> GCM xdot X0 F dt nt param.
Proof.
  unfold GCM. destruct (nt <? 0)%Z; [done|].
  rewrite <-GCM_loop_roll. f_equal.
  rewrite roll_length, !hist0_nan, fmap_replicate. f_equal.
  unfold nan_row. by rewrite roll_replicate.
Qed.
End GCM_symmetry.

(** The tendency modelled from the spec commutes with [np.roll]. *)
Lemma rotate_nat_add_comm a b k len :
  (0 < len)%nat →
  rotate_nat_add a (rotate_nat_add b k len) len
  = rotate_nat_add b (rotate_nat_add a k len) len.
Proof.
  intros Hlen. unfold rotate_nat_add.
  rewrite !Z2Nat.id by (apply Z.mod_pos_bound; lia).
  rewrite !Zplus_mod_idemp_r. f_equal. f_equal. lia.
Qed.

Lemma roll_roll (X : np.ndarray) a b :
  np.roll (np.roll X a) b = np.roll (np.roll X b) a.
Proof.
  apply (list_eq_same_length _ _ (length X)); [by rewrite !roll_length..|].
  intros k y z Hk.
  rewrite (roll_lookup (np.roll X a) b k), (roll_lookup (np.roll X b) a k)
    by (by rewrite roll_length).
  rewrite !roll_length.
  rewrite !roll_lookup by (apply rotate_nat_add_lt; lia).
  rewrite rotate_nat_add_comm by lia. congruence.
Qed.

Lemma L96_eq1_xdot_roll X F s :
  L96_eq1_xdot (np.roll X s) F = np.roll (L96_eq1_xdot X F) s.
Proof.
  unfold L96_eq1_xdot, np.adds, np.sub, np.mul, np.neg.
  rewrite !(roll_roll X s).
  rewrite <-(roll_zip_with _ (np.roll X 2) (np.roll X (-1))) by (by rewrite !roll_length).
  rewrite <-roll_fmap.
  rewrite <-roll_zip_with
    by (by rewrite length_fmap, length_zip_with, !roll_length, Nat.min_id).
  rewrite <-roll_zip_with.
  2:{ rewrite length_zip_with, length_fmap, length_zip_with, !roll_length. lia. }
  by rewrite <-roll_fmap.
Qed.

(** ** Concrete runs *)

Lemma example_randn_length K g : length (example_randn K g).1 = K.
Proof. unfold example_randn. cbn. by rewrite length_fmap, length_seq. Qed.

Lemma example_randn_finite K g : Forall (λ v, is_finite v = true) (example_randn K g).1.
Proof.
  unfold example_randn. cbn. apply Forall_fmap, Forall_forall. intros i _. cbn.
  by destruct (Nat.even (g + i)).
Qed.

(** The run of [GCM] from [[1; 2; 3; 4]] with [F = 18] and the step size
    [dt = 1]: two steps are recorded and the third trips the guard. *)
Example GCM_run_example :
  GCM L96_eq1_xdot [1; 2; 3; 4] 18 1 5 [0]
  = Some ([[14; 17; 24; 15]; [-87; 144; 35; -54];
           [nan; nan; nan; nan]; [nan; nan; nan; nan]; [nan; nan; nan; nan]],
          [1; 2; 2; 3; 4]).
Proof. by vm_compute. Qed.

(** An initial state at [1e6] trips the guard at the first step: no row is
    recorded. *)
Example GCM_run_1e6 :
  GCM L96_eq1_xdot [1e6; 1e6; 1e6; 1e6] 18 0.002 3 [0]
  = Some ([[nan; nan; nan; nan]; [nan; nan; nan; nan]; [nan; nan; nan; nan]],
          [0; 0.002; 0.004]).
Proof. by vm_compute. Qed.

(** C1 at the run of [GCM_run_example]. *)
Lemma GCM_euler_forward_witness :
  ∃ m hist time,
    GCM_completed L96_eq1_xdot 18 1 [0] (Z.to_nat 5) [1; 2; 3; 4] = Some m
    ∧ GCM L96_eq1_xdot [1; 2; 3; 4] 18 1 5 [0] = Some (hist, time)
    ∧ (∀ n X, n < m →
         match n with O => Some [1; 2; 3; 4] | S n' => hist !! n' end = Some X →
         hist !! n
         = Some (np.add X (np.smul 1 (np.sub (L96_eq1_xdot X 18) (np.polyval [0] X)))))
    ∧ (∀ X k x, X !! k = Some x → np.polyval [0] X !! k = Some (np.horner [0] x)).
Proof.
  apply (GCM_euler_forward L96_eq1_xdot L96_eq1_xdot_length [1; 2; 3; 4] 18 1 5 [0]);
    [lia|done].
Defined.

(** C2 at the run of [GCM_run_example], whose third step trips the guard. *)
Lemma GCM_divergence_guard_witness :
  ∃ m hist time,
    GCM_completed L96_eq1_xdot 18 1 [0] (Z.to_nat 5) [1; 2; 3; 4] = Some m
    ∧ GCM L96_eq1_xdot [1; 2; 3; 4] 18 1 5 [0] = Some (hist, time)
    ∧ m ≤ 2
    ∧ no_nan (GCM_state L96_eq1_xdot 18 1 [0] [1; 2; 3; 4] (S m))
    ∧ (∃ v', v' ∈ GCM_state L96_eq1_xdot 18 1 [0] [1; 2; 3; 4] (S m)
             ∧ (1e3 <? PrimFloat.abs v') = true)
    ∧ length hist = Z.to_nat 5
    ∧ (∀ j, j < m → hist !! j = Some (GCM_state L96_eq1_xdot 18 1 [0] [1; 2; 3; 4] (S j)))
    ∧ (∀ j, m ≤ j → j < Z.to_nat 5 → hist !! j = Some (replicate 4 nan))
    ∧ (∀ j, m ≤ j → j < Z.to_nat 5 → time !! j = Some (1 * np.of_int (Z.of_nat j))).
Proof.
  apply (GCM_divergence_guard L96_eq1_xdot L96_eq1_xdot_length
           [1; 2; 3; 4] 18 1 5 [0] 2 4770).
  - vm_compute. lia.
  - change (no_nan [-5868; -7725; 4770; -8067]). repeat constructor.
  - change (4770 ∈ [-5868; -7725; 4770; -8067]).
    apply elem_of_cons. right. apply elem_of_cons. right. apply elem_of_cons. by left.
  - reflexivity.
Defined.

(** C2 as it is worded fails where a component overflows beside one that
    becomes not-a-number.  From the finite state [1e308; 0; 5; -1e308] the
    first step gives [inf; inf; nan; inf], whose components are above 1000.0
    in absolute value but for the one that is not-a-number: the guard lets
    it pass, the row is recorded and the run goes on to its last iteration,
    writing all its times. *)
Lemma GCM_divergence_guard_counterexample :
  GCM_state L96_eq1_xdot 18 1 [0] [1e308; 0; 5; -1e308] 1
  = [infinity; infinity; nan; infinity]
  ∧ (1e3 <? PrimFloat.abs infinity) = true
  ∧ diverged [infinity; infinity; nan; infinity] = Some false
  ∧ GCM_completed L96_eq1_xdot 18 1 [0] (Z.to_nat 3) [1e308; 0; 5; -1e308] = Some 3%nat
  ∧ GCM L96_eq1_xdot [1e308; 0; 5; -1e308] 18 1 3 [0]
    = Some ([[infinity; infinity; nan; infinity];
             [nan; nan; nan; nan]; [nan; nan; nan; nan]],
            [1; 2; 3]).
Proof. repeat split; by vm_compute. Qed.

(** C3 at the run of [GCM_run_example]. *)
Lemma GCM_valid_prefix_bounded_witness :
  ∃ m hist time,
    GCM_completed L96_eq1_xdot 18 1 [0] (Z.to_nat 5) [1; 2; 3; 4] = Some m
    ∧ GCM L96_eq1_xdot [1; 2; 3; 4] 18 1 5 [0] = Some (hist, time)
    ∧ m < Z.to_nat 5
    ∧ hist = take m hist ++ replicate (Z.to_nat 5 - m) (replicate 4 nan)
    ∧ ∀ j row v, j < m → hist !! j = Some row → v ∈ row →
        is_nan v = false ∧ (1e3 <? PrimFloat.abs v) = false.
Proof.
  apply (GCM_valid_prefix_bounded L96_eq1_xdot L96_eq1_xdot_length
           [1; 2; 3; 4] 18 1 5 [0] 2); [lia|by vm_compute].
Defined.

(** C4 at the call site of line 285, [T = 5] and [dt = 0.002]:
    [int(T / dt)] is 2500. *)
Lemma GCM_row_count_witness :
  ∃ m hist time,
    GCM_completed L96_eq1_xdot 18 0.002 [0] (Z.to_nat 2500) [1; 2; 3; 4] = Some m
    ∧ GCM L96_eq1_xdot [1; 2; 3; 4] 18 0.002 2500 [0] = Some (hist, time)
    ∧ (0 ≤ 2500)%Z ∧ length hist = Z.to_nat 2500 ∧ m ≤ Z.to_nat 2500
    ∧ (∀ j, j < m →
         hist !! j = Some (GCM_state L96_eq1_xdot 18 0.002 [0] [1; 2; 3; 4] (S j)))
    ∧ (∀ j, m ≤ j → j < Z.to_nat 2500 → hist !! j = Some (replicate 4 nan))
    ∧ (m = Z.to_nat 2500 ↔
         ∀ j, j < Z.to_nat 2500 →
           diverged (GCM_state L96_eq1_xdot 18 0.002 [0] [1; 2; 3; 4] (S j)) = Some false).
Proof.
  apply (GCM_row_count L96_eq1_xdot L96_eq1_xdot_length [1; 2; 3; 4] 18 0.002 5 2500 [0]);
    [reflexivity|reflexivity|reflexivity|done].
Defined.

(** C9 at the run of [GCM_run_example]. *)
Lemma GCM_history_starts_after_first_step_witness :
  ∃ m hist time,
    GCM_completed L96_eq1_xdot 18 1 [0] (Z.to_nat 5) [1; 2; 3; 4] = Some m
    ∧ GCM L96_eq1_xdot [1; 2; 3; 4] 18 1 5 [0] = Some (hist, time)
    ∧ length hist = Z.to_nat 5 ∧ length time = Z.to_nat 5
    ∧ ∀ n, n < m →
        hist !! n = Some (GCM_state L96_eq1_xdot 18 1 [0] [1; 2; 3; 4] (S n))
        ∧ time !! n = Some (1 * np.of_int (Z.of_nat n + 1)).
Proof.
  apply (GCM_history_starts_after_first_step L96_eq1_xdot L96_eq1_xdot_length
           [1; 2; 3; 4] 18 1 5 [0]); [lia|done].
Defined.

(** C8 at an empty initial state. *)
Lemma GCM_raises_iff_witness :
  GCM_alloc L96_eq1_xdot example_room [] 18 0.002 3 [0] = None
  ↔ (3 < 0)%Z ∨ example_room 3 (length (@nil float)) = false
    ∨ (0 < 3)%Z ∧ @nil float = [].
Proof. apply (GCM_raises_iff L96_eq1_xdot L96_eq1_xdot_length example_room). Defined.

(** With room for the buffers the call of [GCM_run_example] returns what it
    returns there; at [nt = 2^63] there is none and it raises. *)
Example GCM_alloc_example :
  GCM_alloc L96_eq1_xdot example_room [1; 2; 3; 4] 18 1 5 [0]
  = GCM L96_eq1_xdot [1; 2; 3; 4] 18 1 5 [0]
  ∧ GCM_alloc L96_eq1_xdot example_room [1; 2; 3; 4] 18 1 (2 ^ 63) [0] = None.
Proof. split; reflexivity. Qed.

(** C8 at a negative step size and three slow variables: [GCM] raises no
    configuration error, it steps and returns a trajectory. *)
Lemma GCM_no_validation_counterexample :
  (-1 <=? 0) = true ∧ length [1; 2; 3] < 4
  ∧ GCM L96_eq1_xdot [1; 2; 3] 18 (-1) 2 [0]
    = Some ([[-16; -14; -12]; [-50; -46; -42]], [-1; -2]).
Proof. split; [reflexivity|]. split; [cbn; lia|by vm_compute]. Qed.

(** C10 at the run of [GCM_run_example], with the generator
    [example_randn]. *)
Lemma GCMs_without_noise_is_GCM_witness :
  (GCMs L96_eq1_xdot nat example_randn [1; 2; 3; 4] 18 1 5 [0] 0 0.984 7%nat).1
  = GCM L96_eq1_xdot [1; 2; 3; 4] 18 1 5 [0].
Proof.
  apply (GCMs_without_noise_is_GCM L96_eq1_xdot L96_eq1_xdot_length L96_eq1_xdot_lookup
           nat example_randn example_randn_length example_randn_finite).
Defined.

(** C7 at a call on [example_world]. *)
Lemma GCM_leaves_caller_state_witness :
  (∃ r w', Store.GCM L96_eq1_xdot nat 5%positive 18 1 5 [0] example_world = (r, w')
     ∧ Store.heap nat w' !! 5%positive = Some (Store.Vec [1; 2; 3; 4])
     ∧ (∀ l o, Store.heap nat example_world !! l = Some o → Store.heap nat w' !! l = Some o)
     ∧ Store.gen nat w' = Store.gen nat example_world
     ∧ Store.returned nat (r, w')
       = Store.contents (GCM L96_eq1_xdot [1; 2; 3; 4] 18 1 5 [0]))
  ∧ (∃ r w', Store.GCMs L96_eq1_xdot nat example_randn 5%positive 18 1 5 [0] 1 0.984
               example_world = (r, w')
     ∧ Store.heap nat w' !! 5%positive = Some (Store.Vec [1; 2; 3; 4])
     ∧ (∀ l o, Store.heap nat example_world !! l = Some o → Store.heap nat w' !! l = Some o)
     ∧ Store.gen nat w'
       = (GCMs L96_eq1_xdot nat example_randn [1; 2; 3; 4] 18 1 5 [0] 1 0.984
            (Store.gen nat example_world)).2
     ∧ Store.returned nat (r, w')
       = Store.contents
           (GCMs L96_eq1_xdot nat example_randn [1; 2; 3; 4] 18 1 5 [0] 1 0.984
              (Store.gen nat example_world)).1).
Proof.
  apply (GCM_leaves_caller_state L96_eq1_xdot nat example_randn example_world
           5%positive [1; 2; 3; 4] 18 1 5 [0] 1 0.984).
  reflexivity.
Defined.

(** C5 at calls on [example_world] and [example_world']. *)
Lemma GCM_deterministic_witness :
  Store.returned nat (Store.GCM L96_eq1_xdot nat 5%positive 18 1 5 [0] example_world)
    = Store.returned nat (Store.GCM L96_eq1_xdot nat 2%positive 18 1 5 [0] example_world')
  ∧ (Store.gen nat example_world = Store.gen nat example_world' →
     Store.returned nat
       (Store.GCMs L96_eq1_xdot nat example_randn 5%positive 18 1 5 [0] 1 0.984
          example_world)
     = Store.returned nat
         (Store.GCMs L96_eq1_xdot nat example_randn 2%positive 18 1 5 [0] 1 0.984
            example_world')).
Proof.
  apply (GCM_deterministic L96_eq1_xdot nat example_randn example_world example_world'
           5%positive 2%positive [1; 2; 3; 4] 18 1 5 [0] 1 0.984); reflexivity.
Defined.

(** The call on [example_world], run: the arrays returned hold the run of
    [GCM_run_example], and the array of the caller is as it was. *)
Example GCM_store_example :
  Store.returned nat (Store.GCM L96_eq1_xdot nat 5%positive 18 1 5 [0] example_world)
  = Some (Some (Store.Mat [[14; 17; 24; 15]; [-87; 144; 35; -54];
                           [nan; nan; nan; nan]; [nan; nan; nan; nan];
                           [nan; nan; nan; nan]]),
          Some (Store.Vec [1; 2; 2; 3; 4]))
  ∧ Store.heap nat
      (Store.GCM L96_eq1_xdot nat 5%positive 18 1 5 [0] example_world).2 !! 5%positive
    = Some (Store.Vec [1; 2; 3; 4]).
Proof. split; by vm_compute. Qed.

(** X1 at a state with a not-a-number slot and a slot at 4096. *)
Lemma GCM_nan_never_trips_witness :
  ∃ hist time,
    GCM L96_eq1_xdot [nan; 0; 0; 0; 4096; 0; 0; 0] 0 0.5 3 [0] = Some (hist, time)
    ∧ GCM_completed L96_eq1_xdot 0 0.5 [0] (Z.to_nat 3) [nan; 0; 0; 0; 4096; 0; 0; 0]
      = Some (Z.to_nat 3)
    ∧ ∀ n, n < Z.to_nat 3 →
        hist !! n = Some (GCM_state L96_eq1_xdot 0 0.5 [0] [nan; 0; 0; 0; 4096; 0; 0; 0] (S n))
        ∧ ¬ no_nan (GCM_state L96_eq1_xdot 0 0.5 [0] [nan; 0; 0; 0; 4096; 0; 0; 0] (S n)).
Proof.
  apply (GCM_nan_never_trips L96_eq1_xdot L96_eq1_xdot_length
           [nan; 0; 0; 0; 4096; 0; 0; 0] 0 0.5 3 [0]); [lia|].
  intros H. apply Forall_cons in H as [H _]. vm_compute in H. discriminate H.
Defined.

(** A run from a state with a not-a-number slot and a slot at 4096: the
    row of the first step is recorded with 2048 in it. *)
Example GCM_run_nan :
  GCM L96_eq1_xdot [nan; 0; 0; 0; 4096; 0; 0; 0] 0 0.5 2 [0]
  = Some ([[nan; nan; nan; 0; 2048; 0; 0; nan]; [nan; nan; nan; nan; nan; 0; nan; nan]],
          [0.5; 1]).
Proof. by vm_compute. Qed.

(** ** More concrete runs *)

(** X2 on the run of [GCM_run_example]: the times are [1; 2; 2; 3; 4]. *)
Lemma GCM_time_repeats_at_break_witness :
  ∃ m hist time,
    GCM_completed L96_eq1_xdot 18 1 [0] (Z.to_nat 5) [1; 2; 3; 4] = Some m
    ∧ GCM L96_eq1_xdot [1; 2; 3; 4] 18 1 5 [0] = Some (hist, time)
    ∧ (0 < m)%nat ∧ m < Z.to_nat 5
    ∧ hist !! (m - 1)%nat = Some (GCM_state L96_eq1_xdot 18 1 [0] [1; 2; 3; 4] m)
    ∧ hist !! m = Some (replicate 4 nan)
    ∧ time !! (m - 1)%nat = Some (1 * np.of_int (Z.of_nat m))
    ∧ time !! m = Some (1 * np.of_int (Z.of_nat m)).
Proof.
  apply (GCM_time_repeats_at_break L96_eq1_xdot L96_eq1_xdot_length
           [1; 2; 3; 4] 18 1 5 [0] 2).
  - vm_compute. lia.
  - by vm_compute.
  - by vm_compute.
Defined.

(** X3 on the second row of that run. *)
Lemma GCM_rows_bounded_or_nan_witness :
  GCM L96_eq1_xdot [1; 2; 3; 4] 18 1 2 [0]
  = Some ([[14; 17; 24; 15]; [-87; 144; 35; -54]], [1; 2])
  ∧ (PrimFloat.abs 144 <=? 1e3) = true.
Proof.
  split; [by vm_compute|].
  apply (GCM_rows_bounded_or_nan L96_eq1_xdot L96_eq1_xdot_length
           [1; 2; 3; 4] 18 1 2 [0] [[14; 17; 24; 15]; [-87; 144; 35; -54]] [1; 2]
           1%nat [-87; 144; 35; -54] 144).
  - by vm_compute.
  - reflexivity.
  - repeat constructor.
  - apply elem_of_cons. right. apply elem_of_cons. by left.
Defined.

(** X4: two iterations, then three more from the second row, against the
    five of [GCM_run_example]. *)
Lemma GCM_restart_witness :
  ∃ hist2 time2 time,
    GCM L96_eq1_xdot [-87; 144; 35; -54] 18 1 3 [0] = Some (hist2, time2)
    ∧ GCM L96_eq1_xdot [1; 2; 3; 4] 18 1 (2 + 3) [0]
      = Some ([[14; 17; 24; 15]; [-87; 144; 35; -54]] ++ hist2, time).
Proof.
  apply (GCM_restart L96_eq1_xdot L96_eq1_xdot_length
           [1; 2; 3; 4] 18 1 2 3 [0] _ [1; 2] [-87; 144; 35; -54]).
  - lia.
  - by vm_compute.
  - done.
Defined.

(** X5 on a state with an infinite component. *)
Lemma GCM_leading_zero_coefficient_witness :
  GCM L96_eq1_xdot [infinity; 1; 2; 3] 18 0.002 3 [0; 0.5; -2]
  = GCM L96_eq1_xdot [infinity; 1; 2; 3] 18 0.002 3 [0.5; -2].
Proof.
  apply (GCM_leading_zero_coefficient L96_eq1_xdot L96_eq1_xdot_length).
  - intros X F k x Hx. by apply L96_eq1_xdot_lookup.
  - by vm_compute.
Defined.

(** X6 on a run with [stoch = 1] and the generator [example_randn]. *)
Lemma GCMs_records_until_guard_witness :
  ∃ m hist time,
    GCMs_completed L96_eq1_xdot nat example_randn 18 1 [0] 1 0.984 (Z.to_nat 5)
      (np.zeros (length [1; 2; 3; 4]), [1; 2; 3; 4], 7%nat) = Some m
    ∧ (GCMs L96_eq1_xdot nat example_randn [1; 2; 3; 4] 18 1 5 [0] 1 0.984 7%nat).1
      = Some (hist, time)
    ∧ m ≤ Z.to_nat 5 ∧ length hist = Z.to_nat 5 ∧ length time = Z.to_nat 5
    ∧ (∀ j, j < m →
         hist !! j
         = Some (GCMs_state L96_eq1_xdot nat example_randn 18 1 [0] 1 0.984
                   [1; 2; 3; 4] 7%nat (S j)).1.2
         ∧ time !! j = Some (1 * np.of_int (Z.of_nat j + 1))
         ∧ diverged (GCMs_state L96_eq1_xdot nat example_randn 18 1 [0] 1 0.984
                       [1; 2; 3; 4] 7%nat (S j)).1.2 = Some false)
    ∧ (m < Z.to_nat 5 →
         diverged (GCMs_state L96_eq1_xdot nat example_randn 18 1 [0] 1 0.984
                     [1; 2; 3; 4] 7%nat (S m)).1.2 = Some true)
    ∧ (∀ j, m ≤ j → j < Z.to_nat 5 →
         hist !! j = Some (replicate (length [1; 2; 3; 4]) nan)
         ∧ time !! j = Some (1 * np.of_int (Z.of_nat j))).
Proof.
  apply (GCMs_records_until_guard L96_eq1_xdot L96_eq1_xdot_length
           nat example_randn example_randn_length [1; 2; 3; 4] 18 1 5 [0] 1 0.984 7%nat).
  - lia.
  - done.
Defined.

(** X7 on the same run. *)
Lemma GCMs_generator_draws_witness :
  ∃ m,
    GCMs_completed L96_eq1_xdot nat example_randn 18 1 [0] 1 0.984 (Z.to_nat 5)
      (np.zeros (length [1; 2; 3; 4]), [1; 2; 3; 4], 7%nat) = Some m
    ∧ m ≤ Z.to_nat 5
    ∧ (GCMs L96_eq1_xdot nat example_randn [1; 2; 3; 4] 18 1 5 [0] 1 0.984 7%nat).2
      = draws nat example_randn (length [1; 2; 3; 4])
          (if decide (m < Z.to_nat 5) then S m else m) 7%nat.
Proof.
  apply (GCMs_generator_draws L96_eq1_xdot L96_eq1_xdot_length
           nat example_randn example_randn_length [1; 2; 3; 4] 18 1 5 [0] 1 0.984 7%nat).
  - lia.
  - done.
Defined.

(** X8 on the empty state. *)
Lemma GCMs_raises_iff_witness :
  (GCMs_alloc L96_eq1_xdot example_room nat example_randn
     [] 18 0.002 3 [0] 1 0.984 7%nat).1 = None
  ↔ (3 < 0)%Z ∨ example_room 3 (length (@nil float)) = false
    ∨ (0 < 3)%Z ∧ @nil float = [].
Proof.
  apply (GCMs_raises_iff L96_eq1_xdot L96_eq1_xdot_length
           nat example_randn example_randn_length example_room).
Defined.

(** X9 at [phi = 2], with [stoch = 0]. *)
Lemma GCMs_phi_out_of_range_witness :
  (GCMs L96_eq1_xdot nat example_randn [1; 2; 3; 4] 18 0.002 3 [0] 0 2 7%nat).1
  = Some (replicate (Z.to_nat 3) (replicate (length [1; 2; 3; 4]) nan),
          (λ n, 0.002 * np.of_int (Z.of_nat n + 1)) <$> seq 0 (Z.to_nat 3)).
Proof.
  apply (GCMs_phi_out_of_range L96_eq1_xdot L96_eq1_xdot_length
           nat example_randn example_randn_length).
  - by vm_compute.
  - lia.
  - done.
Defined.

(** The run of the example above: the guard stops it in its third
    iteration, after three draws of four samples. *)
Example GCMs_run_example :
  GCMs L96_eq1_xdot nat example_randn [1; 2; 3; 4] 18 1 5 [0] 0 0.984 7%nat
  = (Some ([[14; 17; 24; 15]; [-87; 144; 35; -54];
            [nan; nan; nan; nan]; [nan; nan; nan; nan]; [nan; nan; nan; nan]],
           [1; 2; 2; 3; 4]), 19%nat).
Proof. by vm_compute. Qed.

(** X10 at a call on [example_world], which returns the addresses 7 and
    6. *)
Lemma GCM_returns_new_arrays_witness :
  Store.heap nat example_world !! 7%positive = None
  ∧ Store.heap nat example_world !! 6%positive = None
  ∧ 7%positive ≠ 6%positive ∧ 7%positive ≠ 5%positive ∧ 6%positive ≠ 5%positive.
Proof.
  apply (GCM_returns_new_arrays L96_eq1_xdot nat example_randn example_world
           5%positive [1; 2; 3; 4] 18 1 5 [0] 1 0.984 7%positive 6%positive).
  - reflexivity.
  - left. by vm_compute.
Defined.

(** X11 on the calls [example_call1] and [example_call2]. *)
Lemma GCM_successive_calls_witness :
  Store.returned nat (example_call2.1, example_call2.2)
  = Store.contents (GCM L96_eq1_xdot [1; 2; 3; 4] 18 0.002 3 [0.5; -2])
  ∧ Store.returned nat (example_call1.1, example_call2.2)
    = Store.contents (GCM L96_eq1_xdot [1; 2; 3; 4] 18 1 5 [0])
  ∧ (∀ h1 t1 h2 t2,
       example_call1.1 = Some (h1, t1) → example_call2.1 = Some (h2, t2) →
       h2 ≠ h1 ∧ h2 ≠ t1 ∧ t2 ≠ h1 ∧ t2 ≠ t1).
Proof.
  apply (GCM_successive_calls L96_eq1_xdot nat example_world 5%positive [1; 2; 3; 4]
           18 1 5 [0] 18 0.002 3 [0.5; -2]
           example_call1.1 example_call1.2 example_call2.1 example_call2.2).
  - reflexivity.
  - apply surjective_pairing.
  - apply surjective_pairing.
Defined.

(** X12 with [stoch = -3]. *)
Lemma GCMs_phi_one_is_GCM_witness :
  (GCMs L96_eq1_xdot nat example_randn [1; 2; 3; 4] 18 0.002 5 [0.5; -2] (-3) 1 7%nat).1
  = GCM L96_eq1_xdot [1; 2; 3; 4] 18 0.002 5 [0.5; -2].
Proof.
  apply (GCMs_phi_one_is_GCM L96_eq1_xdot L96_eq1_xdot_length L96_eq1_xdot_lookup
           nat example_randn example_randn_length example_randn_finite).
  by vm_compute.
Defined.

(** X13 on an initial state with a slot that holds [-0]. *)
Lemma Xinit_is_Xtrue0_witness :
  ∃ X, Xinit [1; -0; 3; 4] (example_randn 4 7).1 = Some X
    ∧ length X = length [1; -0; 3; 4]
    ∧ ∀ k x, [1; -0; 3; 4] !! k = Some x →
        ∃ y, X !! k = Some y ∧ (y = x ∨ Prim2SF x = S754_zero true ∧ y = 0).
Proof.
  apply (Xinit_is_Xtrue0 [1; -0; 3; 4] (example_randn 4 7).1).
  - reflexivity.
  - apply example_randn_finite.
Defined.

(** Against a positive sample the [-0] of slot 1 becomes [+0]; against a
    negative one it stays. *)
Example Xinit_example :
  Xinit [1; -0; 3; 4] (example_randn 4 7).1 = Some [1; 0; 3; 4]
  ∧ Xinit [1; -0; 3; 4] (example_randn 4 8).1 = Some [1; -0; 3; 4].
Proof. split; by vm_compute. Qed.

(** X14 on the run of [GCM_run_example], the sum taken from left to
    right, against a truth that stays at the initial state. *)
Lemma err_of_run_witness :
  ∃ m e,
    GCM_completed L96_eq1_xdot 18 1 [0] (Z.to_nat 5) [1; 2; 3; 4] = Some m
    ∧ err example_add_reduce
        (Array2 (Z.to_nat 5) (length [1; 2; 3; 4])
           [[14; 17; 24; 15]; [-87; 144; 35; -54];
            [nan; nan; nan; nan]; [nan; nan; nan; nan]; [nan; nan; nan; nan]])
        (Array2 6 4 (replicate 6 [1; 2; 3; 4])) = Some e
    ∧ length e = Z.to_nat 5
    ∧ (∀ j row t,
         [[14; 17; 24; 15]; [-87; 144; 35; -54];
          [nan; nan; nan; nan]; [nan; nan; nan; nan]; [nan; nan; nan; nan]] !! j
         = Some row →
         rows (Array2 6 4 (replicate 6 [1; 2; 3; 4])) !! S j = Some t →
         e !! j = Some (sqrt (example_add_reduce (np.mul (np.sub row t) (np.sub row t))
                              / np.of_int (Z.of_nat (length [1; 2; 3; 4])))))
    ∧ (∀ j row,
         [[14; 17; 24; 15]; [-87; 144; 35; -54];
          [nan; nan; nan; nan]; [nan; nan; nan; nan]; [nan; nan; nan; nan]] !! j
         = Some row → ¬ no_nan row → e !! j = Some nan)
    ∧ (∀ j, m ≤ j → j < Z.to_nat 5 → e !! j = Some nan).
Proof.
  apply (err_of_run L96_eq1_xdot L96_eq1_xdot_length example_add_reduce
           example_add_reduce_nan [1; 2; 3; 4] 18 1 5 [0] _ [1; 2; 2; 3; 4]).
  - by vm_compute.
  - split; [done|]. cbn. repeat constructor.
  - done.
  - done.
Defined.

(** X16 at a step size that is not-a-number. *)
Lemma GCM_nan_parameters_witness :
  GCM L96_eq1_xdot [1; 2; 3; 4] 18 nan 3 [0]
  = Some (replicate (Z.to_nat 3) (replicate (length [1; 2; 3; 4]) nan),
          (λ n, nan * np.of_int (Z.of_nat n + 1)) <$> seq 0 (Z.to_nat 3)).
Proof.
  apply (GCM_nan_parameters L96_eq1_xdot L96_eq1_xdot_length).
  - intros X F k x Hx. by apply L96_eq1_xdot_lookup.
  - left. reflexivity.
  - lia.
  - done.
Defined.

(** X17 on two calls on [example_world]. *)
Lemma GCMs_successive_calls_witness :
  Store.returned nat (example_calls1.1, example_calls2.2)
  = Store.contents
      (GCMs L96_eq1_xdot nat example_randn [1; 2; 3; 4] 18 1 5 [0] 1 0.984 7%nat).1
  ∧ Store.returned nat (example_calls2.1, example_calls2.2)
    = Store.contents
        (GCMs L96_eq1_xdot nat example_randn [1; 2; 3; 4] 18 0.002 3 [0.5; -2] 1 0.984
           (GCMs L96_eq1_xdot nat example_randn [1; 2; 3; 4] 18 1 5 [0] 1 0.984 7%nat).2).1
  ∧ Store.gen nat example_calls2.2
    = (GCMs L96_eq1_xdot nat example_randn [1; 2; 3; 4] 18 0.002 3 [0.5; -2] 1 0.984
         (GCMs L96_eq1_xdot nat example_randn [1; 2; 3; 4] 18 1 5 [0] 1 0.984 7%nat).2).2.
Proof.
  apply (GCMs_successive_calls L96_eq1_xdot nat example_randn example_world 5%positive
           [1; 2; 3; 4] 18 1 5 [0] 1 0.984 18 0.002 3 [0.5; -2] 1 0.984
           example_calls1.1 example_calls1.2 example_calls2.1 example_calls2.2).
  - reflexivity.
  - apply surjective_pairing.
  - apply surjective_pairing.
Defined.

(** X18 on two runs that differ in everything but the size of the state. *)
Lemma GCMs_noise_independent_of_state_witness :
  (GCMs_state L96_eq1_xdot nat example_randn 18 1 [0] 1 0.984 [1; 2; 3; 4] 7%nat 3).1.1
  = (GCMs_state L96_eq1_xdot nat example_randn 8 0.002 [0.5; -2] 1 0.984
       [0; 0; 1; 0] 7%nat 3).1.1
  ∧ (GCMs_state L96_eq1_xdot nat example_randn 18 1 [0] 1 0.984 [1; 2; 3; 4] 7%nat 3).2
    = (GCMs_state L96_eq1_xdot nat example_randn 8 0.002 [0.5; -2] 1 0.984
         [0; 0; 1; 0] 7%nat 3).2.
Proof.
  apply (GCMs_noise_independent_of_state L96_eq1_xdot L96_eq1_xdot_length
           nat example_randn example_randn_length).
  reflexivity.
Defined.

(** X19 on the run of [GCM_run_example], shifted by one slot. *)
Lemma GCM_roll_witness :
  GCM L96_eq1_xdot (np.roll [1; 2; 3; 4] 1) 18 1 5 [0]
  = (λ r : list np.ndarray * np.ndarray, ((λ x, np.roll x 1) <$> r.1, r.2))
      <$> GCM L96_eq1_xdot [1; 2; 3; 4] 18 1 5 [0].
Proof.
  apply (GCM_roll L96_eq1_xdot L96_eq1_xdot_length L96_eq1_xdot_roll).
Defined.

Example GCM_roll_example :
  GCM L96_eq1_xdot [4; 1; 2; 3] 18 1 5 [0]
  = Some ([[15; 14; 17; 24]; [-54; -87; 144; 35];
           [nan; nan; nan; nan]; [nan; nan; nan; nan]; [nan; nan; nan; nan]],
          [1; 2; 2; 3; 4]).
Proof. by vm_compute. Qed.

(** The error of three rows against a truth of four: row [j] is set against
    row [j + 1]. *)
Example err_example :
  err example_add_reduce
    (Array2 3 4 [[4; 6; 3; 4]; [1; 2; 3; 4]; [nan; nan; nan; nan]])
    (Array2 4 4 [[9; 9; 9; 9]; [1; 2; 3; 4]; [1; 2; 3; 4]; [1; 2; 3; 4]])
  = Some [2.5; 0; nan].
Proof. by vm_compute. Qed.

(** Against a truth of as many rows as the history the subtraction raises;
    against one of two rows, of which one is left, it broadcasts. *)
Example err_shapes :
  err example_add_reduce
    (Array2 3 4 [[4; 6; 3; 4]; [1; 2; 3; 4]; [5; 2; 0; 4]])
    (Array2 3 4 [[9; 9; 9; 9]; [1; 2; 3; 4]; [1; 2; 3; 4]]) = None
  ∧ err example_add_reduce
      (Array2 3 4 [[4; 6; 3; 4]; [1; 2; 3; 4]; [5; 2; 0; 4]])
      (Array2 2 4 [[9; 9; 9; 9]; [1; 2; 3; 4]]) = Some [2.5; 0; 2.5].
Proof. split; by vm_compute. Qed.
